(** * RMDB core: the query planner and the external merge sorter

    A shallow embedding of [Planner] (index selection, predicate
    extraction and pushdown, join-tree construction, sort-column
    resolution), of [ExternalMergeSorter] (run generation and the
    loser-tree merge) and of the buffer pool's [LRUReplacer], followed
    by the properties proved about them. *)

From stdpp Require Import gmap strings list fin_maps sorting pretty.
From Stdlib Require Import ZArith Lia.

(** ** Errors

    C++ exceptions and undefined behaviour are results of the embedded
    functions.  [UndefinedBehaviour] stands for an out-of-range vector
    access, a null dereference, an out-of-range conversion or shift. *)

Inductive error :=
| UnixError
| TableNotFoundError (tab : string)
| RMDBError (msg : string)
| InternalError (msg : string)
| AmbiguousColumnError (col : string)
| ColumnNotFoundError (col : string)
| UndefinedBehaviour.

Inductive result (A : Type) :=
| Ok (a : A)
| Err (e : error).
Arguments Ok {A} a.
Arguments Err {A} e.

Definition bind {A B} (m : result A) (f : A → result B) : result B :=
  match m with
  | Ok a => f a
  | Err e => Err e
  end.

Notation "'let*' p ':=' m 'in' k" := (bind m (fun p => k))
  (at level 10, p pattern, m at level 100, k at level 200,
   format "'[v' 'let*'  p  ':='  m  'in' '/' k ']'").

Definition is_Ok {A} (r : result A) : Prop := ∃ a, r = Ok a.

(** A vector access [v[i]]: undefined outside the vector. *)
Definition at_ {A} (v : list A) (i : nat) : result A :=
  match v !! i with
  | Some a => Ok a
  | None => Err UndefinedBehaviour
  end.

(** ** Planner: data model *)

Inductive CompOp := OP_EQ | OP_NE | OP_LT | OP_GT | OP_LE | OP_GE.

Global Instance CompOp_eq_dec : EqDecision CompOp.
Proof. solve_decision. Defined.

Record TabCol := mkTabCol { tab_name : string; col_name : string }.

Global Instance TabCol_eq_dec : EqDecision TabCol.
Proof. solve_decision. Defined.

(** Modelled from the spec: the literal right-hand side of a condition
    (the [Value] struct is declared outside the planner); [NoValue] is
    the default-constructed value of a column-vs-column condition. *)
Inductive Value :=
| NoValue
| IntValue (int_val : Z)
| StringValue (str_val : string).

Global Instance Value_eq_dec : EqDecision Value.
Proof. solve_decision. Defined.

Record Condition := mkCondition {
  lhs_col : TabCol;
  op : CompOp;
  is_rhs_val : bool;
  rhs_col : TabCol;
  rhs_val : Value
}.

Global Instance Condition_eq_dec : EqDecision Condition.
Proof. solve_decision. Defined.

(** Modelled from the spec: the catalog's descriptors, "cols:
    [ColMeta{name, type, length, tab_name}]" and "indexes:
    [IndexMeta{cols: [ColRef]}]" (their declarations are outside the
    planner).  [TabMeta.cols] is named [tab_cols] here, [IndexMeta.cols]
    keeps its name; [ColMeta.tab_name] is [col_tab_name]. *)
Inductive ColType := TYPE_INT | TYPE_FLOAT | TYPE_STRING.

Record ColMeta := mkColMeta {
  col_tab_name : string;
  name : string;
  type : ColType;
  len : Z
}.

Record IndexMeta := mkIndexMeta { cols : list ColMeta }.

Record TabMeta := mkTabMeta {
  tab_cols : list ColMeta;
  indexes : list IndexMeta
}.

(** The object left behind by [std::move]: its strings are emptied, its
    scalars are kept. *)
Definition moved_TabCol (c : TabCol) : TabCol :=
  {| tab_name := EmptyString; col_name := EmptyString |}.

Definition moved_Value (v : Value) : Value :=
  match v with
  | StringValue _ => StringValue EmptyString
  | _ => v
  end.

Definition moved_Condition (c : Condition) : Condition :=
  {| lhs_col := moved_TabCol (lhs_col c);
     op := op c;
     is_rhs_val := is_rhs_val c;
     rhs_col := moved_TabCol (rhs_col c);
     rhs_val := moved_Value (rhs_val c) |}.

(** ** Planner: the loops of index selection ([Planner::get_index_cols]) *)

(** The first loop: [eq_index_map] and [neq_index_map], column name to
    position in [curr_conds]; a later condition overwrites an earlier. *)
Fixpoint parse_conds (i : nat) (curr_conds : list Condition)
    (eq_index_map neq_index_map : gmap string nat)
  : gmap string nat * gmap string nat :=
  match curr_conds with
  | [] => (eq_index_map, neq_index_map)
  | c :: rest =>
      if decide (op c = OP_EQ)
      then parse_conds (S i) rest
             (<[col_name (lhs_col c) := i]> eq_index_map) neq_index_map
      else parse_conds (S i) rest
             eq_index_map (<[col_name (lhs_col c) := i]> neq_index_map)
  end.

(** The inner loop over the key columns of one index, from [len]. *)
Fixpoint left_match_len (eq_index_map neq_index_map : gmap string nat)
    (index_cols : list ColMeta) (len : Z) : Z :=
  match index_cols with
  | [] => len
  | c :: rest =>
      if decide (is_Some (eq_index_map !! name c))
      then left_match_len eq_index_map neq_index_map rest (len + 1)
      else if decide (is_Some (neq_index_map !! name c))
      then len + 1
      else len
  end.

(** The outer loop over [tab.indexes], from index number [i]; the state
    is [(max_left_match_index, max_left_match_len)]. *)
Fixpoint max_left_match (eq_index_map neq_index_map : gmap string nat)
    (idxs : list IndexMeta) (i : nat)
    (max_left_match_index max_left_match_len : Z) : Z * Z :=
  match idxs with
  | [] => (max_left_match_index, max_left_match_len)
  | ix :: rest =>
      let len := left_match_len eq_index_map neq_index_map (cols ix) 0 in
      if (len >? max_left_match_len)%Z
      then max_left_match eq_index_map neq_index_map rest (S i) (Z.of_nat i) len
      else max_left_match eq_index_map neq_index_map rest (S i)
             max_left_match_index max_left_match_len
  end.

(** Positions in [curr_conds] of the conditions matched by the first
    [n] key columns: [left_match_index]. *)
Fixpoint left_match_positions (eq_index_map neq_index_map : gmap string nat)
    (index_cols : list ColMeta) (n : nat) : list nat :=
  match n, index_cols with
  | S n', c :: rest =>
      match eq_index_map !! name c, neq_index_map !! name c with
      | Some p, _ => p :: left_match_positions eq_index_map neq_index_map rest n'
      | None, Some p => p :: left_match_positions eq_index_map neq_index_map rest n'
      | None, None => left_match_positions eq_index_map neq_index_map rest n'
      end
  | _, _ => []
  end.

(** [new_conds.push_back(std::move(curr_conds[left_match_index[i]]))] *)
Fixpoint move_matched (left_match_index : list nat)
    (curr_conds new_conds : list Condition)
  : result (list Condition * list Condition) :=
  match left_match_index with
  | [] => Ok (curr_conds, new_conds)
  | p :: rest =>
      let* c := at_ curr_conds p in
      move_matched rest (<[p := moved_Condition c]> curr_conds) (new_conds ++ [c])
  end.

(** The last loop: the conditions whose position is not in
    [left_match_index_set], in order, from position [i]. *)
Fixpoint move_unmatched (left_match_index_set : gset nat) (i : nat)
    (curr_conds new_conds : list Condition) : list Condition :=
  match curr_conds with
  | [] => new_conds
  | c :: rest =>
      if decide (i ∈ left_match_index_set)
      then move_unmatched left_match_index_set (S i) rest new_conds
      else move_unmatched left_match_index_set (S i) rest (new_conds ++ [c])
  end.



(** ** Planner: plans, queries and the syntax tree *)

Inductive PlanTag :=
| T_Invalid | T_CreateTable | T_DropTable | T_CreateIndex | T_DropIndex
| T_ShowIndex | T_Insert | T_Update | T_Delete | T_select
| T_SeqScan | T_IndexScan | T_NestLoop | T_SortMerge | T_SortMergeWithIndex
| T_Sort | T_Aggregation | T_Projection.

(** Modelled from the spec: the members of the syntax tree, of [ColDef]
    and of [SetClause] that the planner reads (their declarations are
    outside the planner). *)
Inductive SvType := SV_TYPE_INT | SV_TYPE_FLOAT | SV_TYPE_STRING.

Record ColDef := mkColDef { def_name : string; def_type : ColType; def_len : Z }.

Record SetClause := mkSetClause { set_lhs : TabCol; set_rhs : Value }.

Inductive OrderByDir := OrderBy_DEFAULT | OrderBy_ASC | OrderBy_DESC.

Global Instance OrderByDir_eq_dec : EqDecision OrderByDir.
Proof. solve_decision. Defined.

Record OrderBy := mkOrderBy { order_cols : TabCol; orderby_dir : OrderByDir }.

Inductive Field :=
| F_ColDef (col_name : string) (sv_type : SvType) (len : Z)
| F_Other.

Inductive TreeNode :=
| CreateTable (tab_name : string) (fields : list Field)
| DropTable (tab_name : string)
| CreateIndex (tab_name : string) (col_names : list string)
| DropIndex (tab_name : string) (col_names : list string)
| ShowIndex (tab_name : string)
| InsertStmt (tab_name : string)
| DeleteStmt (tab_name : string)
| UpdateStmt (tab_name : string)
| SelectStmt (has_sort : bool) (order : option OrderBy)
| OtherNode.

Record Query := mkQuery {
  parse : TreeNode;
  tables : list string;
  conds : list Condition;
  query_cols : list TabCol;
  has_aggr : bool;
  group_cols : list TabCol;
  having_conds : list Condition;
  values : list Value;
  set_clauses : list SetClause
}.

Definition set_conds (query : Query) (cs : list Condition) : Query :=
  {| parse := parse query; tables := tables query; conds := cs;
     query_cols := query_cols query; has_aggr := has_aggr query;
     group_cols := group_cols query; having_conds := having_conds query;
     values := values query; set_clauses := set_clauses query |}.

(** The tagged plan tree; [NullPlan] is a null [shared_ptr<Plan>]. *)
Inductive Plan :=
| NullPlan
| ScanPlan (tag : PlanTag) (tab_name_ : string) (conds_ : list Condition)
    (index_col_names_ : list string)
| JoinPlan (tag : PlanTag) (left_ right_ : Plan) (conds_ : list Condition)
| SortPlan (tag : PlanTag) (subplan_ : Plan) (sel_col_ : TabCol) (is_desc_ : bool)
| AggregationPlan (tag : PlanTag) (subplan_ : Plan) (output_cols_ : list TabCol)
    (group_cols_ : list TabCol) (having_conds_ : list Condition)
| ProjectionPlan (tag : PlanTag) (subplan_ : Plan) (sel_cols_ : list TabCol)
| DMLPlan (tag : PlanTag) (subplan_ : Plan) (tab_name_ : string)
    (values_ : list Value) (conds_ : list Condition) (set_clauses_ : list SetClause)
| DDLPlan (tag : PlanTag) (tab_name_ : string) (tab_col_names_ : list string)
    (cols_ : list ColDef).

(** ** Planner: predicate extraction and pushdown *)

(** [pop_conds] returns [solved_conds] and what is left of [conds]. *)
Fixpoint pop_conds (conds : list Condition) (tab_names : string)
  : list Condition * list Condition :=
  match conds with
  | [] => ([], [])
  | it :: rest =>
      let '(solved_conds, conds') := pop_conds rest tab_names in
      if (String.eqb tab_names (tab_name (lhs_col it)) && is_rhs_val it)
         || String.eqb (tab_name (lhs_col it)) (tab_name (rhs_col it))
      then (it :: solved_conds, conds')
      else (solved_conds, it :: conds')
  end.

Definition swap_op (o : CompOp) : CompOp :=
  match o with
  | OP_EQ => OP_EQ
  | OP_NE => OP_NE
  | OP_LT => OP_GT
  | OP_GT => OP_LT
  | OP_LE => OP_GE
  | OP_GE => OP_LE
  end.

(** [std::swap(cond->lhs_col, cond->rhs_col)] *)
Definition swap_cols (cond : Condition) : Condition :=
  {| lhs_col := rhs_col cond; op := op cond; is_rhs_val := is_rhs_val cond;
     rhs_col := lhs_col cond; rhs_val := rhs_val cond |}.

Definition set_op (cond : Condition) (o : CompOp) : Condition :=
  {| lhs_col := lhs_col cond; op := o; is_rhs_val := is_rhs_val cond;
     rhs_col := rhs_col cond; rhs_val := rhs_val cond |}.

(** [push_conds] returns its [int] together with the final [*cond] and
    the plan tree, whose join nodes it may extend. *)
Fixpoint push_conds (cond : Condition) (plan : Plan) : Z * Condition * Plan :=
  match plan with
  | ScanPlan _ x_tab_name_ _ _ =>
      if String.eqb x_tab_name_ (tab_name (lhs_col cond)) then (1%Z, cond, plan)
      else if String.eqb x_tab_name_ (tab_name (rhs_col cond)) then (2%Z, cond, plan)
      else (0%Z, cond, plan)
  | JoinPlan tag left_ right_ conds_ =>
      let '(left_res, cond, left_) := push_conds cond left_ in
      if (left_res =? 3)%Z then (3%Z, cond, JoinPlan tag left_ right_ conds_)
      else
        let '(right_res, cond, right_) := push_conds cond right_ in
        if (right_res =? 3)%Z then (3%Z, cond, JoinPlan tag left_ right_ conds_)
        else if (left_res =? 0)%Z || (right_res =? 0)%Z
        then ((left_res + right_res)%Z, cond, JoinPlan tag left_ right_ conds_)
        else
          let cond :=
            if (left_res =? 2)%Z
            then set_op (swap_cols cond) (swap_op (op cond))
            else cond in
          (3%Z, moved_Condition cond, JoinPlan tag left_ right_ (conds_ ++ [cond]))
  | _ => (0%Z, cond, plan)
  end.

(** [pop_scan]: a returned [shared_ptr] is the position of the plan in
    [plans], [None] is [nullptr]. *)
Fixpoint pop_scan_find (i : nat) (plans : list Plan) (table : string)
  : result (option (nat * string)) :=
  match plans with
  | [] => Ok None
  | ScanPlan _ x_tab_name_ _ _ :: rest =>
      if String.eqb x_tab_name_ table then Ok (Some (i, x_tab_name_))
      else pop_scan_find (S i) rest table
  | _ :: _ => Err UndefinedBehaviour
  end.

Definition pop_scan (scantbl : list Z) (table : string)
    (joined_tables : list string) (plans : list Plan)
  : result (list Z * list string * option nat) :=
  let* found := pop_scan_find 0 plans table in
  match found with
  | Some (i, x_tab_name_) =>
      Ok (<[i := 1%Z]> scantbl, joined_tables ++ [x_tab_name_], Some i)
  | None => Ok (scantbl, joined_tables, None)
  end.

(** The plan a [shared_ptr] returned by [pop_scan] points to. *)
Definition deref (plans : list Plan) (p : option nat) : Plan :=
  match p with
  | Some i => default NullPlan (plans !! i)
  | None => NullPlan
  end.

Section Planner.
(** [sm_manager_->db_], the two global feature flags, and the
    conversion of a parsed column type (declared outside the planner). *)
Variable db_ : gmap string TabMeta.
Variables enable_nestedloop_join enable_sortmerge_join : bool.
Variable interp_sv_type : SvType → ColType.

(** Modelled from the spec: "get_table(name) → TabMeta" of the catalog
    interface; a missing table is an error. *)
Definition get_table (tab : string) : result TabMeta :=
  match db_ !! tab with
  | Some t => Ok t
  | None => Err (TableNotFoundError tab)
  end.

(** [get_index_cols] returns its [bool] together with the final
    contents of the two reference parameters. *)
Definition get_index_cols (tab_name : string) (curr_conds : list Condition)
    (index_col_names : list string)
  : result (bool * list Condition * list string) :=
  let index_col_names : list string := [] in
  let* tab := get_table tab_name in
  let '(eq_index_map, neq_index_map) := parse_conds 0 curr_conds ∅ ∅ in
  let '(max_left_match_index, max_left_match_len) :=
    max_left_match eq_index_map neq_index_map (indexes tab) 0 (-1) 0 in
  if decide (max_left_match_index = (-1)%Z)
  then Ok (false, curr_conds, index_col_names)
  else
    let* ix := at_ (indexes tab) (Z.to_nat max_left_match_index) in
    let index_col_names := index_col_names ++ map name (cols ix) in
    let left_match_index :=
      left_match_positions eq_index_map neq_index_map (cols ix)
        (Z.to_nat max_left_match_len) in
    let left_match_index_set : gset nat := list_to_set left_match_index in
    let* (curr_conds, new_conds) := move_matched left_match_index curr_conds [] in
    let new_conds := move_unmatched left_match_index_set 0 curr_conds new_conds in
    Ok (true, new_conds, index_col_names).

(** ** Planner: join-tree construction ([Planner::make_one_rel]) *)

(** The loop building [table_scan_executors]. *)
Fixpoint make_scans (tables : list string) (conds : list Condition)
  : result (list Plan * list Condition) :=
  match tables with
  | [] => Ok ([], conds)
  | t :: rest =>
      let '(curr_conds, conds) := pop_conds conds t in
      let* (index_exist, curr_conds, index_col_names) :=
        get_index_cols t curr_conds [] in
      let scan :=
        if index_exist
        then ScanPlan T_IndexScan t curr_conds index_col_names
        else ScanPlan T_SeqScan t curr_conds [] in
      let* (scans, conds) := make_scans rest conds in
      Ok (scan :: scans, conds)
  end.

(** The first-level join, built from the first remaining condition. *)
Definition first_join (table_scan_executors : list Plan) (scantbl : list Z)
    (joined_tables : list string) (it : Condition)
  : result (Plan * list Z * list string) :=
  let* (scantbl, joined_tables, left_p) :=
    pop_scan scantbl (tab_name (lhs_col it)) joined_tables table_scan_executors in
  let* (scantbl, joined_tables, right_p) :=
    pop_scan scantbl (tab_name (rhs_col it)) joined_tables table_scan_executors in
  let* _ := at_ table_scan_executors 1 in
  let '(left_p, right_p, it) :=
    if decide (left_p = Some 1 ∧ right_p = Some 0)
    then (right_p, left_p, swap_cols it)
    else (left_p, right_p, it) in
  let left := deref table_scan_executors left_p in
  let right := deref table_scan_executors right_p in
  let join_conds := [it] in
  if enable_nestedloop_join && enable_sortmerge_join
  then Ok (JoinPlan T_NestLoop left right join_conds, scantbl, joined_tables)
  else if enable_nestedloop_join
  then Ok (JoinPlan T_NestLoop left right join_conds, scantbl, joined_tables)
  else if enable_sortmerge_join
  then
    let* (left_index_exist, join_conds, left_index_col_name) :=
      get_index_cols (tab_name (lhs_col it)) join_conds [] in
    let it := swap_cols it in
    let* (right_index_exist, join_conds, right_index_col_name) :=
      get_index_cols (tab_name (lhs_col it)) join_conds [] in
    let it := swap_cols it in
    if left_index_exist && right_index_exist
    then
      let left := ScanPlan T_IndexScan (tab_name (lhs_col it)) [] left_index_col_name in
      let right := ScanPlan T_IndexScan (tab_name (rhs_col it)) [] right_index_col_name in
      Ok (JoinPlan T_SortMergeWithIndex left right join_conds, scantbl, joined_tables)
    else Ok (JoinPlan T_SortMerge left right join_conds, scantbl, joined_tables)
  else Err (RMDBError "No join executor selected!").

(** One round of the loop over the remaining conditions (joins of
    level 2 to n), on condition [it]. *)
Definition join_more_step (table_scan_executors : list Plan) (it : Condition)
    (scantbl : list Z) (joined_tables : list string) (table_join_executors : Plan)
  : result (Plan * list Z * list string) :=
  let* (scantbl, joined_tables, left_need_to_join_executors) :=
    (if decide (tab_name (lhs_col it) ∈ joined_tables)
     then Ok (scantbl, joined_tables, None)
     else pop_scan scantbl (tab_name (lhs_col it)) joined_tables
            table_scan_executors) in
  let* (scantbl, joined_tables, right_need_to_join_executors, isneedreverse) :=
    (if decide (tab_name (rhs_col it) ∈ joined_tables)
     then Ok (scantbl, joined_tables, None, false)
     else
       let* (scantbl, joined_tables, p) :=
         pop_scan scantbl (tab_name (rhs_col it)) joined_tables
           table_scan_executors in
       Ok (scantbl, joined_tables, p, true)) in
  let table_join_executors :=
    match left_need_to_join_executors, right_need_to_join_executors with
    | Some _, Some _ =>
        let temp_join_executors :=
          JoinPlan T_NestLoop
            (deref table_scan_executors left_need_to_join_executors)
            (deref table_scan_executors right_need_to_join_executors) [it] in
        JoinPlan T_NestLoop temp_join_executors table_join_executors []
    | None, None => (push_conds it table_join_executors).2
    | _, _ =>
        let '(it, left_need_to_join_executors) :=
          if isneedreverse
          then (set_op (swap_cols it) (swap_op (op it)),
                right_need_to_join_executors)
          else (it, left_need_to_join_executors) in
        JoinPlan T_NestLoop
          (deref table_scan_executors left_need_to_join_executors)
          table_join_executors [it]
    end in
  Ok (table_join_executors, scantbl, joined_tables).

Fixpoint join_more (table_scan_executors : list Plan) (conds : list Condition)
    (scantbl : list Z) (joined_tables : list string) (table_join_executors : Plan)
  : result (Plan * list Z * list string) :=
  match conds with
  | [] => Ok (table_join_executors, scantbl, joined_tables)
  | it :: rest =>
      let* (table_join_executors, scantbl, joined_tables) :=
        join_more_step table_scan_executors it scantbl joined_tables
          table_join_executors in
      join_more table_scan_executors rest scantbl joined_tables table_join_executors
  end.

(** The last loop: every table still marked [-1] joins from the left. *)
Fixpoint join_unscanned (table_scan_executors : list Plan) (scantbl : list Z)
    (table_join_executors : Plan) : Plan :=
  match table_scan_executors, scantbl with
  | scan :: scans, flag :: flags =>
      join_unscanned scans flags
        (if (flag =? -1)%Z
         then JoinPlan T_NestLoop scan table_join_executors []
         else table_join_executors)
  | _, _ => table_join_executors
  end.

(** [make_one_rel] returns the plan and the query, whose [conds] it
    consumes. *)
Definition make_one_rel (query : Query) : result (Plan * Query) :=
  let tables := tables query in
  let* (table_scan_executors, query_conds) := make_scans tables (conds query) in
  let query := set_conds query query_conds in
  if decide (length tables = 1)
  then
    let* scan := at_ table_scan_executors 0 in
    Ok (scan, query)
  else
    let conds := query_conds in
    let query := set_conds query [] in
    let scantbl := replicate (length tables) (-1)%Z in
    let* (table_join_executors, scantbl) :=
      match conds with
      | it :: rest =>
          let joined_tables := replicate (length tables) EmptyString in
          let* (table_join_executors, scantbl, joined_tables) :=
            first_join table_scan_executors scantbl joined_tables it in
          let* (table_join_executors, scantbl, joined_tables) :=
            join_more table_scan_executors rest scantbl joined_tables
              table_join_executors in
          Ok (table_join_executors, scantbl)
      | [] =>
          let* scan := at_ table_scan_executors 0 in
          Ok (scan, <[0 := 1%Z]> scantbl)
      end in
    Ok (join_unscanned table_scan_executors scantbl table_join_executors, query).

(** ** Planner: sort, aggregation, projection and dispatch *)

(** The loop collecting [all_cols]. *)
Fixpoint collect_cols (tables : list string) (all_cols : list ColMeta)
  : result (list ColMeta) :=
  match tables with
  | [] => Ok all_cols
  | sel_tab_name :: rest =>
      let* tab := get_table sel_tab_name in
      collect_cols rest (all_cols ++ tab_cols tab)
  end.

(** The loop assigning [sel_col]. *)
Fixpoint resolve_sel_col (all_cols : list ColMeta) (order_col_name : string)
    (sel_col : TabCol) : TabCol :=
  match all_cols with
  | [] => sel_col
  | col :: rest =>
      resolve_sel_col rest order_col_name
        (if String.eqb (name col) order_col_name
         then {| tab_name := col_tab_name col; col_name := name col |}
         else sel_col)
  end.

Definition generate_sort_plan (query : Query) (plan : Plan) : result Plan :=
  match parse query with
  | SelectStmt has_sort order =>
      if negb has_sort then Ok plan
      else
        let* all_cols := collect_cols (tables query) [] in
        match order with
        | None => Err UndefinedBehaviour
        | Some order =>
            let sel_col :=
              resolve_sel_col all_cols (col_name (order_cols order))
                (mkTabCol EmptyString EmptyString) in
            Ok (SortPlan T_Sort plan sel_col
                  (bool_decide (orderby_dir order = OrderBy_DESC)))
        end
  | _ => Err UndefinedBehaviour
  end.

Definition generate_aggregation_group_plan (query : Query) (plan : Plan) : Plan :=
  if negb (has_aggr query) && bool_decide (group_cols query = [])
  then plan
  else AggregationPlan T_Aggregation plan (query_cols query) (group_cols query)
         (having_conds query).

Definition physical_optimization (query : Query) : result Plan :=
  let* (plan, query) := make_one_rel query in
  let plan := generate_aggregation_group_plan query plan in
  generate_sort_plan query plan.

Definition logical_optimization (query : Query) : Query := query.

Definition generate_select_plan (query : Query) : result Plan :=
  let query := logical_optimization query in
  let sel_cols := query_cols query in
  let* plannerRoot := physical_optimization query in
  Ok (ProjectionPlan T_Projection plannerRoot sel_cols).

Fixpoint make_col_defs (fields : list Field) (col_defs : list ColDef)
  : result (list ColDef) :=
  match fields with
  | [] => Ok col_defs
  | F_ColDef col_name sv_type len :: rest =>
      make_col_defs rest
        (col_defs ++ [{| def_name := col_name; def_type := interp_sv_type sv_type;
                         def_len := len |}])
  | F_Other :: _ => Err (InternalError "Unexpected field type")
  end.

(** The scan of a DELETE or UPDATE; [get_index_cols] works on
    [query->conds] itself. *)
Definition single_table_scan (x_tab_name : string) (query : Query)
  : result (Plan * Query) :=
  let* (index_exist, query_conds, index_col_names) :=
    get_index_cols x_tab_name (conds query) [] in
  let query := set_conds query query_conds in
  if index_exist
  then Ok (ScanPlan T_IndexScan x_tab_name (conds query) index_col_names, query)
  else Ok (ScanPlan T_SeqScan x_tab_name (conds query) [], query).

Definition do_planner (query : Query) : result Plan :=
  match parse query with
  | CreateTable x_tab_name fields =>
      let* col_defs := make_col_defs fields [] in
      Ok (DDLPlan T_CreateTable x_tab_name [] col_defs)
  | DropTable x_tab_name => Ok (DDLPlan T_DropTable x_tab_name [] [])
  | CreateIndex x_tab_name col_names =>
      Ok (DDLPlan T_CreateIndex x_tab_name col_names [])
  | DropIndex x_tab_name col_names =>
      Ok (DDLPlan T_DropIndex x_tab_name col_names [])
  | ShowIndex x_tab_name => Ok (DDLPlan T_ShowIndex x_tab_name [] [])
  | InsertStmt x_tab_name =>
      Ok (DMLPlan T_Insert NullPlan x_tab_name (values query) [] [])
  | DeleteStmt x_tab_name =>
      let* (table_scan_executors, query) := single_table_scan x_tab_name query in
      Ok (DMLPlan T_Delete table_scan_executors x_tab_name [] (conds query) [])
  | UpdateStmt x_tab_name =>
      let* (table_scan_executors, query) := single_table_scan x_tab_name query in
      Ok (DMLPlan T_Update table_scan_executors x_tab_name [] (conds query)
            (set_clauses query))
  | SelectStmt _ _ =>
      let* projection := generate_select_plan query in
      Ok (DMLPlan T_select projection EmptyString [] [] [])
  | OtherNode => Err (InternalError "Unexpected AST root")
  end.

End Planner.

(** ** External merge sorter: data model *)

(** A signed index into a vector: undefined when negative or past the end. *)
Definition zat {A} (v : list A) (i : Z) : result A :=
  if (i <? 0)%Z then Err UndefinedBehaviour else at_ v (Z.to_nat i).

Definition zset {A} (v : list A) (i : Z) (x : A) : result (list A) :=
  if ((0 <=? i) && (i <? Z.of_nat (length v)))%Z
  then Ok (<[Z.to_nat i := x]> v)
  else Err UndefinedBehaviour.

(** [v.resize(n)] with value-initialised new elements. *)
Definition resize {A} (v : list A) (n : Z) (x : A) : list A :=
  take (Z.to_nat n) (v ++ replicate (Z.to_nat n - length v) x).

(** [int height = std::ceil(std::log2(k))]: [log2(0)] is minus infinity,
    whose conversion to an integer is undefined. *)
Definition ceil_log2 (k : Z) : result Z :=
  if (k =? 0)%Z then Err UndefinedBehaviour else Ok (Z.log2_up k).

(** [data]: null, the mapping of a temp file, or a mapping already
    released by [munmap]. *)
Inductive data_ptr :=
| nullptr
| mapped (file : nat)
| unmapped (file : nat).

Section ExternalMergeSorter.
(** A record is a block of [RECORD_SIZE] bytes, opaque to the sorter;
    [zero_record] is the block [ftruncate] extends a file with and
    [fresh_record] the contents of a new [char[RECORD_SIZE]];
    [cmp_ a b] is [cmp_(a, b, arg_)]. *)
Variable record : Type.
Variables zero_record fresh_record : record.
Variable cmp_ : record → record → Z.
Variables NUM_RECORD_PER_PAGE NUM_RECORD_PER_FILE RECORD_SIZE : Z.

(** An input stream: the records not yet extracted and its [eofbit]. *)
Record ifstream := mkIfstream { unread : list record; eofbit : bool }.

(** [disk] is the working directory: the contents of every temp file
    made so far, [None] once it is unlinked; a file name is its
    position.  A mapping is shared, so stores through [data] are
    stores to the mapped file. *)
Record ExternalMergeSorter := mkSorter {
  filenames_ : list nat;
  opened_files : list ifstream;
  record_list : list record;
  heap : list Z;
  index : Z;
  data : data_ptr;
  isFull : bool;
  disk : list (option (list record))
}.

Definition sorter_new : ExternalMergeSorter :=
  {| filenames_ := []; opened_files := []; record_list := []; heap := [];
     index := 0; data := nullptr; isFull := true; disk := [] |}.

(** [a] is not after [b] under the comparator. *)
Definition cmp_le (a b : record) : Prop := (cmp_ a b ≤ 0)%Z.

Global Instance cmp_le_dec : RelDecision cmp_le.
Proof. intros a b. unfold cmp_le. apply _. Defined.

(** libc's [qsort_r] on the first [n] records of a region.  The C
    library leaves the order of records that compare equal unspecified;
    the merge sort here stands for one such order, and the properties
    proved of the sorter use only that the result is a sorted
    permutation of the records. *)
Definition qsort_r (region : list record) (n : Z) : list record :=
  merge_sort cmp_le (take (Z.to_nat n) region) ++ drop (Z.to_nat n) region.

(** The file behind a live mapping. *)
Definition region_of (s : ExternalMergeSorter) : result (nat * list record) :=
  match data s with
  | mapped f =>
      match disk s !! f with
      | Some (Some region) => Ok (f, region)
      | _ => Err UndefinedBehaviour
      end
  | _ => Err UndefinedBehaviour
  end.

Definition store (s : ExternalMergeSorter) (f : nat) (region : list record)
  : list (option (list record)) :=
  <[f := Some region]> (disk s).

(** ** External merge sorter: the write phase *)

Definition write (s : ExternalMergeSorter) (rec : record)
  : result ExternalMergeSorter :=
  let* s :=
    if isFull s
    then
      let* s :=
        match data s with
        | nullptr => Ok s
        | _ =>
            let* (f, region) := region_of s in
            Ok {| filenames_ := filenames_ s; opened_files := opened_files s;
                  record_list := record_list s; heap := heap s; index := index s;
                  data := unmapped f; isFull := isFull s;
                  disk := store s f (qsort_r region NUM_RECORD_PER_FILE) |}
        end in
      let filename := length (disk s) in
      let filenames := filenames_ s ++ [filename] in
      if (NUM_RECORD_PER_FILE * RECORD_SIZE <=? 0)%Z then Err UnixError
      else
        Ok {| filenames_ := filenames; opened_files := opened_files s;
              record_list := record_list s; heap := heap s; index := 0;
              data := mapped filename; isFull := false;
              disk := disk s ++
                [Some (replicate (Z.to_nat NUM_RECORD_PER_FILE) zero_record)] |}
    else Ok s in
  let* (f, region) := region_of s in
  let* region := zset region (index s) rec in
  let index := (index s + 1)%Z in
  Ok {| filenames_ := filenames_ s; opened_files := opened_files s;
        record_list := record_list s; heap := heap s; index := index;
        data := data s;
        isFull := if (index =? NUM_RECORD_PER_FILE)%Z then true else isFull s;
        disk := store s f region |}.

Definition endWrite (s : ExternalMergeSorter) : result ExternalMergeSorter :=
  match data s with
  | nullptr => Ok s
  | _ =>
      let* (f, region) := region_of s in
      let region := qsort_r region (index s) in
      let* back := at_ (filenames_ s) (length (filenames_ s) - 1) in
      let disk := store s f region in
      match disk !! back with
      | Some (Some contents) =>
          Ok {| filenames_ := filenames_ s; opened_files := opened_files s;
                record_list := record_list s; heap := heap s; index := index s;
                data := unmapped f; isFull := isFull s;
                disk := <[back := Some (take (Z.to_nat (index s)) contents)]> disk |}
      | _ => Err UnixError
      end
  end.

(** ** External merge sorter: the read phase *)

(** [file.read(record, RECORD_SIZE)]: the stream and the buffer after. *)
Definition ifstream_read (file : ifstream) (buf : record) : ifstream * record :=
  if eofbit file then (file, buf)
  else
    match unread file with
    | r :: rest => ({| unread := rest; eofbit := false |}, r)
    | [] => ({| unread := []; eofbit := true |}, buf)
    end.

(** The first loop of [beginRead], over [filenames_]. *)
Fixpoint open_files (dsk : list (option (list record))) (filenames : list nat)
    (opened : list ifstream) (records : list record)
  : result (list ifstream * list record) :=
  match filenames with
  | [] => Ok (opened, records)
  | filename :: rest =>
      match dsk !! filename with
      | Some (Some contents) =>
          let file := {| unread := contents; eofbit := false |} in
          let '(file, rec) := ifstream_read file fresh_record in
          open_files dsk rest (opened ++ [file]) (records ++ [rec])
      | _ => Err UnixError
      end
  end.

(** [for (i = from; i < to; i++) v[base + i] = f i], [n] rounds. *)
Fixpoint fill (n : nat) (v : list Z) (base from : Z) (f : Z → Z)
  : result (list Z) :=
  match n with
  | O => Ok v
  | S n' =>
      let* v := zset v (base + from)%Z (f from) in
      fill n' v base (from + 1)%Z f
  end.

(** Does run [a] win against run [b]?  [-1] loses to everything. *)
Definition wins (records : list record) (a b : Z) : result bool :=
  if (a =? -1)%Z then Ok false
  else if (b =? -1)%Z then Ok true
  else
    let* ra := zat records a in
    let* rb := zat records b in
    Ok (cmp_ ra rb <=? 0)%Z.

(** One round of the bottom-up loop, at internal node [i]. *)
Definition build_step (records : list record) (winners hp : list Z) (i : Z)
  : result (list Z * list Z) :=
  let left := Z.shiftl i 1 in
  let right := Z.lxor (Z.shiftl i 1) 1 in
  let* wl := zat winners left in
  let* wr := zat winners right in
  let* left_wins := wins records wl wr in
  if left_wins
  then
    let* winners := zset winners i wl in
    let* hp := zset hp i wr in
    Ok (winners, hp)
  else
    let* winners := zset winners i wr in
    let* hp := zset hp i wl in
    Ok (winners, hp).

(** [for (i = n; i >= 1; i--)] *)
Fixpoint build (n : nat) (records : list record) (winners hp : list Z)
  : result (list Z * list Z) :=
  match n with
  | O => Ok (winners, hp)
  | S n' =>
      let* (winners, hp) := build_step records winners hp (Z.of_nat n) in
      build n' records winners hp
  end.

Definition beginRead (s : ExternalMergeSorter) : result ExternalMergeSorter :=
  let* (opened, records) :=
    open_files (disk s) (filenames_ s) (opened_files s) (record_list s) in
  let k := Z.of_nat (length (filenames_ s)) in
  let* height := ceil_log2 k in
  let hp := resize (heap s) (Z.shiftl 1 (height + 1)) 0%Z in
  let leaves := Z.shiftl 1 height in
  let* hp := fill (Z.to_nat k) hp leaves 0 (fun i => i) in
  let* hp := fill (Z.to_nat (leaves - k)) hp leaves k (fun _ => (-1)%Z) in
  let winners := replicate (Z.to_nat (Z.shiftl 1 (height + 1))) 0%Z in
  let* winners := fill (Z.to_nat k) winners leaves 0 (fun i => i) in
  let* winners := fill (Z.to_nat (leaves - k)) winners leaves k (fun _ => (-1)%Z) in
  let* (winners, hp) := build (Z.to_nat (leaves - 1)) records winners hp in
  let* w1 := zat winners 1 in
  let* hp := zset hp 0 w1 in
  Ok {| filenames_ := filenames_ s; opened_files := opened; record_list := records;
        heap := hp; index := index s; data := data s; isFull := isFull s;
        disk := disk s |}.

(** One round of the replay loop of [adjust]: the new [heap] and
    [winner]; [cur] becomes [cur >> 1] either way. *)
Definition adjust_step (records : list record) (hp : list Z) (cur winner : Z)
  : result (list Z * Z) :=
  let parent := Z.shiftr cur 1 in
  let* loser := zat hp parent in
  let* winner_wins := wins records winner loser in
  if winner_wins then Ok (hp, winner)
  else
    let* hp := zset hp parent winner in
    Ok (hp, loser).

(** [while (cur != 1)], at most [fuel] rounds; a loop that makes no
    progress for ever is undefined. *)
Fixpoint adjust_loop (fuel : nat) (records : list record) (hp : list Z)
    (cur winner : Z) : result (list Z * Z) :=
  if (cur =? 1)%Z then Ok (hp, winner)
  else
    match fuel with
    | O => Err UndefinedBehaviour
    | S fuel' =>
        let* (hp, winner) := adjust_step records hp cur winner in
        adjust_loop fuel' records hp (Z.shiftr cur 1) winner
    end.

Definition adjust (s : ExternalMergeSorter) : result ExternalMergeSorter :=
  let* file_index := zat (heap s) 0 in
  let* file := zat (opened_files s) file_index in
  let* buf := zat (record_list s) file_index in
  let '(file, buf) := ifstream_read file buf in
  let opened := <[Z.to_nat file_index := file]> (opened_files s) in
  let records := <[Z.to_nat file_index := buf]> (record_list s) in
  let* height := ceil_log2 (Z.of_nat (length (filenames_ s))) in
  let cur := (file_index + Z.shiftl 1 height)%Z in
  let winner := file_index in
  let* (hp, winner, dsk) :=
    if eofbit file
    then
      let* hp := zset (heap s) cur (-1)%Z in
      let* filename := zat (filenames_ s) file_index in
      Ok (hp, (-1)%Z, <[filename := None]> (disk s))
    else Ok (heap s, winner, disk s) in
  let* (hp, winner) := adjust_loop (Z.to_nat cur) records hp cur winner in
  let* hp := zset hp 0 winner in
  Ok {| filenames_ := filenames_ s; opened_files := opened; record_list := records;
        heap := hp; index := index s; data := data s; isFull := isFull s;
        disk := dsk |}.

(** [read] returns the record copied out and the sorter after [adjust]. *)
Definition read (s : ExternalMergeSorter) : result (record * ExternalMergeSorter) :=
  let* winner := zat (heap s) 0 in
  let* rec := zat (record_list s) winner in
  let* s := adjust s in
  Ok (rec, s).

(** A whole session: the writes, [endWrite], [beginRead], then [n] reads. *)
Fixpoint write_all (s : ExternalMergeSorter) (input : list record)
  : result ExternalMergeSorter :=
  match input with
  | [] => Ok s
  | rec :: rest =>
      let* s := write s rec in
      write_all s rest
  end.

Fixpoint read_n (n : nat) (s : ExternalMergeSorter)
  : result (list record * ExternalMergeSorter) :=
  match n with
  | O => Ok ([], s)
  | S n' =>
      let* (rec, s) := read s in
      let* (out, s) := read_n n' s in
      Ok (rec :: out, s)
  end.

Definition sort_session (input : list record) : result (list record) :=
  let* s := write_all sorter_new input in
  let* s := endWrite s in
  let* s := beginRead s in
  let* (out, _) := read_n (length input) s in
  Ok out.

End ExternalMergeSorter.

Arguments unread {record}.
Arguments eofbit {record}.
Arguments filenames_ {record}.
Arguments opened_files {record}.
Arguments record_list {record}.
Arguments heap {record}.
Arguments index {record}.
Arguments data {record}.
Arguments isFull {record}.
Arguments disk {record}.

(** ** Buffer-pool replacer ([LRUReplacer]) *)

Module LRUReplacer.

(** A [std::list<frame_id_t>::iterator]: the list node it points to, or
    [end()].  Nodes are named in the order of their allocation, so the
    iterator of an erased node never becomes valid again. *)
Inductive iterator :=
| it_node (n : nat)
| it_end.

Global Instance iterator_eq_dec : EqDecision iterator.
Proof. solve_decision. Defined.

(** The members as the member functions use them: [max_size_] is
    assigned from a [size_t], [LRUlist_] is a linked list of frame ids
    (a [frame_id_t] is printed with [%d]) held here with the name of
    each node, [LRUhash_] maps a frame id to an iterator of the list;
    [next_node] names the next node [push_front] allocates.  The latch
    is left out: the calls are taken one at a time. *)
Record LRUReplacer := mkReplacer {
  max_size_ : N;
  LRUlist_ : list (nat * Z);
  LRUhash_ : gmap Z iterator;
  next_node : nat
}.

Definition new (num_pages : N) : LRUReplacer :=
  {| max_size_ := num_pages; LRUlist_ := []; LRUhash_ := ∅; next_node := 0 |}.

(** [LRUlist_.begin()] *)
Definition begin_ (lst : list (nat * Z)) : iterator :=
  match lst with
  | (n, _) :: _ => it_node n
  | [] => it_end
  end.

(** [LRUlist_.erase(it)]: undefined unless [it] points into the list. *)
Definition erase (lst : list (nat * Z)) (it : iterator) : result (list (nat * Z)) :=
  match it with
  | it_node n =>
      if decide (n ∈ lst.*1) then Ok (filter (λ node, node.1 ≠ n) lst)
      else Err UndefinedBehaviour
  | it_end => Err UndefinedBehaviour
  end.

(** [victim] returns [None] for [false] (nothing is stored through
    [frame_id]) and [Some] of the frame stored for [true]. *)
Definition victim (r : LRUReplacer) : result (option Z * LRUReplacer) :=
  match last (LRUlist_ r) with
  | None => Ok (None, r)
  | Some (_, frame_id) =>
      let lst := take (length (LRUlist_ r) - 1) (LRUlist_ r) in
      match LRUhash_ r !! frame_id with
      | Some _ =>
          Ok (Some frame_id,
              {| max_size_ := max_size_ r; LRUlist_ := lst;
                 LRUhash_ := delete frame_id (LRUhash_ r);
                 next_node := next_node r |})
      | None => Err UndefinedBehaviour
      end
  end.

Definition pin (r : LRUReplacer) (frame_id : Z) : result LRUReplacer :=
  match LRUhash_ r !! frame_id with
  | Some it =>
      let* lst := erase (LRUlist_ r) it in
      Ok {| max_size_ := max_size_ r; LRUlist_ := lst;
            LRUhash_ := delete frame_id (LRUhash_ r);
            next_node := next_node r |}
  | None =>
      if (frame_id <? 0)%Z || (Z.of_N (max_size_ r) <=? frame_id)%Z
      then Err (InternalError ("LRUReplacer::pin invalid frame_id: " +:+ pretty frame_id))
      else Ok r
  end.

Definition unpin (r : LRUReplacer) (frame_id : Z) : result LRUReplacer :=
  let* r :=
    match LRUhash_ r !! frame_id with
    | Some it => Ok r
    | None =>
        if (0 <=? frame_id)%Z && (frame_id <? Z.of_N (max_size_ r))%Z
        then Ok {| max_size_ := max_size_ r;
                   LRUlist_ := (next_node r, frame_id) :: LRUlist_ r;
                   LRUhash_ := LRUhash_ r;
                   next_node := S (next_node r) |}
        else Err (InternalError
                    ("LRUReplacer::unpin invalid frame_id: " +:+ pretty frame_id))
    end in
  Ok {| max_size_ := max_size_ r; LRUlist_ := LRUlist_ r;
        LRUhash_ := <[frame_id := begin_ (LRUlist_ r)]> (LRUhash_ r);
        next_node := next_node r |}.

Definition Size (r : LRUReplacer) : nat := length (LRUlist_ r).

End LRUReplacer.

(** S3: index (a, b, c), conditions b = 1, a = 2, c > 0. *)
Definition lit (t c : string) (o : CompOp) (v : Z) : Condition :=
  {| lhs_col := mkTabCol t c; op := o; is_rhs_val := true;
     rhs_col := mkTabCol EmptyString EmptyString; rhs_val := IntValue v |}.

Definition int_col (t c : string) : ColMeta :=
  {| col_tab_name := t; name := c; type := TYPE_INT; len := 4 |}.

Definition s3_db : gmap string TabMeta :=
  {[ "t" := {| tab_cols := [int_col "t" "a"; int_col "t" "b"; int_col "t" "c"];
               indexes := [mkIndexMeta [int_col "t" "a"; int_col "t" "b"; int_col "t" "c"]] |} ]}.

Definition s3_conds : list Condition :=
  [lit "t" "b" OP_EQ 1; lit "t" "a" OP_EQ 2; lit "t" "c" OP_GT 0].

Example s3_test :
  get_index_cols s3_db "t" s3_conds [] =
  Ok (true, [lit "t" "a" OP_EQ 2; lit "t" "b" OP_EQ 1; lit "t" "c" OP_GT 0], ["a"; "b"; "c"]).
Proof. vm_compute. reflexivity. Qed.

(** * Properties of the planner *)

(** ** Index selection against its specification *)

(** The specification's vocabulary: a column is under an equality
    condition, or under a non-equality condition, of a condition list. *)
Definition eq_on (c : string) (cond : Condition) : Prop :=
  op cond = OP_EQ ∧ col_name (lhs_col cond) = c.

Definition neq_on (c : string) (cond : Condition) : Prop :=
  op cond ≠ OP_EQ ∧ col_name (lhs_col cond) = c.

Global Instance eq_on_dec c cond : Decision (eq_on c cond).
Proof. unfold eq_on. apply _. Defined.

Global Instance neq_on_dec c cond : Decision (neq_on c cond).
Proof. unfold neq_on. apply _. Defined.

Definition under_eq (conds : list Condition) (c : string) : Prop :=
  Exists (eq_on c) conds.

Definition under_neq (conds : list Condition) (c : string) : Prop :=
  Exists (neq_on c) conds.

(** The score of an index as the specification words it: walk the key
    columns in order, +1 and continue under an equality, +1 and stop
    under a non-equality, stop otherwise. *)
Fixpoint prefix_score (conds : list Condition) (index_cols : list ColMeta) : nat :=
  match index_cols with
  | [] => 0
  | c :: rest =>
      if decide (under_eq conds (name c)) then S (prefix_score conds rest)
      else if decide (under_neq conds (name c)) then 1
      else 0
  end.

(** The position, counted from [i], of the last condition satisfying [P]. *)
Fixpoint last_pos (P : Condition → Prop) `{!∀ c, Decision (P c)} (i : nat)
    (conds : list Condition) : option nat :=
  match conds with
  | [] => None
  | c :: rest =>
      match last_pos P (S i) rest with
      | Some p => Some p
      | None => if decide (P c) then Some i else None
      end
  end.

(** The condition matched to a key column: the last equality on it, or
    failing that the last non-equality on it. *)
Definition matched_pos (conds : list Condition) (c : string) : option nat :=
  match last_pos (eq_on c) 0 conds with
  | Some p => Some p
  | None => last_pos (neq_on c) 0 conds
  end.

Section last_pos.
Context (P : Condition → Prop) `{!∀ c, Decision (P c)}.

Lemma last_pos_Some i conds p :
  last_pos P i conds = Some p →
  i ≤ p ∧ ∃ cond, conds !! (p - i) = Some cond ∧ P cond.
Proof.
  revert i. induction conds as [|c rest IH]; intros i; simpl; [done|].
  destruct (last_pos P (S i) rest) as [q|] eqn:Hq.
  - intros [= ->]. destruct (IH _ Hq) as (Hle & cond & Hl & HP).
    split; [lia|]. exists cond. split; [|done].
    replace (p - i) with (S (p - S i)) by lia. done.
  - case_decide; [|done]. intros [= ->]. split; [lia|].
    exists c. by rewrite Nat.sub_diag.
Qed.

Lemma last_pos_is_Some i conds :
  is_Some (last_pos P i conds) ↔ Exists P conds.
Proof.
  revert i. induction conds as [|c rest IH]; intros i; simpl.
  - rewrite Exists_nil. split; [by intros [? ?]|done].
  - rewrite Exists_cons, <- (IH (S i)).
    destruct (last_pos P (S i) rest); [naive_solver|].
    case_decide; split; naive_solver.
Qed.

Lemma last_pos_None i conds :
  last_pos P i conds = None ↔ ¬ Exists P conds.
Proof. rewrite <- last_pos_is_Some, eq_None_not_Some. done. Qed.

(** No later condition satisfies [P]. *)
Lemma last_pos_last i conds p q cond :
  last_pos P i conds = Some p → p < q → conds !! (q - i) = Some cond → ¬ P cond.
Proof.
  revert i. induction conds as [|c rest IH]; intros i; simpl; [done|].
  destruct (last_pos P (S i) rest) as [p'|] eqn:Hq.
  - intros [= ->] Hlt Hl. destruct (last_pos_Some _ _ _ Hq) as [Hle _].
    apply (IH (S i)); [done..|].
    replace (q - i) with (S (q - S i)) in Hl by lia. done.
  - case_decide; [|done]. intros [= ->] Hlt Hl.
    replace (q - p) with (S (q - S p)) in Hl by lia. simpl in Hl.
    apply last_pos_None in Hq. intros HP. apply Hq.
    apply Exists_exists. exists cond. split; [|done].
    by eapply list_elem_of_lookup_2.
Qed.
End last_pos.

Lemma matched_pos_Some conds c p :
  matched_pos conds c = Some p →
  ∃ cond, conds !! p = Some cond ∧ col_name (lhs_col cond) = c.
Proof.
  unfold matched_pos. destruct (last_pos (eq_on c) 0 conds) as [q|] eqn:Hq.
  - intros [= ->]. apply last_pos_Some in Hq as (_ & cond & Hl & _ & Hc).
    rewrite Nat.sub_0_r in Hl. eauto.
  - intros Hn. apply last_pos_Some in Hn as (_ & cond & Hl & _ & Hc).
    rewrite Nat.sub_0_r in Hl. eauto.
Qed.

(** What the two maps hold after the first loop. *)
Lemma parse_conds_lookup i conds eq_index_map neq_index_map c :
  (parse_conds i conds eq_index_map neq_index_map).1 !! c =
    from_option Some (eq_index_map !! c) (last_pos (eq_on c) i conds) ∧
  (parse_conds i conds eq_index_map neq_index_map).2 !! c =
    from_option Some (neq_index_map !! c) (last_pos (neq_on c) i conds).
Proof.
  revert i eq_index_map neq_index_map.
  induction conds as [|cond rest IH]; intros i em nm; simpl; [done|].
  destruct (decide (op cond = OP_EQ)) as [Heq|Hne].
  - destruct (IH (S i) (<[col_name (lhs_col cond) := i]> em) nm) as [-> ->].
    split.
    + destruct (last_pos (eq_on c) (S i) rest); simpl; [done|].
      unfold eq_on. case_decide as Hd; simpl.
      * destruct Hd as [_ <-]. by rewrite lookup_insert_eq.
      * rewrite lookup_insert_ne; [done|]. naive_solver.
    + destruct (last_pos (neq_on c) (S i) rest); simpl; [done|].
      unfold neq_on. case_decide as Hd; simpl; [|done]. naive_solver.
  - destruct (IH (S i) em (<[col_name (lhs_col cond) := i]> nm)) as [-> ->].
    split.
    + destruct (last_pos (eq_on c) (S i) rest); simpl; [done|].
      unfold eq_on. case_decide as Hd; simpl; [|done]. naive_solver.
    + destruct (last_pos (neq_on c) (S i) rest); simpl; [done|].
      unfold neq_on. case_decide as Hd; simpl.
      * destruct Hd as [_ <-]. by rewrite lookup_insert_eq.
      * rewrite lookup_insert_ne; [done|]. naive_solver.
Qed.

Lemma parse_conds_empty conds c :
  (parse_conds 0 conds ∅ ∅).1 !! c = last_pos (eq_on c) 0 conds ∧
  (parse_conds 0 conds ∅ ∅).2 !! c = last_pos (neq_on c) 0 conds.
Proof.
  destruct (parse_conds_lookup 0 conds ∅ ∅ c) as [-> ->].
  rewrite !lookup_empty. split.
  - by destruct (last_pos (eq_on c) 0 conds).
  - by destruct (last_pos (neq_on c) 0 conds).
Qed.

(** The inner loop computes the specification's score. *)
Lemma left_match_len_score conds index_cols len :
  left_match_len (parse_conds 0 conds ∅ ∅).1 (parse_conds 0 conds ∅ ∅).2
    index_cols len = (len + Z.of_nat (prefix_score conds index_cols))%Z.
Proof.
  revert len. induction index_cols as [|c rest IH]; intros len; simpl; [lia|].
  destruct (parse_conds_empty conds (name c)) as [-> ->].
  unfold under_eq, under_neq.
  destruct (decide (is_Some (last_pos (eq_on (name c)) 0 conds))) as [He|He];
    rewrite last_pos_is_Some in He.
  - rewrite (decide_True (P := Exists _ _)) by done. rewrite IH. lia.
  - rewrite (decide_False (P := Exists _ _)) by done.
    destruct (decide (is_Some (last_pos (neq_on (name c)) 0 conds))) as [Hn|Hn];
      rewrite last_pos_is_Some in Hn.
    + rewrite (decide_True (P := Exists _ _)) by done. lia.
    + rewrite (decide_False (P := Exists _ _)) by done. lia.
Qed.

(** The outer loop keeps the first index of greatest score so far. *)
Lemma max_left_match_spec conds idxs i mi0 ml0 mi ml :
  let score ix := Z.of_nat (prefix_score conds (cols ix)) in
  max_left_match (parse_conds 0 conds ∅ ∅).1 (parse_conds 0 conds ∅ ∅).2
    idxs i mi0 ml0 = (mi, ml) →
  (ml0 ≤ ml)%Z ∧
  (∀ ix, ix ∈ idxs → (score ix ≤ ml)%Z) ∧
  ((mi = mi0 ∧ ml = ml0) ∨
   ∃ j ix, idxs !! j = Some ix ∧ mi = Z.of_nat (i + j) ∧ ml = score ix ∧
     (ml0 < ml)%Z ∧
     ∀ j' ix', j' < j → idxs !! j' = Some ix' → (score ix' < ml)%Z).
Proof.
  intros score. revert i mi0 ml0.
  induction idxs as [|ix rest IH]; intros i mi0 ml0; simpl.
  - intros [= -> ->]. split; [lia|]. split; [|by left].
    intros ix Hin. by apply elem_of_nil in Hin.
  - rewrite left_match_len_score, Z.add_0_l. fold (score ix).
    destruct (score ix >? ml0)%Z eqn:Hgt; intros Hrun;
      apply IH in Hrun as (Hle & Hall & Hsel).
    + apply Z.gtb_lt in Hgt.
      split; [lia|]. split.
      * intros ix' [->|Hin]%elem_of_cons; [lia|by apply Hall].
      * right. destruct Hsel as [[-> ->]|(j & ix' & Hj & -> & -> & Hlt & Hbefore)].
        -- exists 0, ix. repeat split; [f_equal; lia|done|]. intros; lia.
        -- exists (S j), ix'. repeat split; [done|f_equal; lia|lia|].
           intros [|j'] ix'' Hj' Hl; simpl in Hl.
           ++ injection Hl as <-. lia.
           ++ apply (Hbefore j'); [lia|done].
    + assert (score ix ≤ ml0)%Z as Hix.
      { destruct (Z.gtb_spec (score ix) ml0); [done|lia]. }
      split; [lia|]. split.
      * intros ix' [->|Hin]%elem_of_cons; [lia|by apply Hall].
      * destruct Hsel as [[-> ->]|(j & ix' & Hj & -> & -> & Hlt & Hbefore)];
          [by left|right].
        exists (S j), ix'. repeat split; [done|f_equal; lia|lia|].
        intros [|j'] ix'' Hj' Hl; simpl in Hl.
        -- injection Hl as <-. lia.
        -- apply (Hbefore j'); [lia|done].
Qed.

(** [left_match_index] holds the matched position of every column of
    the scored prefix, in key order. *)
Lemma left_match_positions_spec conds index_cols n :
  left_match_positions (parse_conds 0 conds ∅ ∅).1 (parse_conds 0 conds ∅ ∅).2
    index_cols n = omap (matched_pos conds) (take n (map name index_cols)).
Proof.
  revert n. induction index_cols as [|c rest IH]; intros [|n]; try done.
  cbn [left_match_positions map take].
  destruct (parse_conds_empty conds (name c)) as [-> ->].
  rewrite IH.
  change (omap (matched_pos conds) (name c :: take n (map name rest)))
    with (match matched_pos conds (name c) with
          | Some p => p :: omap (matched_pos conds) (take n (map name rest))
          | None => omap (matched_pos conds) (take n (map name rest))
          end).
  assert (matched_pos conds (name c) =
          match last_pos (eq_on (name c)) 0 conds with
          | Some p => Some p
          | None => last_pos (neq_on (name c)) 0 conds
          end) as -> by done.
  destruct (last_pos (eq_on (name c)) 0 conds); [done|].
  by destruct (last_pos (neq_on (name c)) 0 conds).
Qed.

Lemma matched_positions_lt conds (cs : list string) p :
  p ∈ omap (matched_pos conds) cs → p < length conds.
Proof.
  intros (c & _ & Hp)%list_elem_of_omap.
  apply matched_pos_Some in Hp as (cond & Hl & _).
  by eapply lookup_lt_Some.
Qed.

(** A column is matched at one position, so a repeated position means a
    repeated column. *)
Lemma matched_positions_NoDup conds (cs : list string) :
  NoDup cs → NoDup (omap (matched_pos conds) cs).
Proof.
  induction 1 as [|c cs Hnotin Hnd IH]; simpl; [constructor|].
  destruct (matched_pos conds c) as [p|] eqn:Hp; [|done].
  constructor; [|done].
  intros (c' & Hin & Hp')%list_elem_of_omap.
  apply matched_pos_Some in Hp as (cond & Hl & Hc).
  apply matched_pos_Some in Hp' as (cond' & Hl' & Hc').
  congruence.
Qed.

(** Moving out the matched conditions never leaves the vector. *)
Lemma move_matched_length left_match_index curr_conds new_conds :
  (∀ p, p ∈ left_match_index → p < length curr_conds) →
  ∃ curr' new', move_matched left_match_index curr_conds new_conds = Ok (curr', new') ∧
    length curr' = length curr_conds.
Proof.
  revert curr_conds new_conds.
  induction left_match_index as [|p rest IH]; intros curr new Hlt; simpl; [eauto|].
  destruct (lookup_lt_is_Some_2 curr p) as [c Hc]; [apply Hlt; left|].
  unfold at_. rewrite Hc. simpl.
  destruct (IH (<[p := moved_Condition c]> curr) (new ++ [c])) as (curr' & new' & Hrun & Hlen).
  { intros q Hq. rewrite length_insert. apply Hlt. by right. }
  exists curr', new'. split; [done|]. by rewrite Hlen, length_insert.
Qed.

Lemma omap_ext_elem_of {A B} (f g : A → option B) (l : list A) :
  (∀ x, x ∈ l → f x = g x) → omap f l = omap g l.
Proof.
  intros Hfg. apply list_omap_ext, Forall_Forall2_diag, Forall_forall. done.
Qed.

(** Without a repeated position every condition is moved out intact. *)
Lemma move_matched_NoDup left_match_index curr_conds new_conds :
  NoDup left_match_index →
  (∀ p, p ∈ left_match_index → p < length curr_conds) →
  ∃ curr', move_matched left_match_index curr_conds new_conds =
             Ok (curr', new_conds ++ omap (curr_conds !!.) left_match_index) ∧
    length curr' = length curr_conds ∧
    ∀ q, q ∉ left_match_index → curr' !! q = curr_conds !! q.
Proof.
  intros Hnd. revert curr_conds new_conds.
  induction Hnd as [|p rest Hnotin Hnd IH]; intros curr new Hlt; simpl.
  - exists curr. by rewrite app_nil_r.
  - destruct (lookup_lt_is_Some_2 curr p) as [c Hc]; [apply Hlt; left|].
    unfold at_. rewrite Hc. simpl.
    destruct (IH (<[p := moved_Condition c]> curr) (new ++ [c]))
      as (curr' & Hrun & Hlen & Hkeep).
    { intros q Hq. rewrite length_insert. apply Hlt. by right. }
    exists curr'. split; [|split].
    + rewrite Hrun, <- app_assoc. simpl. do 4 f_equal.
      apply omap_ext_elem_of. intros q Hq.
      apply list_lookup_insert_ne. intros ->. done.
    + by rewrite Hlen, length_insert.
    + intros q Hq. rewrite Hkeep by (intros ?; apply Hq; by right).
      apply list_lookup_insert_ne. intros ->. apply Hq. by left.
Qed.

(** The positions of a condition list, paired with its conditions. *)
Definition enumerate_from (i : nat) (conds : list Condition)
  : list (nat * Condition) :=
  imap (λ j c, (i + j, c)) conds.

(** The conditions at positions outside [L], in their original order. *)
Definition unmatched (L : list nat) (conds : list Condition) : list Condition :=
  (filter (λ pc, pc.1 ∉ L) (enumerate_from 0 conds)).*2.

Lemma enumerate_from_cons i c conds :
  enumerate_from i (c :: conds) = (i, c) :: enumerate_from (S i) conds.
Proof.
  unfold enumerate_from. rewrite imap_cons. f_equal; [f_equal; lia|].
  apply imap_ext. intros j x _. simpl. f_equal. lia.
Qed.

Lemma move_unmatched_spec (L : list nat) i curr_conds new_conds :
  move_unmatched (list_to_set L) i curr_conds new_conds =
  new_conds ++ (filter (λ pc, pc.1 ∉ L) (enumerate_from i curr_conds)).*2.
Proof.
  revert i new_conds. induction curr_conds as [|c rest IH]; intros i new; simpl.
  - by rewrite app_nil_r.
  - rewrite enumerate_from_cons. case_decide as Hin; rewrite elem_of_list_to_set in Hin.
    + rewrite filter_cons_False by (simpl; tauto). apply IH.
    + rewrite filter_cons_True by done. rewrite IH, <- app_assoc. done.
Qed.

(** Positions inside [L] do not matter to what stays. *)
Lemma filter_enumerate_ext (L : list nat) i (curr curr' : list Condition) :
  length curr' = length curr →
  (∀ q, i + q ∉ L → curr' !! q = curr !! q) →
  filter (λ pc, pc.1 ∉ L) (enumerate_from i curr') =
  filter (λ pc, pc.1 ∉ L) (enumerate_from i curr).
Proof.
  revert i curr'. induction curr as [|c rest IH]; intros i [|c' rest'] Hlen Hkeep;
    simpl in Hlen; try done.
  rewrite !enumerate_from_cons.
  assert (filter (λ pc, pc.1 ∉ L) (enumerate_from (S i) rest') =
          filter (λ pc, pc.1 ∉ L) (enumerate_from (S i) rest)) as Hrest.
  { apply IH; [lia|]. intros q Hq. apply (Hkeep (S q)).
    by replace (i + S q) with (S i + q) by lia. }
  destruct (decide (i ∈ L)) as [Hin|Hin].
  - rewrite !filter_cons_False by (simpl; tauto). done.
  - rewrite !filter_cons_True by done. rewrite Hrest. f_equal.
    specialize (Hkeep 0). rewrite Nat.add_0_r in Hkeep.
    specialize (Hkeep Hin). simpl in Hkeep. congruence.
Qed.

(** The key columns an index scored on, and the positions of the
    conditions matched to them. *)
Definition scored_prefix (conds : list Condition) (ix : IndexMeta) : list string :=
  take (prefix_score conds (cols ix)) (map name (cols ix)).

Definition left_match (conds : list Condition) (ix : IndexMeta) : list nat :=
  omap (matched_pos conds) (scored_prefix conds ix).

(** Index number [i] is the earliest-declared index of greatest score,
    and that score is at least 1. *)
Definition first_best (conds : list Condition) (idxs : list IndexMeta)
    (i : nat) (ix : IndexMeta) : Prop :=
  idxs !! i = Some ix ∧
  1 ≤ prefix_score conds (cols ix) ∧
  (∀ ix', ix' ∈ idxs → prefix_score conds (cols ix') ≤ prefix_score conds (cols ix)) ∧
  (∀ j ix', j < i → idxs !! j = Some ix' →
     prefix_score conds (cols ix') < prefix_score conds (cols ix)).

(** The two ways [get_index_cols] ends on a table of the catalog. *)
Lemma get_index_cols_cases db tab_name tab conds names0 :
  db !! tab_name = Some tab →
  (Forall (λ ix, prefix_score conds (cols ix) = 0) (indexes tab) ∧
   get_index_cols db tab_name conds names0 = Ok (false, conds, []))
  ∨
  (∃ i ix curr' new',
     first_best conds (indexes tab) i ix ∧
     move_matched (left_match conds ix) conds [] = Ok (curr', new') ∧
     length curr' = length conds ∧
     get_index_cols db tab_name conds names0 =
       Ok (true, move_unmatched (list_to_set (left_match conds ix)) 0 curr' new',
           map name (cols ix))).
Proof.
  intros Htab. unfold get_index_cols, get_table. rewrite Htab. simpl.
  pose proof (max_left_match_spec conds (indexes tab) 0 (-1) 0) as Hmax.
  pose proof (λ cs n, left_match_positions_spec conds cs n) as Hpos.
  destruct (parse_conds 0 conds ∅ ∅) as [em nm]. simpl in Hmax, Hpos.
  destruct (max_left_match em nm (indexes tab) 0 (-1) 0) as [mi ml].
  destruct (Hmax mi ml eq_refl) as (Hle & Hall & Hsel). clear Hmax.
  destruct Hsel as [[-> ->]|(j & ix & Hj & -> & -> & Hlt & Hbefore)].
  - left. rewrite decide_True by done. split; [|done].
    apply Forall_forall. intros ix Hin. specialize (Hall ix Hin). lia.
  - right. rewrite decide_False by lia.
    rewrite ?Nat.add_0_l, Nat2Z.id. unfold at_. rewrite Hj. simpl.
    rewrite Nat2Z.id, Hpos. fold (scored_prefix conds ix). fold (left_match conds ix).
    destruct (move_matched_length (left_match conds ix) conds [])
      as (curr' & new' & Hrun & Hlen).
    { apply matched_positions_lt. }
    rewrite Hrun. simpl. exists j, ix, curr', new'.
    split; [|done]. split; [done|]. split; [lia|]. split.
    + intros ix' Hin. specialize (Hall ix' Hin). lia.
    + intros j' ix' Hj' Hl. specialize (Hbefore j' ix' Hj' Hl). lia.
Qed.

(** C10. If [get_index_cols] selects no index (returns [false]), the
    condition list it was given comes back entirely unchanged and
    [index_col_names] comes back empty, whatever it held before: the
    list is permuted only when an index is chosen. *)
Theorem get_index_cols_false_frame db tab_name conds names0 conds' names' :
  get_index_cols db tab_name conds names0 = Ok (false, conds', names') →
  conds' = conds ∧ names' = [].
Proof.
  unfold get_index_cols, get_table.
  destruct (db !! tab_name) as [tab|]; simpl; [|done].
  destruct (parse_conds 0 conds ∅ ∅) as [em nm].
  destruct (max_left_match em nm (indexes tab) 0 (-1) 0) as [mi ml].
  case_decide; [by intros [= <- <-]|].
  destruct (at_ (indexes tab) (Z.to_nat mi)) as [ix|]; simpl; [|done].
  destruct (move_matched _ _ _) as [[curr new]|]; simpl; done.
Qed.

Definition frame_db : gmap string TabMeta :=
  {[ "t" := {| tab_cols := [int_col "t" "a"; int_col "t" "b"];
               indexes := [mkIndexMeta [int_col "t" "a"]] |} ]}.

Lemma get_index_cols_false_frame_witness :
  get_index_cols frame_db "t" [lit "t" "b" OP_EQ 1] ["stale"] =
    Ok (false, [lit "t" "b" OP_EQ 1], []) ∧
  ([lit "t" "b" OP_EQ 1] = [lit "t" "b" OP_EQ 1] ∧ @nil string = []).
Proof.
  split; [vm_compute; reflexivity|].
  apply (get_index_cols_false_frame frame_db "t" [lit "t" "b" OP_EQ 1] ["stale"]).
  vm_compute. reflexivity.
Defined.

(** C2. For every table of the catalog and every condition list, index
    selection scores each index by walking its key columns in order (+1
    and continue under an equality condition, +1 and stop under a
    non-equality condition, stop otherwise: [prefix_score]); it selects
    the index of strictly greatest score, the earliest-declared one among
    equals, and reports "no index" exactly when every index scores 0. *)
Theorem get_index_cols_selects_best db tab_name tab conds names0 :
  db !! tab_name = Some tab →
  ∃ found conds' names',
    get_index_cols db tab_name conds names0 = Ok (found, conds', names') ∧
    (found = false ↔
       Forall (λ ix, prefix_score conds (cols ix) = 0) (indexes tab)) ∧
    (found = true →
       ∃ i ix, names' = map name (cols ix) ∧ indexes tab !! i = Some ix ∧
         1 ≤ prefix_score conds (cols ix) ∧
         (∀ ix', ix' ∈ indexes tab →
            prefix_score conds (cols ix') ≤ prefix_score conds (cols ix)) ∧
         (∀ j ix', j < i → indexes tab !! j = Some ix' →
            prefix_score conds (cols ix') < prefix_score conds (cols ix))).
Proof.
  intros Htab.
  destruct (get_index_cols_cases db tab_name tab conds names0 Htab)
    as [[Hzero Hrun]|(i & ix & curr' & new' & Hbest & _ & _ & Hrun)].
  - exists false, conds, []. split; [done|]. split; [done|]. done.
  - eexists true, _, _. split; [exact Hrun|]. split.
    + split; [done|]. intros Hzero. destruct Hbest as (Hi & Hpos & _).
      apply list_elem_of_lookup_2 in Hi.
      rewrite Forall_forall in Hzero. specialize (Hzero ix Hi). lia.
    + intros _. exists i, ix. destruct Hbest as (Hi & Hpos & Hmax & Hfirst).
      done.
Qed.

Definition best_tab : TabMeta :=
  {| tab_cols := [int_col "t" "a"; int_col "t" "b"; int_col "t" "c"];
     indexes := [mkIndexMeta [int_col "t" "b"];
                 mkIndexMeta [int_col "t" "a"; int_col "t" "b"];
                 mkIndexMeta [int_col "t" "b"; int_col "t" "a"]] |}.

Definition best_db : gmap string TabMeta := {[ "t" := best_tab ]}.

Definition best_conds : list Condition :=
  [lit "t" "b" OP_GT 1; lit "t" "a" OP_EQ 2].

(** Index (b) scores 1, index (a, b) scores 2 and wins, index (b, a)
    scores 1. *)
Lemma get_index_cols_selects_best_witness :
  best_db !! "t" = Some best_tab ∧
  get_index_cols best_db "t" best_conds [] =
    Ok (true, [lit "t" "a" OP_EQ 2; lit "t" "b" OP_GT 1], ["a"; "b"]) ∧
  ∃ found conds' names',
    get_index_cols best_db "t" best_conds [] = Ok (found, conds', names') ∧
    (found = false ↔
       Forall (λ ix, prefix_score best_conds (cols ix) = 0) (indexes best_tab)) ∧
    (found = true →
       ∃ i ix, names' = map name (cols ix) ∧ indexes best_tab !! i = Some ix ∧
         1 ≤ prefix_score best_conds (cols ix) ∧
         (∀ ix', ix' ∈ indexes best_tab →
            prefix_score best_conds (cols ix') ≤ prefix_score best_conds (cols ix)) ∧
         (∀ j ix', j < i → indexes best_tab !! j = Some ix' →
            prefix_score best_conds (cols ix') < prefix_score best_conds (cols ix))).
Proof.
  split; [vm_compute; reflexivity|].
  split; [vm_compute; reflexivity|].
  apply (get_index_cols_selects_best best_db "t" best_tab best_conds []).
  vm_compute. reflexivity.
Defined.

(** ** The reordered condition list *)

(** Every index of the table names each key column once. *)
Definition distinct_key_cols (tab : TabMeta) : Prop :=
  Forall (λ ix, NoDup (map name (cols ix))) (indexes tab).

(** The conditions matched to the scored prefix, in index-key order. *)
Definition matched_conds (conds : list Condition) (ix : IndexMeta)
  : list Condition :=
  omap (λ c, matched_pos conds c ≫= (conds !!.)) (scored_prefix conds ix).

Lemma omap_omap_bind {A B C} (f : A → option B) (g : B → option C) (l : list A) :
  omap g (omap f l) = omap (λ a, f a ≫= g) l.
Proof.
  induction l as [|a l IH]; [done|]. csimpl.
  destruct (f a) as [b|]; csimpl; [|done].
  destruct (g b); by rewrite IH.
Qed.


(** Without a repeated key column in the scored prefix, what the two
    last loops build is the matched conditions, then the others. *)
Lemma reordered_conds conds ix curr' new' :
  NoDup (scored_prefix conds ix) →
  move_matched (left_match conds ix) conds [] = Ok (curr', new') →
  move_unmatched (list_to_set (left_match conds ix)) 0 curr' new' =
  matched_conds conds ix ++ unmatched (left_match conds ix) conds.
Proof.
  intros Hnd Hmove.
  destruct (move_matched_NoDup (left_match conds ix) conds [])
    as (curr & Hmove' & Hlen' & Hkeep).
  { by apply matched_positions_NoDup. }
  { apply matched_positions_lt. }
  rewrite Hmove in Hmove'. injection Hmove' as -> ->.
  rewrite move_unmatched_spec. simpl.
  unfold matched_conds, left_match at 1. rewrite omap_omap_bind.
  f_equal. unfold unmatched. f_equal.
  apply filter_enumerate_ext; [done|]. intros q Hq. by apply Hkeep.
Qed.

Lemma first_best_NoDup conds tab i ix :
  distinct_key_cols tab → first_best conds (indexes tab) i ix →
  NoDup (scored_prefix conds ix).
Proof.
  intros Hdistinct (Hi & _). unfold scored_prefix.
  eapply sublist_NoDup; [|apply sublist_take].
  apply list_elem_of_lookup_2 in Hi.
  unfold distinct_key_cols in Hdistinct. rewrite Forall_forall in Hdistinct.
  by apply Hdistinct.
Qed.




(** S3 as the witness: index (a, b, c) and conditions b = 1, a = 2,
    c > 0 give [index_col_names = [a, b, c]] and the order a = 2, b = 1,
    c > 0. *)
Definition s3_tab : TabMeta :=
  {| tab_cols := [int_col "t" "a"; int_col "t" "b"; int_col "t" "c"];
     indexes := [mkIndexMeta [int_col "t" "a"; int_col "t" "b"; int_col "t" "c"]] |}.

Definition s3_reordered : list Condition :=
  [lit "t" "a" OP_EQ 2; lit "t" "b" OP_EQ 1; lit "t" "c" OP_GT 0].


(** ** Index selection permutes the conditions *)

Lemma enumerate_from_snd i conds : (enumerate_from i conds).*2 = conds.
Proof.
  revert i. induction conds as [|c rest IH]; intros i; [done|].
  rewrite enumerate_from_cons. simpl. by rewrite IH.
Qed.

Lemma enumerate_from_fst i conds : (enumerate_from i conds).*1 = seq i (length conds).
Proof.
  revert i. induction conds as [|c rest IH]; intros i; [done|].
  rewrite enumerate_from_cons. simpl. by rewrite IH.
Qed.

Lemma elem_of_enumerate conds p c :
  (p, c) ∈ enumerate_from 0 conds ↔ conds !! p = Some c.
Proof.
  unfold enumerate_from. rewrite elem_of_lookup_imap. split.
  - intros (i & y & [= -> ->] & Hl). done.
  - intros Hl. exists p, c. done.
Qed.

Lemma matched_unmatched_Permutation (L : list nat) conds :
  NoDup L → (∀ p, p ∈ L → p < length conds) →
  omap (conds !!.) L ++ unmatched L conds ≡ₚ conds.
Proof.
  intros Hnd Hlt.
  set (E := enumerate_from 0 conds).
  set (M := omap (λ p, pair p <$> conds !! p) L).
  assert (omap (conds !!.) L = M.*2) as ->.
  { unfold M. rewrite list_fmap_omap. apply omap_ext_elem_of.
    intros p _. by destruct (conds !! p). }
  assert (M ≡ₚ filter (λ pc, pc.1 ∈ L) E) as ->.
  { apply NoDup_Permutation.
    - apply (NoDup_fmap_1 fst). unfold M. rewrite list_fmap_omap.
      replace (omap (λ p, fst <$> (pair p <$> conds !! p)) L) with L; [done|].
      clear M Hnd. induction L as [|p L IH]; [done|]. csimpl.
      destruct (lookup_lt_is_Some_2 conds p) as [c Hc]; [apply Hlt; left|].
      rewrite Hc. simpl. f_equal. apply IH. intros q Hq. apply Hlt. by right.
    - apply NoDup_filter, (NoDup_fmap_1 fst). unfold E.
      rewrite enumerate_from_fst. apply NoDup_seq.
    - intros [p c]. unfold M. rewrite list_elem_of_omap, list_elem_of_filter.
      unfold E. rewrite elem_of_enumerate. simpl. split.
      + intros (q & Hq & Hl). destruct (conds !! q) eqn:Hc; [|done].
        simpl in Hl. injection Hl as -> ->. done.
      + intros [Hin Hl]. exists p. rewrite Hl. done. }
  unfold unmatched. fold E. rewrite <- fmap_app.
  rewrite (filter_app_complement (λ pc : nat * Condition, pc.1 ∈ L) E).
  apply reflexive_eq, enumerate_from_snd.
Qed.

(** Every table of the catalog names each key column of an index once. *)
Definition distinct_keys (db : gmap string TabMeta) : Prop :=
  ∀ t tab, db !! t = Some tab → distinct_key_cols tab.

(** On such a catalog [get_index_cols] only permutes [curr_conds]. *)
Lemma get_index_cols_Permutation db tab_name conds names0 found conds' names' :
  distinct_keys db →
  get_index_cols db tab_name conds names0 = Ok (found, conds', names') →
  conds' ≡ₚ conds.
Proof.
  intros Hdb Hrun. destruct (db !! tab_name) as [tab|] eqn:Htab.
  - destruct (get_index_cols_cases db tab_name tab conds names0 Htab)
      as [[_ Hrun']|(i & ix & curr' & new' & Hbest & Hmove & Hlen & Hrun')];
      rewrite Hrun in Hrun'.
    + by injection Hrun' as -> -> ->.
    + injection Hrun' as -> -> ->.
      assert (NoDup (scored_prefix conds ix)) as Hnd.
      { eapply first_best_NoDup; [|done]. by eapply Hdb. }
      rewrite (reordered_conds conds ix curr' new') by done.
      unfold matched_conds. rewrite <- omap_omap_bind. fold (left_match conds ix).
      apply matched_unmatched_Permutation.
      * by apply matched_positions_NoDup.
      * apply matched_positions_lt.
  - unfold get_index_cols, get_table in Hrun. by rewrite Htab in Hrun.
Qed.

(** ** Conditions attached to scans *)

(** A condition is table-local to [t]: every column it references names [t]. *)
Definition table_local (t : string) (c : Condition) : Prop :=
  tab_name (lhs_col c) = t ∧ (is_rhs_val c = false → tab_name (rhs_col c) = t).

(** The conditions attached to the scans of a plan, each with the
    table of its scan. *)
Fixpoint scan_conds (p : Plan) : list (string * Condition) :=
  match p with
  | ScanPlan _ t cs _ => pair t <$> cs
  | JoinPlan _ l r _ => scan_conds l ++ scan_conds r
  | SortPlan _ sub _ _ => scan_conds sub
  | AggregationPlan _ sub _ _ _ => scan_conds sub
  | ProjectionPlan _ sub _ => scan_conds sub
  | DMLPlan _ sub _ _ _ _ => scan_conds sub
  | _ => []
  end.

Definition col_cond (t1 c1 : string) (o : CompOp) (t2 c2 : string) : Condition :=
  {| lhs_col := mkTabCol t1 c1; op := o; is_rhs_val := false;
     rhs_col := mkTabCol t2 c2; rhs_val := NoValue |}.

Definition plain_tab (t : string) (cs : list string) : TabMeta :=
  {| tab_cols := map (int_col t) cs; indexes := [] |}.

Definition select_query (ts : list string) (cs : list Condition)
    (order : option OrderBy) : Query :=
  {| parse := SelectStmt (bool_decide (order ≠ None)) order;
     tables := ts; conds := cs; query_cols := []; has_aggr := false;
     group_cols := []; having_conds := []; values := []; set_clauses := [] |}.

Definition two_tables_db : gmap string TabMeta :=
  {[ "t1" := plain_tab "t1" ["x"; "y"]; "t2" := plain_tab "t2" ["x"; "y"] ]}.

(** C4, on SELECT * FROM t1, t2 WHERE t2.x = t2.y: [pop_conds] for
    [t1] takes the condition, which names [t2] on both sides, and the
    plan returned by [do_planner] carries it on the scan of [t1], to
    which it is not table-local. *)
Theorem pop_conds_takes_other_table_condition :
  let c := col_cond "t2" "x" OP_EQ "t2" "y" in
  pop_conds [c] "t1" = ([c], []) ∧
  do_planner two_tables_db true false (λ _, TYPE_INT)
    (select_query ["t1"; "t2"] [c] None) =
    Ok (DMLPlan T_select
          (ProjectionPlan T_Projection
             (JoinPlan T_NestLoop (ScanPlan T_SeqScan "t2" [] [])
                (ScanPlan T_SeqScan "t1" [c] []) [])
             [])
          EmptyString [] [] []) ∧
  ¬ table_local "t1" c.
Proof.
  split; [reflexivity|]. split; [vm_compute; reflexivity|].
  intros [Hl _]. discriminate Hl.
Qed.

(** ** Sort-column resolution *)

(** The column an ORDER BY name resolves to, as the code has it: the
    last column of that name, in FROM order and then schema order, and
    the empty column reference when there is none. *)
Definition last_named (all_cols : list ColMeta) (n : string) : TabCol :=
  from_option (λ col, mkTabCol (col_tab_name col) (name col))
    (mkTabCol EmptyString EmptyString)
    (last (filter (λ col, name col = n) all_cols)).

Lemma resolve_sel_col_spec all_cols n sel_col :
  resolve_sel_col all_cols n sel_col =
  from_option (λ col, mkTabCol (col_tab_name col) (name col)) sel_col
    (last (filter (λ col, name col = n) all_cols)).
Proof.
  revert sel_col. induction all_cols as [|col rest IH]; intros sel_col; [done|].
  simpl. rewrite IH. destruct (String.eqb_spec (name col) n) as [Heq|Hne].
  - rewrite filter_cons_True by done. rewrite last_cons.
    by destruct (last (filter (λ col, name col = n) rest)).
  - by rewrite filter_cons_False by done.
Qed.

Lemma collect_cols_spec db (tables : list string) (tabs : list TabMeta) all_cols :
  Forall2 (λ t tab, db !! t = Some tab) tables tabs →
  collect_cols db tables all_cols = Ok (all_cols ++ concat (tab_cols <$> tabs)).
Proof.
  intros Htabs. revert all_cols.
  induction Htabs as [|t tab tables tabs Ht _ IH]; intros all_cols; simpl.
  - by rewrite app_nil_r.
  - unfold get_table. rewrite Ht. simpl. rewrite IH. by rewrite <- app_assoc.
Qed.

(** C8 fails: ORDER BY x with x a column of both t1 and t2 yields a
    sort on t2.x, and ORDER BY z with no column z yields a sort on the
    empty column reference; neither is an error. *)
Lemma generate_sort_plan_reports_no_error :
  let by_col n := Some (mkOrderBy (mkTabCol EmptyString n) OrderBy_ASC) in
  generate_sort_plan two_tables_db (select_query ["t1"; "t2"] [] (by_col "x")) NullPlan =
    Ok (SortPlan T_Sort NullPlan (mkTabCol "t2" "x") false) ∧
  generate_sort_plan two_tables_db (select_query ["t1"; "t2"] [] (by_col "z")) NullPlan =
    Ok (SortPlan T_Sort NullPlan (mkTabCol EmptyString EmptyString) false).
Proof. split; vm_compute; reflexivity. Qed.

(** C8, amended. For a SELECT with ORDER BY over tables of the
    catalog, [generate_sort_plan] reports no error: it wraps the plan in
    a sort on the last column of that name among the selected tables'
    schemas, in FROM order, whether the name is ambiguous or not, and on
    the empty column reference when no column has that name. *)
Theorem generate_sort_plan_resolves_silently db query order plan tabs :
  parse query = SelectStmt true (Some order) →
  Forall2 (λ t tab, db !! t = Some tab) (tables query) tabs →
  generate_sort_plan db query plan =
    Ok (SortPlan T_Sort plan
          (last_named (concat (tab_cols <$> tabs)) (col_name (order_cols order)))
          (bool_decide (orderby_dir order = OrderBy_DESC))).
Proof.
  intros Hparse Htabs. unfold generate_sort_plan. rewrite Hparse. simpl.
  rewrite (collect_cols_spec db _ tabs) by done. simpl.
  by rewrite resolve_sel_col_spec.
Qed.

Lemma generate_sort_plan_resolves_silently_witness :
  generate_sort_plan two_tables_db
    (select_query ["t1"; "t2"] []
       (Some (mkOrderBy (mkTabCol EmptyString "x") OrderBy_DESC))) NullPlan =
  Ok (SortPlan T_Sort NullPlan
        (last_named (concat (tab_cols <$>
           [plain_tab "t1" ["x"; "y"]; plain_tab "t2" ["x"; "y"]])) "x")
        true).
Proof.
  apply (generate_sort_plan_resolves_silently two_tables_db
           (select_query ["t1"; "t2"] []
              (Some (mkOrderBy (mkTabCol EmptyString "x") OrderBy_DESC)))
           (mkOrderBy (mkTabCol EmptyString "x") OrderBy_DESC) NullPlan
           [plain_tab "t1" ["x"; "y"]; plain_tab "t2" ["x"; "y"]]).
  - reflexivity.
  - repeat constructor.
Defined.

(** ** The scans of [make_one_rel] and [pop_scan] *)

(** The test of [pop_conds]. *)
Definition popped (t : string) (c : Condition) : bool :=
  (String.eqb t (tab_name (lhs_col c)) && is_rhs_val c)
  || String.eqb (tab_name (lhs_col c)) (tab_name (rhs_col c)).

Lemma pop_conds_spec conds t :
  pop_conds conds t =
  (filter (λ c, popped t c = true) conds, filter (λ c, popped t c ≠ true) conds).
Proof.
  induction conds as [|c rest IH]; [done|]. simpl. rewrite IH.
  fold (popped t c). destruct (popped t c) eqn:Hp.
  - rewrite filter_cons_True by (simpl; congruence).
    by rewrite filter_cons_False by (simpl; congruence).
  - rewrite filter_cons_False by (simpl; congruence).
    by rewrite filter_cons_True by (simpl; congruence).
Qed.

(** [scans] are scan plans of [tables], one for each in order. *)
Definition scans_of (tables : list string) (scans : list Plan) : Prop :=
  Forall2 (λ t p, ∃ tag cs ns, p = ScanPlan tag t cs ns) tables scans.

Lemma make_scans_spec db tables conds scans conds' :
  make_scans db tables conds = Ok (scans, conds') →
  scans_of tables scans ∧
  ∀ c, c ∈ conds' → c ∈ conds ∧ ∀ t, t ∈ tables → popped t c = false.
Proof.
  revert conds scans conds'.
  induction tables as [|t rest IH]; intros conds scans conds'; simpl.
  - intros [= <- <-]. split; [constructor|]. intros c Hc. split; [done|].
    intros t Ht. by apply elem_of_nil in Ht.
  - rewrite pop_conds_spec.
    destruct (get_index_cols db t _ []) as [[[found curr] names]|]; simpl; [|done].
    destruct (make_scans db rest _) as [[scans' conds'']|] eqn:Hrest; simpl; [|done].
    intros [= <- <-]. apply IH in Hrest as [Hscans Hconds]. split.
    + constructor; [|done]. destruct found; eauto.
    + intros c Hc. apply Hconds in Hc as [Hin Hpop].
      apply list_elem_of_filter in Hin as [Hnot Hin]. split; [done|].
      intros t' [->|Ht']%elem_of_cons; [|by apply Hpop].
      by destruct (popped t c).
Qed.

Lemma make_scans_is_Ok db tables conds :
  (∀ t, t ∈ tables → is_Some (db !! t)) → is_Ok (make_scans db tables conds).
Proof.
  revert conds. induction tables as [|t rest IH]; intros conds Hdb; simpl.
  - by eexists.
  - rewrite pop_conds_spec.
    destruct (Hdb t) as [tab Htab]; [by left|].
    destruct (get_index_cols_cases db t tab
                (filter (λ c, popped t c = true) conds) [] Htab)
      as [[_ ->]|(i & ix & curr' & new' & _ & _ & _ & ->)]; simpl.
    + destruct (IH (filter (λ c, popped t c ≠ true) conds)) as [[scans conds'] ->].
      { intros t' Ht'. apply Hdb. by right. }
      by eexists.
    + destruct (IH (filter (λ c, popped t c ≠ true) conds)) as [[scans conds'] ->].
      { intros t' Ht'. apply Hdb. by right. }
      by eexists.
Qed.

(** [pop_scan] finds the first scan of the table, if the table has one. *)
Lemma pop_scan_find_spec tables plans i table :
  scans_of tables plans →
  (pop_scan_find i plans table = Ok None ∧ table ∉ tables) ∨
  (∃ j, pop_scan_find i plans table = Ok (Some (i + j, table)) ∧
        tables !! j = Some table ∧ (∀ j', j' < j → tables !! j' ≠ Some table)).
Proof.
  intros Hscans. revert i.
  induction Hscans as [|t p tables plans (tag & cs & ns & ->) _ IH]; intros i; simpl.
  - left. split; [done|]. apply not_elem_of_nil.
  - destruct (String.eqb_spec t table) as [->|Hne].
    + right. exists 0. rewrite Nat.add_0_r. split; [done|]. split; [done|].
      intros j' Hj'. lia.
    + destruct (IH (S i)) as [[-> Hnot]|(j & -> & Hj & Hfirst)].
      * left. split; [done|]. rewrite not_elem_of_cons. done.
      * right. exists (S j). split; [do 3 f_equal; lia|]. split; [done|].
        intros [|j'] Hj'; simpl; [congruence|]. apply Hfirst. lia.
Qed.

Lemma pop_scan_spec tables plans scantbl table joined_tables :
  scans_of tables plans →
  (pop_scan scantbl table joined_tables plans = Ok (scantbl, joined_tables, None) ∧
   table ∉ tables) ∨
  (∃ j, pop_scan scantbl table joined_tables plans =
          Ok (<[j := 1%Z]> scantbl, joined_tables ++ [table], Some j) ∧
        tables !! j = Some table ∧ (∀ j', j' < j → tables !! j' ≠ Some table)).
Proof.
  intros Hscans. unfold pop_scan.
  destruct (pop_scan_find_spec tables plans 0 table Hscans)
    as [[-> Hnot]|(j & -> & Hj & Hfirst)]; simpl.
  - by left.
  - right. by exists j.
Qed.

Lemma deref_scans_of tables plans j t :
  scans_of tables plans → tables !! j = Some t →
  ∃ tag cs ns, deref plans (Some j) = ScanPlan tag t cs ns.
Proof.
  intros Hscans Hj. unfold deref.
  destruct (Forall2_lookup_l _ _ _ _ _ Hscans Hj) as (p & -> & Hp). done.
Qed.

(** What a pointer returned by [pop_scan] says about the FROM list. *)
Definition found_at (tables : list string) (t : string) (p : option nat) : Prop :=
  match p with
  | None => t ∉ tables
  | Some j => tables !! j = Some t ∧ ∀ j', j' < j → tables !! j' ≠ Some t
  end.

Lemma pop_scan_found tables plans scantbl table joined_tables :
  scans_of tables plans →
  ∃ scantbl' joined' p,
    pop_scan scantbl table joined_tables plans = Ok (scantbl', joined', p) ∧
    found_at tables table p ∧
    (p = None → joined' = joined_tables) ∧
    (is_Some p → joined' = joined_tables ++ [table]).
Proof.
  intros Hscans.
  destruct (pop_scan_spec tables plans scantbl table joined_tables Hscans)
    as [[-> Hnot]|(j & -> & Hj & Hfirst)].
  - eexists _, _, None. split; [done|]. split; [done|]. split; [done|].
    by intros [? ?].
  - eexists _, _, (Some j). split; [done|]. split; [done|]. split; [done|]. done.
Qed.

Lemma get_index_cols_is_Ok db t conds names0 :
  is_Some (db !! t) → is_Ok (get_index_cols db t conds names0).
Proof.
  intros [tab Htab].
  destruct (get_index_cols_cases db t tab conds names0 Htab)
    as [[_ ->]|(i & ix & curr' & new' & _ & _ & _ & ->)]; by eexists.
Qed.

Lemma get_index_cols_singleton db t c names0 found conds' names' :
  distinct_keys db →
  get_index_cols db t [c] names0 = Ok (found, conds', names') → conds' = [c].
Proof.
  intros Hdb Hrun. apply get_index_cols_Permutation in Hrun; [|done].
  symmetry. by apply Permutation_singleton_l.
Qed.

Lemma swap_cols_involutive c : swap_cols (swap_cols c) = c.
Proof. by destruct c. Qed.

(** The first-level join: its children and its condition. *)
Lemma first_join_spec db nl sm tables tse scantbl jt it p scantbl' jt' :
  nl = true ∨ distinct_keys db → scans_of tables tse →
  first_join db nl sm tse scantbl jt it = Ok (p, scantbl', jt') →
  ∃ lp rp,
    found_at tables (tab_name (lhs_col it)) lp ∧
    found_at tables (tab_name (rhs_col it)) rp ∧
    let swap := bool_decide (lp = Some 1 ∧ rp = Some 0) in
    let it' := if swap then swap_cols it else it in
    let l := deref tse (if swap then rp else lp) in
    let r := deref tse (if swap then lp else rp) in
    (∃ tag, p = JoinPlan tag l r [it']) ∨
    (∃ ln rn, p = JoinPlan T_SortMergeWithIndex
                    (ScanPlan T_IndexScan (tab_name (lhs_col it')) [] ln)
                    (ScanPlan T_IndexScan (tab_name (rhs_col it')) [] rn) [it']).
Proof.
  intros Hdb Hscans. unfold first_join.
  destruct (pop_scan_found tables tse scantbl (tab_name (lhs_col it)) jt Hscans)
    as (s1 & j1 & lp & -> & Hlp & _). simpl.
  destruct (pop_scan_found tables tse s1 (tab_name (rhs_col it)) j1 Hscans)
    as (s2 & j2 & rp & -> & Hrp & _). simpl.
  destruct (at_ tse 1) as [?|]; simpl; [|done].
  intros Hrun. exists lp, rp. split; [done|]. split; [done|]. simpl.
  destruct (decide (lp = Some 1 ∧ rp = Some 0)) as [Hswap|Hswap];
    [rewrite bool_decide_eq_true_2 by done|rewrite bool_decide_eq_false_2 by done];
    (destruct nl, sm; simpl in Hrun; try done;
     [injection Hrun as <- _ _; left; eauto ..|]);
    (destruct Hdb as [[=]|Hdb];
     destruct (get_index_cols db _ _ []) as [[[lfound lconds] ln]|] eqn:Hl;
       simpl in Hrun; [|done];
     apply get_index_cols_singleton in Hl as ->; [|done];
     destruct (get_index_cols db _ _ []) as [[[rfound rconds] rn]|] eqn:Hr;
       simpl in Hrun; [|done];
     apply get_index_cols_singleton in Hr as ->; [|done];
     rewrite ?swap_cols_involutive in Hrun;
     destruct (lfound && rfound); injection Hrun as <- _ _;
     [right|left]; eauto).
Qed.

Lemma first_join_is_Ok db nl sm tables tse scantbl jt it :
  scans_of tables tse → 2 ≤ length tables → nl || sm = true →
  is_Some (db !! tab_name (lhs_col it)) → is_Some (db !! tab_name (rhs_col it)) →
  is_Ok (first_join db nl sm tse scantbl jt it).
Proof.
  intros Hscans Hlen Hflag Hdl Hdr. unfold first_join.
  destruct (pop_scan_found tables tse scantbl (tab_name (lhs_col it)) jt Hscans)
    as (s1 & j1 & lp & -> & Hlp & _). simpl.
  destruct (pop_scan_found tables tse s1 (tab_name (rhs_col it)) j1 Hscans)
    as (s2 & j2 & rp & -> & Hrp & _). simpl.
  destruct (lookup_lt_is_Some_2 tse 1) as [p1 Hp1].
  { rewrite <- (Forall2_length _ _ _ Hscans). lia. }
  unfold at_ at 1. rewrite Hp1. simpl.
  destruct (decide (lp = Some 1 ∧ rp = Some 0)) as [Hswap|Hswap];
    (destruct nl, sm; simpl in *; try done; try (by eexists);
     repeat match goal with
       | |- context [get_index_cols db ?t ?cs []] =>
           destruct (get_index_cols_is_Ok db t cs []) as [[[? ?] ?] ->];
           [simpl; done|]; simpl
       end;
     match goal with |- context [?a && ?b] => destruct (a && b) end;
     by eexists).
Qed.

Lemma found_at_first tables t j p :
  tables !! j = Some t → (∀ j', j' < j → tables !! j' ≠ Some t) →
  found_at tables t p → p = Some j.
Proof.
  intros Hj Hfirst. destruct p as [k|]; simpl.
  - intros [Hk Hkfirst]. f_equal.
    destruct (Nat.lt_trichotomy k j) as [Hlt|[->|Hgt]]; [|done|].
    + by destruct (Hfirst k Hlt).
    + by destruct (Hkfirst j Hgt).
  - intros Hnot. destruct Hnot. by eapply list_elem_of_lookup_2.
Qed.

(** The first position of a table in the FROM list. *)
Lemma first_index (tables : list string) t :
  t ∈ tables → ∃ j, tables !! j = Some t ∧ ∀ j', j' < j → tables !! j' ≠ Some t.
Proof.
  induction tables as [|t' tables IH]; [by intros ?%elem_of_nil|].
  intros Hin. destruct (decide (t' = t)) as [->|Hne].
  - exists 0. split; [done|]. lia.
  - apply elem_of_cons in Hin as [->|Hin]; [done|].
    destruct (IH Hin) as (j & Hj & Hfirst). exists (S j). split; [done|].
    intros [|j'] Hlt; simpl; [congruence|]. apply Hfirst. lia.
Qed.

(** ** The first join and the FROM order *)

Definition three_tables_db : gmap string TabMeta :=
  {[ "a" := plain_tab "a" ["x"]; "b" := plain_tab "b" ["y"];
     "c" := plain_tab "c" ["z"] ]}.

(** C6 fails: with FROM a, b, c and the first condition c.z = a.x, the
    two scans located are those of c (third in FROM) and of a (first in
    FROM), in reverse FROM order, and the first join keeps c on the left
    and the condition as written. *)
Lemma first_join_keeps_reverse_order :
  let it := col_cond "c" "z" OP_EQ "a" "x" in
  let scan t := ScanPlan T_SeqScan t [] [] in
  first_join three_tables_db true false [scan "a"; scan "b"; scan "c"]
    [-1; -1; -1]%Z [EmptyString; EmptyString; EmptyString] it =
    Ok (JoinPlan T_NestLoop (scan "c") (scan "a") [it],
        [1; -1; 1]%Z, [EmptyString; EmptyString; EmptyString; "c"; "a"]) ∧
  make_one_rel three_tables_db true false (select_query ["a"; "b"; "c"] [it] None) =
    Ok (JoinPlan T_NestLoop (scan "b")
          (JoinPlan T_NestLoop (scan "c") (scan "a") [it]) [],
        select_query ["a"; "b"; "c"] [] None).
Proof. split; vm_compute; reflexivity. Qed.

(** A scan of table [t]. *)
Definition scan_of (t : string) (p : Plan) : Prop :=
  ∃ tag cs ns, p = ScanPlan tag t cs ns.

(** The condition's left column names the second table of the FROM
    list and its right column names the first. *)
Definition second_then_first (tables : list string) (it : Condition) : Prop :=
  tables !! 1 = Some (tab_name (lhs_col it)) ∧
  tables !! 0 = Some (tab_name (rhs_col it)) ∧
  tab_name (lhs_col it) ≠ tab_name (rhs_col it).

(** The scans [pop_scan] locates are the second and the first in that
    case only. *)
Lemma second_then_first_found tables it jl jr :
  found_at tables (tab_name (lhs_col it)) (Some jl) →
  found_at tables (tab_name (rhs_col it)) (Some jr) →
  (Some jl = Some 1 ∧ Some jr = Some 0) ↔ second_then_first tables it.
Proof.
  intros [Hjl Hfl] [Hjr Hfr]. unfold second_then_first. split.
  - intros [[= ->] [= ->]]. split_and!; [done..|].
    intros Heq. apply (Hfl 0); [lia|]. by rewrite Heq.
  - intros (H1 & H0 & Hne).
    assert (jr = 0) as ->.
    { destruct jr as [|jr]; [done|]. by destruct (Hfr 0 ltac:(lia)). }
    assert (jl = 1) as ->; [|done].
    destruct jl as [|[|jl]]; [|done|].
    + destruct Hne. congruence.
    + by destruct (Hfl 1 ltac:(lia)).
Qed.

Global Instance second_then_first_dec tables it :
  Decision (second_then_first tables it).
Proof. unfold second_then_first. apply _. Defined.

(** The first join: its two children and its condition. *)
Lemma first_join_shape db nl sm tables tse scantbl jt it :
  nl = true ∨ distinct_keys db →
  scans_of tables tse → 2 ≤ length tables →
  tab_name (lhs_col it) ∈ tables → tab_name (rhs_col it) ∈ tables →
  nl || sm = true →
  is_Some (db !! tab_name (lhs_col it)) → is_Some (db !! tab_name (rhs_col it)) →
  let it' := if decide (second_then_first tables it) then swap_cols it else it in
  ∃ tag l r scantbl' jt',
    first_join db nl sm tse scantbl jt it = Ok (JoinPlan tag l r [it'], scantbl', jt') ∧
    scan_of (tab_name (lhs_col it')) l ∧ scan_of (tab_name (rhs_col it')) r.
Proof.
  intros Hdb Hscans Htwo Hl Hr Hflag Hdl Hdr.
  destruct (first_join_is_Ok db nl sm tables tse scantbl jt it)
    as [[[p scantbl'] jt'] Hrun]; [done..|].
  rewrite Hrun.
  destruct (first_join_spec _ _ _ _ _ _ _ _ _ _ _ Hdb Hscans Hrun)
    as (lp & rp & Hlp & Hrp & Hp).
  destruct (first_index _ _ Hl) as (jl & Hjl & Hfl).
  destruct (first_index _ _ Hr) as (jr & Hjr & Hfr).
  pose proof (found_at_first _ _ _ _ Hjl Hfl Hlp) as ->.
  pose proof (found_at_first _ _ _ _ Hjr Hfr Hrp) as ->.
  pose proof (second_then_first_found tables it jl jr Hlp Hrp) as Hiff.
  destruct (deref_scans_of tables tse jl _ Hscans Hjl) as (tagl & csl & nsl & Hsl).
  destruct (deref_scans_of tables tse jr _ Hscans Hjr) as (tagr & csr & nsr & Hsr).
  simpl in Hp.
  destruct (decide (Some jl = Some 1 ∧ Some jr = Some 0)) as [Hswap|Hswap].
  - rewrite bool_decide_eq_true_2 in Hp by done. rewrite Hsl, Hsr in Hp. simpl in Hp.
    rewrite decide_True by (by apply Hiff).
    destruct Hp as [[tag ->]|(ln & rn & ->)];
      eexists _, _, _, _, _; (split; [done|]); split; by eexists _, _, _.
  - rewrite bool_decide_eq_false_2 in Hp by done. rewrite Hsl, Hsr in Hp.
    rewrite decide_False by (by rewrite <- Hiff).
    destruct Hp as [[tag ->]|(ln & rn & ->)];
      eexists _, _, _, _, _; (split; [done|]); split; by eexists _, _, _.
Qed.

(** C6, amended. In the first join of [make_one_rel], for a first
    condition between tables of the FROM list (tables of the catalog,
    a join executor enabled, and the nested-loop join enabled or the
    indexes naming each key column once): the join has one condition,
    its left child scans the table of the condition's left column and
    its right child that of the right column; the children and the two
    sides of the condition are swapped exactly when the condition as
    written names the second table of the FROM list on its left and
    the first on its right, and in every other case the condition
    stays as written.  So when the first condition joins the first two
    FROM tables, the first join has the first table on the left, the
    second on the right and the condition's [lhs_col] on the first. *)
Theorem first_join_swaps_second_then_first db nl sm tables tse scantbl jt it :
  nl = true ∨ distinct_keys db →
  scans_of tables tse → 2 ≤ length tables →
  tab_name (lhs_col it) ∈ tables → tab_name (rhs_col it) ∈ tables →
  nl || sm = true →
  is_Some (db !! tab_name (lhs_col it)) → is_Some (db !! tab_name (rhs_col it)) →
  ∃ tag l r it' scantbl' jt',
    first_join db nl sm tse scantbl jt it = Ok (JoinPlan tag l r [it'], scantbl', jt') ∧
    scan_of (tab_name (lhs_col it')) l ∧ scan_of (tab_name (rhs_col it')) r ∧
    (second_then_first tables it →
     lhs_col it' = rhs_col it ∧ rhs_col it' = lhs_col it) ∧
    (¬ second_then_first tables it → it' = it) ∧
    (∀ t0 t1, tables !! 0 = Some t0 → tables !! 1 = Some t1 → t0 ≠ t1 →
       (tab_name (lhs_col it) = t0 ∧ tab_name (rhs_col it) = t1) ∨
       (tab_name (lhs_col it) = t1 ∧ tab_name (rhs_col it) = t0) →
       tab_name (lhs_col it') = t0 ∧ tab_name (rhs_col it') = t1).
Proof.
  intros Hdb Hscans Htwo Hl Hr Hflag Hdl Hdr.
  destruct (first_join_shape db nl sm tables tse scantbl jt it)
    as (tag & l & r & scantbl' & jt' & Hrun & Hleft & Hright); [done..|].
  exists tag, l, r, (if decide (second_then_first tables it) then swap_cols it else it),
         scantbl', jt'.
  split; [done|]. split; [done|]. split; [done|].
  destruct (decide (second_then_first tables it)) as [Hswap|Hkeep].
  - split_and!; [done|done|].
    intros t0 t1 H0 H1 Hne [[Hlt Hrt]|[Hlt Hrt]]; simpl; [|done].
    destruct Hswap as (H1' & _). congruence.
  - split_and!; [done|done|].
    intros t0 t1 H0 H1 Hne [[Hlt Hrt]|[Hlt Hrt]]; [done|].
    destruct Hkeep. unfold second_then_first. rewrite Hlt, Hrt. done.
Qed.

(** S5 as the witness: SELECT * FROM item, stock WHERE s_i_id = i_id
    ORDER BY i_id.  The first join has [item] on the left and its
    condition has i_id of [item] on the left. *)
Definition s5_db : gmap string TabMeta :=
  {[ "item" := plain_tab "item" ["i_id"]; "stock" := plain_tab "stock" ["s_i_id"] ]}.

Definition s5_cond : Condition := col_cond "stock" "s_i_id" OP_EQ "item" "i_id".

Definition s5_query : Query :=
  select_query ["item"; "stock"] [s5_cond]
    (Some (mkOrderBy (mkTabCol EmptyString "i_id") OrderBy_ASC)).

Definition s5_scans : list Plan :=
  [ScanPlan T_SeqScan "item" [] []; ScanPlan T_SeqScan "stock" [] []].

Lemma first_join_swaps_second_then_first_witness :
  do_planner s5_db true false (λ _, TYPE_INT) s5_query =
    Ok (DMLPlan T_select
          (ProjectionPlan T_Projection
             (SortPlan T_Sort
                (JoinPlan T_NestLoop (ScanPlan T_SeqScan "item" [] [])
                   (ScanPlan T_SeqScan "stock" [] [])
                   [col_cond "item" "i_id" OP_EQ "stock" "s_i_id"])
                (mkTabCol "item" "i_id") false)
             [])
          EmptyString [] [] []) ∧
  second_then_first ["item"; "stock"] s5_cond ∧
  ∃ tag l r it' scantbl' jt',
    first_join s5_db true false s5_scans [-1; -1]%Z [EmptyString; EmptyString] s5_cond =
      Ok (JoinPlan tag l r [it'], scantbl', jt') ∧
    scan_of (tab_name (lhs_col it')) l ∧ scan_of (tab_name (rhs_col it')) r ∧
    (second_then_first ["item"; "stock"] s5_cond →
     lhs_col it' = rhs_col s5_cond ∧ rhs_col it' = lhs_col s5_cond) ∧
    (¬ second_then_first ["item"; "stock"] s5_cond → it' = s5_cond) ∧
    (∀ t0 t1, ["item"; "stock"] !! 0 = Some t0 → ["item"; "stock"] !! 1 = Some t1 →
       t0 ≠ t1 →
       (tab_name (lhs_col s5_cond) = t0 ∧ tab_name (rhs_col s5_cond) = t1) ∨
       (tab_name (lhs_col s5_cond) = t1 ∧ tab_name (rhs_col s5_cond) = t0) →
       tab_name (lhs_col it') = t0 ∧ tab_name (rhs_col it') = t1).
Proof.
  split; [vm_compute; reflexivity|].
  split; [by split_and!|].
  apply (first_join_swaps_second_then_first s5_db true false ["item"; "stock"]).
  - by left.
  - repeat constructor; by eexists _, _, _.
  - simpl. lia.
  - right. by left.
  - by left.
  - reflexivity.
  - vm_compute. eauto.
  - vm_compute. eauto.
Defined.

(** ** Conditions attached to joins *)

(** The tables scanned below a plan node. *)
Fixpoint plan_tables (p : Plan) : list string :=
  match p with
  | ScanPlan _ t _ _ => [t]
  | JoinPlan _ l r _ => plan_tables l ++ plan_tables r
  | SortPlan _ sub _ _ => plan_tables sub
  | AggregationPlan _ sub _ _ _ => plan_tables sub
  | ProjectionPlan _ sub _ => plan_tables sub
  | DMLPlan _ sub _ _ _ _ => plan_tables sub
  | _ => []
  end.


(** The validated query: its conditions reference tables of its FROM list. *)
Definition tables_known (query : Query) : Prop :=
  ∀ c, c ∈ conds query →
    tab_name (lhs_col c) ∈ tables query ∧
    (is_rhs_val c = false → tab_name (rhs_col c) ∈ tables query).

(** The condition [push_conds] attaches when the left child matched the
    right-hand side. *)
Definition reversed (cond : Condition) : Condition :=
  set_op (swap_cols cond) (swap_op (op cond)).











(** SELECT * FROM t1, t2, t3 WHERE t1.x = t2.y AND t1.x < t3.z AND
    t2.x < t1.y: the second condition joins t3 from the left and is
    reversed, the third is pushed below and reversed by [push_conds]. *)
Definition three_way_db : gmap string TabMeta :=
  {[ "t1" := plain_tab "t1" ["x"; "y"]; "t2" := plain_tab "t2" ["x"; "y"];
     "t3" := plain_tab "t3" ["z"] ]}.

Definition three_way_query : Query :=
  select_query ["t1"; "t2"; "t3"]
    [col_cond "t1" "x" OP_EQ "t2" "y"; col_cond "t1" "x" OP_LT "t3" "z";
     col_cond "t2" "x" OP_LT "t1" "y"] None.

Definition three_way_plan : Plan :=
  DMLPlan T_select
    (ProjectionPlan T_Projection
       (JoinPlan T_NestLoop (ScanPlan T_SeqScan "t3" [] [])
          (JoinPlan T_NestLoop (ScanPlan T_SeqScan "t1" [] [])
             (ScanPlan T_SeqScan "t2" [] [])
             [col_cond "t1" "x" OP_EQ "t2" "y"; col_cond "t1" "y" OP_GT "t2" "x"])
          [col_cond "t3" "z" OP_GT "t1" "x"])
       [])
    EmptyString [] [] [].

Lemma three_way_db_distinct_keys : distinct_keys three_way_db.
Proof.
  intros t tab Ht. unfold three_way_db in Ht.
  apply lookup_insert_Some in Ht as [[_ <-]|[_ Ht]]; [constructor|].
  apply lookup_insert_Some in Ht as [[_ <-]|[_ Ht]]; [constructor|].
  apply lookup_singleton_Some in Ht as [_ <-]. constructor.
Qed.

Lemma three_way_query_tables_known : tables_known three_way_query.
Proof.
  intros c Hc. simpl in Hc.
  repeat (apply elem_of_cons in Hc as [->|Hc]); simpl;
    [split; intros; set_solver ..|].
  by apply elem_of_nil in Hc.
Qed.


(** * Properties of the external merge sorter *)

(** ** Reading without runs *)

(** C9, with no record written: [endWrite] leaves [filenames_] empty,
    and [beginRead] then computes [std::ceil(std::log2(0))], minus
    infinity, whose conversion to [int] is undefined, as are the shifts
    by the resulting height: the call is not valid. *)
Theorem beginRead_without_runs_undefined :
  ∀ (record : Type) (fresh_record : record) (cmp_ : record → record → Z),
    endWrite record cmp_ (sorter_new record) = Ok (sorter_new record) ∧
    filenames_ (sorter_new record) = [] ∧
    ceil_log2 (Z.of_nat (length (filenames_ (sorter_new record)))) =
      Err UndefinedBehaviour ∧
    beginRead record fresh_record cmp_ (sorter_new record) = Err UndefinedBehaviour.
Proof. intros record fresh_record cmp_. split_and!; reflexivity. Qed.

(** ** Ties in the loser tree *)

(** Records with a key and a tag, compared on the key alone. *)
Definition key_cmp (a b : Z * Z) : Z := (a.1 - b.1)%Z.

Definition tie_input : list (Z * Z) := [(1, 10); (2, 11); (1, 20); (2, 21)]%Z.

(** C7 fails in [adjust]: two runs of two records, [(1,10); (2,11)] at
    the left leaf and [(1,20); (2,21)] at the right leaf.  After two
    reads the current records [(2,11)] and [(2,21)] compare equal, yet
    the match of the second [adjust] was won by run 1, at the right
    leaf: [heap[0] = 1], and the third record read is [(2,21)]. *)
Lemma adjust_tie_right_leaf_wins :
  (let* s := write_all (Z * Z) (0, 0)%Z key_cmp 2 16 (sorter_new (Z * Z)) tie_input in
   let* s := endWrite (Z * Z) key_cmp s in
   let* s := beginRead (Z * Z) (0, 0)%Z key_cmp s in
   let* (out, s) := read_n (Z * Z) key_cmp 2 s in
   let* (next, _) := read (Z * Z) key_cmp s in
   Ok (out, record_list s, heap s, next)) =
  Ok ([(1, 10); (1, 20)], [(2, 11); (2, 21)], [1; 0; 0; 1], (2, 21))%Z ∧
  key_cmp (2, 11)%Z (2, 21)%Z = 0%Z ∧
  adjust_step (Z * Z) key_cmp [(2, 11); (2, 21)]%Z [1; 0; 0; 1]%Z 3 1 =
    Ok ([1; 0; 0; 1]%Z, 1%Z).
Proof. split_and!; vm_compute; reflexivity. Qed.

(** C7, amended.  In the bottom-up build of [beginRead], when the
    current records of the winners of the two children of a node compare
    equal, the winner of the left child wins and the winner of the right
    child is stored as the loser.  In a round of [adjust], when the
    record of the travelling winner compares equal to the record of the
    loser stored at the parent, the travelling winner wins and the stored
    loser stays, whichever leaves the two runs sit at. *)
Theorem tie_winners (record : Type) (cmp_ : record → record → Z)
    (records : list record) (winners hp : list Z) (i cur a b : Z) (ra rb : record) :
  a ≠ (-1)%Z → b ≠ (-1)%Z →
  zat records a = Ok ra → zat records b = Ok rb →
  cmp_ ra rb = 0%Z →
  (zat winners (Z.shiftl i 1) = Ok a →
   zat winners (Z.lxor (Z.shiftl i 1) 1) = Ok b →
   build_step record cmp_ records winners hp i =
     (let* winners := zset winners i a in
      let* hp := zset hp i b in
      Ok (winners, hp))) ∧
  (zat hp (Z.shiftr cur 1) = Ok b →
   adjust_step record cmp_ records hp cur a = Ok (hp, a)).
Proof.
  intros Ha Hb Hra Hrb Hcmp.
  assert (wins record cmp_ records a b = Ok true) as Hwins.
  { unfold wins. rewrite (proj2 (Z.eqb_neq a (-1))) by done.
    rewrite (proj2 (Z.eqb_neq b (-1))) by done.
    rewrite Hra, Hrb. simpl. by rewrite Hcmp. }
  split.
  - intros Hl Hr. unfold build_step. rewrite Hl, Hr. simpl. by rewrite Hwins.
  - intros Hp. unfold adjust_step. rewrite Hp. simpl. by rewrite Hwins.
Qed.

Lemma tie_winners_witness :
  build_step (Z * Z) key_cmp [(1, 10); (1, 20)]%Z [0; 0; 0; 1]%Z [0; 0; 0; 1]%Z 1 =
    Ok ([0; 0; 0; 1]%Z, [0; 1; 0; 1]%Z) ∧
  adjust_step (Z * Z) key_cmp [(2, 11); (2, 21)]%Z [1; 0; 0; 1]%Z 3 1 =
    Ok ([1; 0; 0; 1]%Z, 1%Z).
Proof.
  split.
  - apply (tie_winners (Z * Z) key_cmp [(1, 10); (1, 20)]%Z
             [0; 0; 0; 1]%Z [0; 0; 0; 1]%Z 1 3 0 1 (1, 10)%Z (1, 20)%Z);
      try reflexivity; discriminate.
  - apply (tie_winners (Z * Z) key_cmp [(2, 11); (2, 21)]%Z
             [0; 0; 0; 1]%Z [1; 0; 0; 1]%Z 1 3 1 0 (2, 21)%Z (2, 11)%Z);
      try reflexivity; discriminate.
Defined.

(** ** The loser tree as an array *)

Lemma shiftl_1_double i : Z.shiftl i 1 = (2 * i)%Z.
Proof. rewrite Z.shiftl_mul_pow2 by lia. lia. Qed.

Lemma lxor_shiftl_1 i : (0 ≤ i)%Z → Z.lxor (Z.shiftl i 1) 1 = (2 * i + 1)%Z.
Proof.
  intros Hi. rewrite shiftl_1_double.
  destruct i as [|p|p]; [reflexivity|reflexivity|lia].
Qed.

Lemma shiftr_1_half i : Z.shiftr i 1 = (i / 2)%Z.
Proof. rewrite Z.shiftr_div_pow2 by lia. done. Qed.

Lemma shiftl_1_pow h : (0 ≤ h)%Z → Z.shiftl 1 h = (2 ^ h)%Z.
Proof. intros Hh. rewrite Z.shiftl_mul_pow2 by lia. apply Z.mul_1_l. Qed.

Lemma ceil_log2_pos k :
  (1 ≤ k)%Z →
  ceil_log2 k = Ok (Z.log2_up k) ∧ (0 ≤ Z.log2_up k)%Z ∧ (k ≤ 2 ^ Z.log2_up k)%Z.
Proof.
  intros Hk. unfold ceil_log2. rewrite (proj2 (Z.eqb_neq k 0)) by lia.
  split; [done|]. split; [apply Z.log2_up_nonneg|].
  destruct (Z.eq_dec k 1) as [->|Hne]; [done|].
  apply Z.log2_up_spec. lia.
Qed.

Lemma half_even i : (2 * i / 2 = i)%Z.
Proof. symmetry. apply (Z.div_unique _ 2 _ 0); lia. Qed.

Lemma half_odd i : ((2 * i + 1) / 2 = i)%Z.
Proof. symmetry. apply (Z.div_unique _ 2 _ 1); lia. Qed.

Lemma half_lt p : (1 ≤ p → p / 2 < p)%Z.
Proof. intros Hp. apply Z.div_lt_upper_bound; lia. Qed.

Lemma half_cases p : (p = 2 * (p / 2) ∨ p = 2 * (p / 2) + 1)%Z.
Proof.
  pose proof (Z.div_mod p 2 ltac:(lia)) as Hdm.
  pose proof (Z.mod_pos_bound p 2 ltac:(lia)) as Hm. lia.
Qed.

(** [anc i p]: node [i] is [p] or lies on the way from [p] up to the root. *)
Inductive anc : Z → Z → Prop :=
| anc_here p : anc p p
| anc_up i p : (1 < p)%Z → anc i (p / 2) → anc i p.

Lemma anc_le i p : (1 ≤ i)%Z → anc i p → (i ≤ p)%Z.
Proof.
  intros Hi. induction 1 as [|i p Hp _ IH]; [lia|].
  specialize (IH Hi). pose proof (half_lt p). lia.
Qed.

Lemma anc_parent i p : (1 < i)%Z → anc i p → anc (i / 2) p.
Proof.
  intros Hi. induction 1 as [p|i p Hp _ IH].
  - apply anc_up; [done|]. apply anc_here.
  - apply anc_up; [done|]. by apply IH.
Qed.

Lemma anc_child i c p : (1 ≤ i)%Z → (c = 2 * i ∨ c = 2 * i + 1)%Z → anc c p → anc i p.
Proof.
  intros Hi Hc Hanc. replace i with (c / 2)%Z; [apply anc_parent; [lia|done]|].
  destruct Hc as [-> | ->]; [apply half_even|apply half_odd].
Qed.

Lemma anc_children i p :
  anc i p → i ≠ p → anc (2 * i) p ∨ anc (2 * i + 1) p.
Proof.
  induction 1 as [|i p Hp Hanc IH]; [done|]. intros _.
  destruct (Z.eq_dec i (p / 2)) as [->|Hne].
  - destruct (half_cases p) as [Hp0|Hp1].
    + left. rewrite <- Hp0. apply anc_here.
    + right. rewrite <- Hp1. apply anc_here.
  - destruct (IH Hne); [left|right]; by apply anc_up.
Qed.

Lemma anc_not_both i p : (1 ≤ i)%Z → anc (2 * i) p → anc (2 * i + 1) p → False.
Proof.
  intros Hi H0. remember (2 * i)%Z as c eqn:Hc. revert Hc.
  induction H0 as [p|c p Hp H0 IH]; intros -> H1.
  - apply anc_le in H1; lia.
  - inversion H1 as [|? ? _ H1']; subst.
    + rewrite half_odd in H0. apply anc_le in H0; lia.
    + by apply IH.
Qed.

(** Induction from the leaves [L .. 2L-1] up to the root. *)
Lemma tree_ind (L : Z) (P : Z → Prop) :
  (∀ i, L ≤ i < 2 * L → P i)%Z →
  (∀ i, 1 ≤ i < L → P (2 * i) → P (2 * i + 1) → P i)%Z →
  ∀ i, (1 ≤ i < 2 * L)%Z → P i.
Proof.
  intros Hleaf Hnode i Hi.
  remember (Z.to_nat (2 * L - i)) as n eqn:Hn. revert i Hi Hn.
  induction (lt_wf n) as [n _ IH]. intros i Hi ->.
  destruct (Z_lt_le_dec i L) as [Hlt|Hge]; [|apply Hleaf; lia].
  apply Hnode; [lia|..]; (eapply IH; [|split|reflexivity]; lia).
Qed.

Lemma anc_root p : (1 ≤ p)%Z → anc 1 p.
Proof.
  intros Hp. remember (Z.to_nat p) as n eqn:Hn. revert p Hp Hn.
  induction (lt_wf n) as [n _ IH]. intros p Hp ->.
  destruct (Z.eq_dec p 1) as [->|Hne]; [apply anc_here|].
  apply anc_up; [lia|]. pose proof (half_lt p Hp). pose proof (half_cases p).
  eapply IH; [|lia|reflexivity]. lia.
Qed.

Lemma anc_half p : (1 < p)%Z → anc (p / 2) p.
Proof. intros Hp. apply anc_up; [done|]. apply anc_here. Qed.

Lemma anc_proper_parent i c : (1 ≤ i)%Z → anc i c → i ≠ c → anc i (c / 2).
Proof. intros Hi Hanc Hne. by inversion Hanc; subst. Qed.

Lemma zat_Ok {A} (v : list A) (i : Z) (x : A) :
  zat v i = Ok x ↔ (0 ≤ i)%Z ∧ v !! Z.to_nat i = Some x.
Proof.
  unfold zat, at_. destruct (Z.ltb_spec i 0) as [Hlt|Hge].
  - split; [done|]. intros [? _]. lia.
  - destruct (v !! Z.to_nat i); split; try done; naive_solver.
Qed.

Lemma zat_is_Ok {A} (v : list A) (i : Z) :
  (0 ≤ i < Z.of_nat (length v))%Z → ∃ x, zat v i = Ok x.
Proof.
  intros Hi. destruct (lookup_lt_is_Some_2 v (Z.to_nat i)) as [x Hx]; [lia|].
  exists x. apply zat_Ok. split; [lia|done].
Qed.

Lemma zat_lt {A} (v : list A) (i : Z) (x : A) :
  zat v i = Ok x → (0 ≤ i < Z.of_nat (length v))%Z.
Proof. intros [Hi Hx]%zat_Ok. apply lookup_lt_Some in Hx. lia. Qed.

Lemma zset_Ok {A} (v : list A) (i : Z) (x : A) :
  (0 ≤ i < Z.of_nat (length v))%Z → zset v i x = Ok (<[Z.to_nat i := x]> v).
Proof.
  intros Hi. unfold zset.
  rewrite (proj2 (Z.leb_le 0 i)) by lia. by rewrite (proj2 (Z.ltb_lt _ _)) by lia.
Qed.

Lemma zat_insert {A} (v : list A) (i j : Z) (x : A) :
  (0 ≤ i < Z.of_nat (length v))%Z → (0 ≤ j)%Z →
  zat (<[Z.to_nat i := x]> v) j = if decide (j = i) then Ok x else zat v j.
Proof.
  intros Hi Hj. unfold zat, at_. rewrite (proj2 (Z.ltb_ge j 0)) by lia.
  case_decide as Hd.
  - subst. rewrite list_lookup_insert_eq by lia. done.
  - rewrite list_lookup_insert_ne by lia. done.
Qed.

Section loser_tree.
Context {record : Type} (cmp_ : record → record → Z).
Hypothesis cmp_total : ∀ a b, (cmp_ a b ≤ 0 ∨ cmp_ b a ≤ 0)%Z.
Hypothesis cmp_trans : ∀ a b c, (cmp_ a b ≤ 0 → cmp_ b c ≤ 0 → cmp_ a c ≤ 0)%Z.

(** Run [a] is not beaten by run [b]: [b] is a dummy, or neither is and
    the record of [a] is not greater. *)
Definition beats (recs : list record) (a b : Z) : Prop :=
  b = (-1)%Z ∨
  (a ≠ (-1)%Z ∧ ∃ ra rb, zat recs a = Ok ra ∧ zat recs b = Ok rb ∧ (cmp_ ra rb ≤ 0)%Z).

(** A tree entry is a dummy or a run number. *)
Definition entry (k : Z) (x : Z) : Prop := (x = -1 ∨ 0 ≤ x < k)%Z.

Lemma wins_spec recs a b :
  entry (Z.of_nat (length recs)) a → entry (Z.of_nat (length recs)) b →
  ∃ t, wins record cmp_ recs a b = Ok t ∧
       (t = true → beats recs a b) ∧ (t = false → beats recs b a).
Proof.
  intros Ha Hb. unfold wins.
  destruct (Z.eqb_spec a (-1)) as [->|Ha1].
  { exists false. split; [done|]. split; [done|]. intros _. by left. }
  destruct (Z.eqb_spec b (-1)) as [->|Hb1].
  { exists true. split; [done|]. split; [|done]. intros _. by left. }
  destruct (zat_is_Ok recs a) as [ra Hra]; [unfold entry in Ha; lia|].
  destruct (zat_is_Ok recs b) as [rb Hrb]; [unfold entry in Hb; lia|].
  rewrite Hra, Hrb. simpl. eexists. split; [done|].
  destruct (Z.leb_spec (cmp_ ra rb) 0) as [Hle|Hgt].
  - split; [|done]. intros _. right. split; [done|]. by exists ra, rb.
  - split; [done|]. intros _. right. split; [done|]. exists rb, ra.
    split_and!; [done..|]. destruct (cmp_total ra rb); [lia|done].
Qed.

(** The loser tree over [L] leaves: [w] gives the winner of every
    node, [hp] holds the loser of every internal node and the overall
    winner in slot 0; leaf [L + j] carries run [j] while it is active. *)
Definition node_ok (recs : list record) (hp : list Z) (w : Z → Z) (i : Z) : Prop :=
  ∃ loser, zat hp i = Ok loser ∧
    ((w i = w (2 * i)%Z ∧ loser = w (2 * i + 1)%Z) ∨
     (w i = w (2 * i + 1)%Z ∧ loser = w (2 * i)%Z)) ∧
    beats recs (w i) loser.

Definition leaf_ok (act : Z → bool) (L : Z) (w : Z → Z) (j : Z) : Prop :=
  w (L + j)%Z = if act j then j else (-1)%Z.

Definition loser_tree (recs : list record) (act : Z → bool) (L : Z)
    (hp : list Z) (w : Z → Z) : Prop :=
  (∀ j, (0 ≤ j < L)%Z → leaf_ok act L w j) ∧
  (∀ i, (1 ≤ i < L)%Z → node_ok recs hp w i) ∧
  zat hp 0 = Ok (w 1%Z).

Section tree_facts.
Context (recs : list record) (act : Z → bool) (L : Z) (hp : list Z) (w : Z → Z).
Hypothesis Htree : loser_tree recs act L hp w.
Hypothesis Hact : ∀ j, act j = true → (0 ≤ j < L)%Z ∧ ∃ r, zat recs j = Ok r.
Hypothesis HL : (1 ≤ L)%Z.

(** A winner is a dummy or an active run below its node. *)
Lemma winner_below i :
  (1 ≤ i < 2 * L)%Z → w i = (-1)%Z ∨ (act (w i) = true ∧ anc i (L + w i)).
Proof using All.
  destruct Htree as (Hleaf & Hnode & _).
  revert i. apply tree_ind.
  - intros i Hi. specialize (Hleaf (i - L)%Z ltac:(lia)). unfold leaf_ok in Hleaf.
    replace (L + (i - L))%Z with i in Hleaf by lia. rewrite Hleaf.
    destruct (act (i - L)) eqn:Ha; [right|by left]. split; [done|].
    replace (L + (i - L))%Z with i by lia. apply anc_here.
  - intros i Hi IH0 IH1. destruct (Hnode i Hi) as (loser & _ & [[-> _]|[-> _]] & _).
    + destruct IH0 as [?|[? ?]]; [by left|right]. split; [done|].
      eapply anc_child; [|left; reflexivity|done]. lia.
    + destruct IH1 as [?|[? ?]]; [by left|right]. split; [done|].
      eapply anc_child; [|right; reflexivity|done]. lia.
Qed.

(** The winner of a node is active and not greater than any active run
    below the node. *)
Lemma winner_least i j :
  (1 ≤ i < 2 * L)%Z → act j = true → anc i (L + j) →
  w i ≠ (-1)%Z ∧
  ∃ ra rb, zat recs (w i) = Ok ra ∧ zat recs j = Ok rb ∧ (cmp_ ra rb ≤ 0)%Z.
Proof using All.
  destruct Htree as (Hleaf & Hnode & _).
  intros Hi Hj. revert i Hi. apply (tree_ind L (λ i, anc i (L + j) → _)).
  - intros i Hi Hanc. destruct (Hact j Hj) as [Hjl [r Hr]].
    assert (i = L + j)%Z as ->.
    { destruct (Z.eq_dec i (L + j)) as [|Hne]; [done|].
      apply anc_proper_parent in Hanc; [|lia|done].
      apply anc_le in Hanc; [|lia]. pose proof (half_cases (L + j)). lia. }
    pose proof (Hleaf j Hjl) as Hw. unfold leaf_ok in Hw. rewrite Hj in Hw.
    rewrite Hw. split; [lia|]. exists r, r. split_and!; [done..|].
    destruct (cmp_total r r); done.
  - intros i Hi IH0 IH1 Hanc. destruct (Hact j Hj) as [Hjl _].
    destruct (Hnode i Hi) as (loser & _ & Hsel & Hbeats).
    destruct (anc_children _ _ Hanc ltac:(lia)) as [Hc|Hc].
    + destruct (IH0 Hc) as (Hne & ra & rb & Hra & Hrb & Hle).
      destruct Hsel as [[-> _]|[Hw ->]]; [by eauto|].
      destruct Hbeats as [?|(Hwn & ra' & rb' & Hra' & Hrb' & Hle')]; [done|].
      split; [done|]. exists ra', rb. split_and!; [done..|].
      rewrite Hra in Hrb'. injection Hrb' as <-. by eapply cmp_trans.
    + destruct (IH1 Hc) as (Hne & ra & rb & Hra & Hrb & Hle).
      destruct Hsel as [[Hw ->]|[-> _]]; [|by eauto].
      destruct Hbeats as [?|(Hwn & ra' & rb' & Hra' & Hrb' & Hle')]; [done|].
      split; [done|]. exists ra', rb. split_and!; [done..|].
      rewrite Hra in Hrb'. injection Hrb' as <-. by eapply cmp_trans.
Qed.

(** The overall winner won at every node from its leaf to the root,
    and each of those nodes holds the winner of its other child. *)
Lemma winner_path a :
  w 1%Z ≠ (-1)%Z → (1 ≤ a)%Z → anc a (L + w 1%Z) → w a = w 1%Z.
Proof using All.
  intros Hf Ha. remember (Z.to_nat a) as n eqn:Hn. revert a Ha Hn.
  induction (lt_wf n) as [n _ IH]. intros a Ha -> Hanc.
  destruct (Z.eq_dec a 1) as [->|Hne]; [done|].
  assert (act (w 1%Z) = true) as Hactf.
  { destruct (winner_below 1) as [?|[? _]]; [lia|done..]. }
  destruct (Hact _ Hactf) as [Hfl _].
  pose proof (anc_le _ _ Ha Hanc) as Hale.
  pose proof (half_lt a Ha) as Hlt. pose proof (half_cases a) as Hcases.
  assert (w (a / 2)%Z = w 1%Z) as Hpar.
  { eapply IH; [|lia|reflexivity|apply anc_parent; [lia|done]]. lia. }
  destruct Htree as (_ & Hnode & _).
  destruct (Hnode (a / 2)%Z ltac:(lia)) as (loser & _ & Hsel & _).
  assert (∀ c, (c = 2 * (a / 2) ∨ c = 2 * (a / 2) + 1)%Z →
               w c = w 1%Z → anc c (L + w 1%Z)) as Hbelow.
  { intros c Hc Hwc. destruct (winner_below c) as [?|[_ Hanc']]; [lia|congruence|].
    by rewrite Hwc in Hanc'. }
  destruct Hcases as [Ha0|Ha1], Hsel as [[Hw _]|[Hw _]];
    rewrite Hpar in Hw; try (by rewrite Hw, <- ?Ha0, <- ?Ha1).
  - exfalso. apply (anc_not_both (a / 2) (L + w 1%Z)); [lia| |].
    + by rewrite <- Ha0.
    + apply Hbelow; [by right|done].
  - exfalso. apply (anc_not_both (a / 2) (L + w 1%Z)); [lia| |].
    + apply Hbelow; [by left|done].
    + by rewrite <- Ha1.
Qed.

End tree_facts.

(** *** Replaying the matches after a read *)

Section replay.
Context (recs : list record) (act : Z → bool) (L : Z) (hp : list Z) (w : Z → Z).
Context (recs' : list record) (act' : Z → bool).
Hypothesis Htree : loser_tree recs act L hp w.
Hypothesis Hact : ∀ j, act j = true → (0 ≤ j < L)%Z ∧ ∃ r, zat recs j = Ok r.
Hypothesis HL : (1 ≤ L)%Z.
Hypothesis Hhp : Z.of_nat (length hp) = (2 * L)%Z.
Hypothesis Hf : w 1%Z ≠ (-1)%Z.
Hypothesis Hrecs : length recs' = length recs.
Hypothesis Hother : ∀ j, j ≠ w 1%Z → zat recs' j = zat recs j ∧ act' j = act j.
Hypothesis Hact' : act' (w 1%Z) = true → act (w 1%Z) = true.

Local Abbreviation f := (w 1%Z).
Local Abbreviation p := (L + w 1%Z)%Z.

(** The state of the loop of [adjust] when it is at node [c]. *)
Definition replay_inv (c : Z) (hpc : list Z) (win : Z) : Prop :=
  anc c p ∧ (1 ≤ c)%Z ∧ length hpc = length hp ∧
  entry (Z.of_nat (length recs')) win ∧
  (∀ a, (1 ≤ a < c)%Z → anc a c → zat hpc a = zat hp a) ∧
  ∃ w', w' c = win ∧
    (∀ i, (1 ≤ i < 2 * L)%Z → ¬ anc i p → w' i = w i) ∧
    (∀ j, (0 ≤ j < L)%Z → leaf_ok act' L w' j) ∧
    (∀ i, (1 ≤ i < L)%Z → ¬ (anc i c ∧ i ≠ c) → node_ok recs' hpc w' i).

Lemma winner_active : act f = true ∧ (0 ≤ f < L)%Z.
Proof using All.
  destruct (winner_below recs act L hp w Htree Hact HL 1) as [?|[Ha _]]; [lia|done|].
  split; [done|]. by apply Hact.
Qed.

Lemma winner_entry i :
  (1 ≤ i < 2 * L)%Z → entry (Z.of_nat (length recs')) (w i).
Proof using All.
  intros Hi. destruct (winner_below recs act L hp w Htree Hact HL i Hi) as [?|[Ha _]];
    [by left|right].
  destruct (Hact _ Ha) as [_ [r Hr]]. apply zat_lt in Hr. lia.
Qed.

Lemma off_path_beats i a b :
  (1 ≤ i < 2 * L)%Z → ¬ anc i p →
  (a = w i ∨ a = w (2 * i)%Z ∨ a = w (2 * i + 1)%Z) →
  (b = w i ∨ b = w (2 * i)%Z ∨ b = w (2 * i + 1)%Z) →
  (1 ≤ i < L)%Z → beats recs a b → beats recs' a b.
Proof using All.
  intros Hi Hoff Ha Hb Hil Hbeats.
  assert (∀ c, (c = i ∨ c = 2 * i ∨ c = 2 * i + 1)%Z → w c ≠ (-1)%Z → w c ≠ f)
    as Hnotf.
  { intros c Hc Hne Heq.
    destruct (winner_below recs act L hp w Htree Hact HL c) as [?|[_ Hanc]]; [lia|done|].
    rewrite Heq in Hanc. apply Hoff.
    destruct Hc as [->|Hc]; [done|]. eapply anc_child; [|exact Hc|done]. lia. }
  destruct Hbeats as [->|(Hane & ra & rb & Hra & Hrb & Hle)]; [by left|].
  destruct (Z.eq_dec b (-1)) as [->|Hbne]; [by left|].
  right. split; [done|]. exists ra, rb. split_and!; [| |done].
  - rewrite <- Hra. apply Hother.
    destruct Ha as [-> | [-> | ->]]; apply Hnotf; auto.
  - rewrite <- Hrb. apply Hother.
    destruct Hb as [-> | [-> | ->]]; apply Hnotf; auto.
Qed.

(** The loop starts at the leaf of the run just read from. *)
Lemma replay_inv_start hpc :
  length hpc = length hp →
  (∀ a, (0 ≤ a)%Z → a ≠ p → zat hpc a = zat hp a) →
  replay_inv p hpc (if act' f then f else (-1)%Z).
Proof using All.
  intros Hlen Hsame. destruct winner_active as [Hactf Hfl].
  destruct Htree as (Hleaf & Hnode & _).
  split_and!; [apply anc_here|lia|done| |intros; apply Hsame; lia|].
  { destruct (act' f); [right|by left].
    destruct (Hact _ Hactf) as [_ [r Hr]]. apply zat_lt in Hr. lia. }
  exists (λ i, if decide (i = p) then (if act' f then f else (-1)%Z) else w i).
  split_and!.
  - by rewrite decide_True.
  - intros i Hi Hoff. rewrite decide_False; [done|]. intros ->. apply Hoff, anc_here.
  - intros j Hj. unfold leaf_ok. case_decide as Hd.
    + by replace j with f by lia.
    + rewrite (Hleaf j Hj). by rewrite (proj2 (Hother j ltac:(lia))).
  - intros i Hi Hoff.
    assert (¬ anc i p) as Hoff'.
    { intros Hanc. apply Hoff. split; [done|]. lia. }
    destruct (Hnode i Hi) as (loser & Hl & Hsel & Hbeats).
    assert (∀ c, (c = 2 * i ∨ c = 2 * i + 1)%Z → c ≠ p) as Hchild.
    { intros c Hc ->. apply Hoff'. eapply anc_child; [|exact Hc|apply anc_here]. lia. }
    exists loser. rewrite !decide_False by first [lia | apply Hchild; lia].
    split_and!; [by rewrite Hsame by lia|done|].
    eapply off_path_beats; [| |by left| |done..]; [lia|done|].
    destruct Hsel as [[_ ->]|[_ ->]]; auto.
Qed.

(** One round: from node [c] to its parent. *)
Lemma replay_inv_step c hpc win :
  replay_inv c hpc win → c ≠ 1%Z →
  ∃ hpc' win',
    adjust_step record cmp_ recs' hpc c win = Ok (hpc', win') ∧
    replay_inv (c / 2)%Z hpc' win'.
Proof using All.
  intros (Hanc & Hc1 & Hlen & Hwin & Hunt & w' & Hw'c & Hoff & Hleaf' & Hnode') Hne.
  destruct winner_active as [Hactf Hfl].
  pose proof (anc_le _ _ Hc1 Hanc) as Hcp.
  pose proof (half_lt c Hc1) as Hlt. pose proof (half_cases c) as Hcases.
  set (par := (c / 2)%Z) in *.
  assert (1 ≤ par < L)%Z as Hpar by lia.
  assert (anc par p) as Hparp by (apply anc_parent; [lia|done]).
  assert (anc par c) as Hparc by (apply anc_half; lia).
  set (sib := (if decide (c = 2 * par) then 2 * par + 1 else 2 * par)%Z).
  assert (sib = 2 * par ∨ sib = 2 * par + 1)%Z as Hsib.
  { unfold sib. case_decide; lia. }
  assert (sib ≠ c) as Hsibc by (unfold sib; case_decide; lia).
  assert (¬ anc sib p) as Hsiboff.
  { intros Hs. apply (anc_not_both par p); [lia|..]; unfold sib in Hs;
      case_decide; destruct Hcases; try lia; congruence. }
  destruct Htree as (_ & Hnode & _).
  destruct (Hnode par Hpar) as (loser & Hl & Hsel & _).
  assert (loser = w sib) as ->.
  { pose proof (winner_path recs act L hp w Htree Hact HL par Hf ltac:(lia) Hparp)
      as Hwpar.
    assert (∀ c', (c' = 2 * par ∨ c' = 2 * par + 1)%Z → w c' = f → anc c' p) as Hb.
    { intros c' Hc' Hwc.
      destruct (winner_below recs act L hp w Htree Hact HL c') as [?|[_ Ha]]; [lia|congruence|].
      by rewrite Hwc in Ha. }
    unfold sib in *. rewrite Hwpar in Hsel. case_decide as Hd.
    - destruct Hsel as [[_ ->]|[Hw _]]; [done|]. destruct Hsiboff. by apply Hb; auto.
    - destruct Hsel as [[Hw _]|[_ ->]]; [|done]. destruct Hsiboff. by apply Hb; auto. }
  assert (w' sib = w sib) as Hw'sib by (apply Hoff; [lia|done]).
  assert (zat hpc par = Ok (w sib)) as Hzat by (rewrite Hunt; [done|lia|done]).
  destruct (wins_spec recs' win (w sib) Hwin) as (t & Hwins & Ht & Hnt).
  { apply winner_entry. lia. }
  unfold adjust_step. rewrite shiftr_1_half. fold par. rewrite Hzat. simpl.
  rewrite Hwins. simpl.
  assert (0 ≤ par < Z.of_nat (length hpc))%Z as Hparlen by lia.
  set (win' := if t then win else w sib).
  set (hpc' := if t then hpc else <[Z.to_nat par := win]> hpc).
  set (w'' := λ i, if decide (i = par) then win' else w' i).
  assert (∀ a, (0 ≤ a)%Z → a ≠ par → zat hpc' a = zat hpc a) as Hhpc'.
  { intros a Ha Hapar. unfold hpc'. destruct t; [done|].
    rewrite zat_insert by lia. by rewrite decide_False. }
  exists hpc', win'. split.
  { unfold hpc', win'. destruct t; [done|]. by rewrite zset_Ok. }
  split_and!; [done|lia| | | |].
  - unfold hpc'. destruct t; [done|]. by rewrite length_insert.
  - unfold win'. destruct t; [done|]. apply winner_entry. lia.
  - intros a Ha Haanc. rewrite Hhpc' by lia. apply Hunt; [lia|].
    by apply anc_up; [lia|].
  - exists w''. split_and!.
    + unfold w''. by rewrite decide_True.
    + intros i Hi Hioff. unfold w''. rewrite decide_False; [by apply Hoff|].
      by intros ->.
    + intros j Hj. unfold leaf_ok, w''. rewrite decide_False by lia. apply Hleaf'; lia.
    + intros i Hi Hnotabove. destruct (Z.eq_dec i par) as [->|Hipar].
      * exists (if t then w sib else win). split_and!.
        -- unfold hpc'. destruct t; [done|]. rewrite zat_insert by lia.
           by rewrite decide_True.
        -- unfold w''. rewrite decide_True by done.
           rewrite !decide_False by lia. unfold win'. rewrite <- Hw'sib, <- Hw'c.
           unfold sib in *. destruct t; case_decide; destruct Hcases as [Hc|Hc];
             try lia; rewrite <- ?Hc; auto.
        -- unfold w''. rewrite decide_True by done. unfold win'.
           destruct t; auto.
      * assert (¬ (anc i c ∧ i ≠ c)) as Hnotc.
        { intros [Hic Hicne]. apply Hnotabove. split; [|done].
          apply anc_proper_parent; [lia|done..]. }
        destruct (Hnode' i Hi Hnotc) as (loser & Hlo & Hsel' & Hb').
        assert (∀ c', (c' = 2 * i ∨ c' = 2 * i + 1)%Z → c' ≠ par) as Hch.
        { intros c' Hc' ->. apply Hnotabove. split; [|done].
          replace i with (par / 2)%Z; [apply anc_half; lia|].
          destruct Hc' as [->| ->]; [apply half_even|apply half_odd]. }
        exists loser. unfold w''. rewrite !decide_False by first [lia | apply Hch; lia].
        split_and!; [|done..]. by rewrite Hhpc' by lia.
Qed.

Lemma adjust_loop_spec fuel c hpc win :
  replay_inv c hpc win → Z.to_nat c ≤ fuel →
  ∃ hp' win',
    adjust_loop record cmp_ fuel recs' hpc c win = Ok (hp', win') ∧
    replay_inv 1 hp' win'.
Proof using All.
  revert c hpc win. induction fuel as [|fuel IH]; intros c hpc win Hinv Hfuel.
  - destruct Hinv as (_ & Hc & _). lia.
  - simpl. destruct (Z.eqb_spec c 1) as [->|Hne]; [by eauto|].
    destruct (replay_inv_step c hpc win Hinv Hne) as (hpc' & win' & -> & Hinv').
    simpl. rewrite shiftr_1_half. apply IH; [done|].
    destruct Hinv as (_ & Hc & _). pose proof (half_lt c Hc). lia.
Qed.

(** After the loop and the store to slot 0 the tree is whole again. *)
Lemma replay_inv_end hp' win :
  replay_inv 1 hp' win →
  ∃ w', loser_tree recs' act' L (<[0 := win]> hp') w' ∧
        zset hp' 0 win = Ok (<[0 := win]> hp') ∧ length hp' = length hp.
Proof using All.
  intros (_ & _ & Hlen & _ & _ & w' & Hw1 & _ & Hleaf' & Hnode').
  exists w'. unfold loser_tree.
  split_and!; [done| | |by apply (zset_Ok hp' 0); lia|done].
  - intros i Hi. destruct (Hnode' i Hi) as (loser & Hl & Hsel & Hb).
    { intros [Hanc Hne]. by inversion Hanc; subst; lia. }
    exists loser. split_and!; [|done..].
    rewrite (zat_insert hp' 0 i) by lia. by rewrite decide_False by lia.
  - rewrite (zat_insert hp' 0 0) by lia. by rewrite decide_True, Hw1.
Qed.

End replay.

(** *** Building the tree in [beginRead] *)

Lemma fill_spec n (v : list Z) (base from : Z) (g : Z → Z) :
  (0 ≤ base + from)%Z → (base + from + Z.of_nat n ≤ Z.of_nat (length v))%Z →
  ∃ v', fill n v base from g = Ok v' ∧ length v' = length v ∧
    ∀ idx, (0 ≤ idx)%Z →
      zat v' idx =
        if decide (base + from ≤ idx < base + from + Z.of_nat n)%Z
        then Ok (g (idx - base)%Z) else zat v idx.
Proof.
  revert v from. induction n as [|n IH]; intros v from Hlo Hhi; simpl.
  - exists v. split_and!; [done..|]. intros idx Hidx. rewrite decide_False by lia. done.
  - rewrite zset_Ok by lia. simpl.
    destruct (IH (<[Z.to_nat (base + from) := g from]> v) (from + 1)%Z)
      as (v' & -> & Hlen & Hv'); [lia|rewrite length_insert; lia|].
    exists v'. split_and!; [done|by rewrite Hlen, length_insert|].
    intros idx Hidx. rewrite Hv' by done.
    destruct (decide (base + (from + 1) ≤ idx < base + (from + 1) + Z.of_nat n)%Z).
    + rewrite decide_True by lia. done.
    + rewrite zat_insert by lia. destruct (decide (idx = base + from)%Z) as [->|].
      * rewrite decide_True by lia. do 2 f_equal. lia.
      * rewrite decide_False by lia. done.
Qed.

(** The winner recorded at a node. *)
Definition winner_of (winners : list Z) (i : Z) : Z :=
  match zat winners i with
  | Ok x => x
  | Err _ => (-1)%Z
  end.

(** The state of the bottom-up loop when the nodes above [n] are done. *)
Definition built (recs : list record) (k L : Z) (winners hp : list Z) (n : Z) : Prop :=
  Z.of_nat (length winners) = (2 * L)%Z ∧ Z.of_nat (length hp) = (2 * L)%Z ∧
  (∀ i, (n < i < 2 * L)%Z → entry k (winner_of winners i)) ∧
  (∀ j, (0 ≤ j < L)%Z → winner_of winners (L + j) = if (j <? k)%Z then j else (-1)%Z) ∧
  (∀ i, (n < i < L)%Z → node_ok recs hp (winner_of winners) i).

Lemma winner_of_insert winners i j x :
  (0 ≤ i < Z.of_nat (length winners))%Z → (0 ≤ j)%Z →
  winner_of (<[Z.to_nat i := x]> winners) j =
  if decide (j = i) then x else winner_of winners j.
Proof.
  intros Hi Hj. unfold winner_of. rewrite zat_insert by done. by case_decide.
Qed.

Lemma zat_winner_of winners i :
  (0 ≤ i < Z.of_nat (length winners))%Z → zat winners i = Ok (winner_of winners i).
Proof.
  intros Hi. unfold winner_of. by destruct (zat_is_Ok winners i Hi) as [x ->].
Qed.

Lemma build_step_spec recs k L winners hp n :
  Z.of_nat (length recs) = k → (1 ≤ n < L)%Z →
  built recs k L winners hp n →
  ∃ winners' hp',
    build_step record cmp_ recs winners hp n = Ok (winners', hp') ∧
    built recs k L winners' hp' (n - 1).
Proof.
  intros Hk Hn (Hlw & Hlh & Hentry & Hleaf & Hnode).
  unfold build_step. rewrite lxor_shiftl_1, shiftl_1_double by lia.
  rewrite !zat_winner_of by lia. simpl.
  set (wl := winner_of winners (2 * n)). set (wr := winner_of winners (2 * n + 1)).
  destruct (wins_spec recs wl wr) as (t & -> & Ht & Hnt).
  { rewrite Hk. apply Hentry. lia. }
  { rewrite Hk. apply Hentry. lia. }
  simpl. set (win := if t then wl else wr). set (lose := if t then wr else wl).
  exists (<[Z.to_nat n := win]> winners), (<[Z.to_nat n := lose]> hp). split.
  { unfold win, lose. destruct t; rewrite !zset_Ok by lia; done. }
  split_and!; rewrite ?length_insert; [done..| | |].
  - intros i Hi. rewrite winner_of_insert by lia. case_decide; [|apply Hentry; lia].
    unfold win. destruct t; apply Hentry; lia.
  - intros j Hj. rewrite winner_of_insert by lia. rewrite decide_False by lia.
    by apply Hleaf.
  - intros i Hi. destruct (Z.eq_dec i n) as [->|Hne].
    + exists lose. rewrite !winner_of_insert by lia.
      rewrite decide_True by done. rewrite !decide_False by lia.
      split_and!.
      * rewrite zat_insert by lia. by rewrite decide_True.
      * unfold win, lose. destruct t; auto.
      * assert (beats recs win lose) as Hb by (unfold win, lose; destruct t; auto).
        destruct Hb as [?|(Hne & ra & rb & Hra & Hrb & Hle)]; [by left|right].
        split; [done|]. by exists ra, rb.
    + destruct (Hnode i ltac:(lia)) as (loser & Hl & Hsel & Hb).
      exists loser. rewrite !winner_of_insert by lia. rewrite !decide_False by lia.
      split_and!; [|done..]. rewrite zat_insert by lia. by rewrite decide_False.
Qed.

Lemma build_spec recs k L winners hp n :
  Z.of_nat (length recs) = k → (Z.of_nat n < L)%Z →
  built recs k L winners hp (Z.of_nat n) →
  ∃ winners' hp',
    build record cmp_ n recs winners hp = Ok (winners', hp') ∧
    built recs k L winners' hp' 0.
Proof.
  intros Hk. revert winners hp. induction n as [|n IH]; intros winners hp Hn Hb.
  - simpl. by eauto.
  - cbn [build].
    destruct (build_step_spec recs k L winners hp (Z.of_nat (S n)))
      as (w1 & h1 & -> & Hb1); [done|lia|done|].
    simpl. apply IH; [lia|]. by replace (Z.of_nat n) with (Z.of_nat (S n) - 1)%Z by lia.
Qed.

(** *** The read phase *)

(** The records of a run not yet returned: its current record and what
    its stream has not read, nothing once the stream hit end of file. *)
Definition run_rest (file : ifstream record) (rec : record) : list record :=
  if eofbit file then [] else rec :: unread file.

Definition remaining (s : ExternalMergeSorter record) : list record :=
  mjoin (zip_with run_rest (opened_files s) (record_list s)).

(** Run [j] is active: its stream is open and has not hit end of file. *)
Definition act_of (opened : list (ifstream record)) (j : Z) : bool :=
  match zat opened j with
  | Ok file => negb (eofbit file)
  | Err _ => false
  end.

(** The sorter between two reads. *)
Definition reading (s : ExternalMergeSorter record) : Prop :=
  let k := Z.of_nat (length (filenames_ s)) in
  let L := (2 ^ Z.log2_up k)%Z in
  (1 ≤ k)%Z ∧
  length (opened_files s) = length (filenames_ s) ∧
  length (record_list s) = length (filenames_ s) ∧
  Z.of_nat (length (heap s)) = (2 * L)%Z ∧
  Forall2 (λ file rec, StronglySorted (cmp_le record cmp_) (run_rest file rec))
    (opened_files s) (record_list s) ∧
  ∃ w, loser_tree (record_list s) (act_of (opened_files s)) L (heap s) w.

Lemma elem_of_remaining s y :
  y ∈ remaining s →
  ∃ (j : nat) file rec,
    opened_files s !! j = Some file ∧ record_list s !! j = Some rec ∧
    eofbit file = false ∧ y ∈ rec :: unread file.
Proof.
  unfold remaining. rewrite list_elem_of_join. intros (run & Hy & Hrun).
  apply list_elem_of_lookup in Hrun as [j Hj].
  apply lookup_zip_with_Some in Hj as (file & rec & -> & Hfile & Hrec).
  exists j, file, rec. unfold run_rest in Hy.
  destruct (eofbit file); [by apply elem_of_nil in Hy|done].
Qed.

Lemma join_insert_Permutation (runs : list (list record)) i x rest :
  runs !! i = Some (x :: rest) → mjoin runs ≡ₚ x :: mjoin (<[i := rest]> runs).
Proof.
  revert i. induction runs as [|run runs IH]; intros [|i]; simpl; try done.
  - by intros [= ->].
  - intros Hi. rewrite (IH i Hi). by rewrite Permutation_middle.
Qed.

Lemma act_of_Some opened j :
  act_of opened j = true ↔
  ∃ file, zat opened j = Ok file ∧ eofbit file = false.
Proof.
  unfold act_of. destruct (zat opened j) as [file|]; [|naive_solver].
  destruct (eofbit file) eqn:He; naive_solver.
Qed.

Lemma reading_act s :
  reading s →
  let L := (2 ^ Z.log2_up (Z.of_nat (length (filenames_ s))))%Z in
  (1 ≤ L)%Z ∧
  ∀ j, act_of (opened_files s) j = true →
       (0 ≤ j < L)%Z ∧ ∃ r, zat (record_list s) j = Ok r.
Proof.
  intros (Hk & Hlo & Hlr & Hlh & Hsorted & w & Htree). simpl.
  destruct (ceil_log2_pos _ Hk) as (_ & Hh & HkL). split; [lia|].
  intros j (file & Hfile & _)%act_of_Some. apply zat_lt in Hfile.
  split; [lia|]. apply zat_is_Ok. lia.
Qed.

(** A read returns a least remaining record and keeps the invariant. *)
Lemma read_spec s :
  reading s → remaining s ≠ [] →
  ∃ x s',
    read record cmp_ s = Ok (x, s') ∧ reading s' ∧
    remaining s ≡ₚ x :: remaining s' ∧
    Forall (cmp_le record cmp_ x) (remaining s).
Proof.
  intros Hreading Hrem. destruct (reading_act s Hreading) as [HL Hact].
  destruct Hreading as (Hk & Hlo & Hlr & Hlh & Hsorted & w & Htree).
  set (k := Z.of_nat (length (filenames_ s))) in *.
  set (L := (2 ^ Z.log2_up k)%Z) in *.
  destruct (ceil_log2_pos _ Hk) as (Hceil & Hh & HkL). fold k in Hceil, HkL.
  assert (∀ y, y ∈ remaining s →
            ∃ j file rec, act_of (opened_files s) j = true ∧ (0 ≤ j)%Z ∧
              zat (opened_files s) j = Ok file ∧ zat (record_list s) j = Ok rec ∧
              eofbit file = false ∧ y ∈ rec :: unread file) as Hrun.
  { intros y (j & file & rec & Hfile & Hrec & Heof & Hy)%elem_of_remaining.
    exists (Z.of_nat j), file, rec.
    assert (zat (opened_files s) (Z.of_nat j) = Ok file) as Hz.
    { apply zat_Ok. rewrite Nat2Z.id. split; [lia|done]. }
    split_and!; [|lia|done| |done..].
    - apply act_of_Some. eauto.
    - apply zat_Ok. rewrite Nat2Z.id. split; [lia|done]. }
  (* the winner *)
  destruct (remaining s) as [|y0 rem0] eqn:Hrem0; [done|].
  destruct (Hrun y0 ltac:(left)) as (j0 & _ & _ & Hact0 & Hj0 & _).
  destruct (winner_least _ _ _ _ _ Htree Hact HL 1 j0) as (Hf & _);
    [lia|done|apply anc_root; lia|].
  assert (act_of (opened_files s) (w 1%Z) = true ∧ (0 ≤ w 1 < L)%Z) as [Hactf Hfl].
  { destruct (winner_below _ _ _ _ _ Htree Hact HL 1) as [?|[Ha _]]; [lia|done|].
    split; [done|]. by apply Hact. }
  set (f := w 1%Z) in *.
  apply act_of_Some in Hactf as (file & Hfile & Heof).
  destruct (zat_is_Ok (record_list s) f) as [x Hx].
  { apply zat_lt in Hfile. lia. }
  assert (Forall (cmp_le record cmp_ x) (y0 :: rem0)) as Hleast.
  { apply Forall_forall. intros y Hy.
    destruct (Hrun y Hy) as (j & filej & recj & Hactj & Hj & Hfilej & Hrecj & Heofj & Hyj).
    destruct (winner_least _ _ _ _ _ Htree Hact HL 1 j) as (_ & ra & rb & Hra & Hrb & Hle);
      [lia|done|apply anc_root; lia|].
    fold f in Hra. rewrite Hx in Hra. injection Hra as <-.
    rewrite Hrecj in Hrb. injection Hrb as <-.
    apply elem_of_cons in Hyj as [->|Hyj]; [done|].
    unfold cmp_le. eapply cmp_trans; [exact Hle|].
    assert (StronglySorted (cmp_le record cmp_) (recj :: unread filej)) as Hss.
    { apply zat_Ok in Hfilej as [_ Hfilej]. apply zat_Ok in Hrecj as [_ Hrecj].
      pose proof (Forall2_lookup_lr _ _ _ _ _ _ Hsorted Hfilej Hrecj) as Hs.
      unfold run_rest in Hs. by rewrite Heofj in Hs. }
    apply StronglySorted_inv in Hss as [_ Hall].
    rewrite Forall_forall in Hall. by apply Hall. }
  (* the code *)
  destruct Htree as (Hleaf & Hnode & Hroot). fold f in Hroot.
  assert (loser_tree (record_list s) (act_of (opened_files s)) L (heap s) w)
    as Htree by done.
  unfold read, adjust. rewrite Hroot. simpl. rewrite Hx. simpl.
  rewrite ?Hroot. simpl. rewrite Hfile, ?Hx. simpl.
  pose proof (zat_lt _ _ _ Hfile) as Hfk. rewrite Hlo in Hfk.
  destruct (ifstream_read record file x) as [file' buf'] eqn:Hread.
  assert (run_rest file x = x :: run_rest file' buf') as Hrest.
  { unfold ifstream_read in Hread. rewrite Heof in Hread.
    unfold run_rest. rewrite Heof.
    by destruct (unread file); injection Hread as <- <-. }
  fold k. rewrite Hceil. simpl. rewrite shiftl_1_pow by done. fold L.
  set (opened' := <[Z.to_nat f := file']> (opened_files s)).
  set (recs' := <[Z.to_nat f := buf']> (record_list s)).
  set (v0 := if act_of opened' f then f else (-1)%Z).
  assert (act_of opened' f = negb (eofbit file')) as Hactf'.
  { unfold act_of, opened'. rewrite zat_insert by lia. by rewrite decide_True. }
  assert (∃ hpc0 dsk,
    (if eofbit file'
     then
       let* hp := zset (heap s) (f + L)%Z (-1)%Z in
       let* filename := zat (filenames_ s) f in
       Ok (hp, (-1)%Z, <[filename := None]> (disk s))
     else Ok (heap s, f, disk s)) = Ok (hpc0, v0, dsk) ∧
    length hpc0 = length (heap s) ∧
    (∀ a, (0 ≤ a)%Z → a ≠ (L + f)%Z → zat hpc0 a = zat (heap s) a))
    as (hpc0 & dsk & -> & Hlen0 & Hsame0).
  { unfold v0. rewrite Hactf'. destruct (eofbit file'); simpl.
    - rewrite zset_Ok by lia. simpl.
      destruct (zat_is_Ok (filenames_ s) f) as [filename ->]; [lia|]. simpl.
      eexists _, _. split; [done|]. split; [by rewrite length_insert|].
      intros a Ha Hne. rewrite zat_insert by lia. by rewrite decide_False by lia.
    - eexists _, _. by split. }
  simpl.
  assert (∀ j, j ≠ f → zat recs' j = zat (record_list s) j ∧
                       act_of opened' j = act_of (opened_files s) j) as Hother.
  { intros j Hj. unfold recs', opened', act_of, zat.
    destruct (Z.ltb_spec j 0); [done|]. unfold at_.
    rewrite !list_lookup_insert_ne by lia. done. }
  assert (length recs' = length (record_list s)) as Hrecs'
    by (unfold recs'; by rewrite length_insert).
  assert (act_of opened' f = true → act_of (opened_files s) f = true) as Hact'.
  { intros _. apply act_of_Some. eauto. }
  pose proof (replay_inv_start (record_list s) (act_of (opened_files s)) L (heap s) w
                recs' (act_of opened') Htree Hact HL Hlh Hf Hrecs' Hother Hact'
                hpc0 Hlen0 Hsame0) as Hstart.
  fold f v0 in Hstart.
  destruct (adjust_loop_spec (record_list s) (act_of (opened_files s)) L (heap s) w
              recs' (act_of opened') Htree Hact HL Hlh Hf Hrecs' Hother Hact'
              (Z.to_nat (L + f)) (L + f)%Z hpc0 v0 Hstart ltac:(lia))
    as (hp' & win' & Hloop & Hend).
  rewrite (Z.add_comm f L). rewrite Hloop. simpl.
  destruct (replay_inv_end (record_list s) (act_of (opened_files s)) L (heap s) w
              recs' (act_of opened') Htree Hact HL Hlh Hf Hrecs' Hother Hact'
              _ _ Hend) as (w' & Htree' & -> & Hlen').
  simpl. eexists _, _. split; [done|]. split_and!.
  - unfold reading. simpl. fold k L. split_and!.
    + done.
    + unfold opened'. by rewrite length_insert.
    + lia.
    + rewrite length_insert. lia.
    + apply Forall2_insert; [done|].
      apply zat_Ok in Hfile as [_ Hfile]. apply zat_Ok in Hx as [_ Hx].
      pose proof (Forall2_lookup_lr _ _ _ _ _ _ Hsorted Hfile Hx) as Hs.
      simpl in Hs. rewrite Hrest in Hs. by apply StronglySorted_inv in Hs as [? _].
    + by exists w'.
  - unfold remaining. simpl. unfold opened', recs'.
    rewrite <- insert_zip_with. rewrite <- Hrem0. unfold remaining.
    apply join_insert_Permutation.
    apply zat_Ok in Hfile as [_ Hfile]. apply zat_Ok in Hx as [_ Hx].
    rewrite lookup_zip_with, Hfile. simpl. rewrite Hx. simpl. by rewrite Hrest.
  - done.
Qed.

Lemma read_n_spec n s :
  reading s → n ≤ length (remaining s) →
  ∃ out s',
    read_n record cmp_ n s = Ok (out, s') ∧ reading s' ∧
    remaining s ≡ₚ out ++ remaining s' ∧
    Sorted (cmp_le record cmp_) out ∧ length out = n.
Proof.
  revert s. induction n as [|n IH]; intros s Hreading Hn; simpl.
  - exists [], s. split_and!; [done..|constructor|done].
  - destruct (read_spec s Hreading) as (x & s1 & -> & Hreading1 & Hperm & Hleast).
    { intros Hnil. rewrite Hnil in Hn. simpl in Hn. lia. }
    simpl. destruct (IH s1 Hreading1) as (out & s2 & -> & Hreading2 & Hperm2 & Hsorted & Hlen).
    { apply Permutation_length in Hperm. simpl in Hperm. lia. }
    simpl. exists (x :: out), s2. split_and!; [done..| | |simpl; lia].
    + rewrite Hperm, Hperm2. done.
    + constructor; [done|]. destruct out as [|y out']; constructor.
      rewrite Forall_forall in Hleast. apply Hleast.
      rewrite Hperm, Hperm2. right. left.
Qed.

(** *** From the run files to the first read *)

(** The stream and the record buffer of a run just opened. *)
Definition open_stream (fresh_record : record) (run : list record) : ifstream record :=
  (ifstream_read record {| unread := run; eofbit := false |} fresh_record).1.

Definition first_record (fresh_record : record) (run : list record) : record :=
  (ifstream_read record {| unread := run; eofbit := false |} fresh_record).2.

Lemma open_files_spec fresh (pre rest : list (list record)) opened records :
  open_files record fresh (Some <$> (pre ++ rest))
    (seq (length pre) (length rest)) opened records =
  Ok (opened ++ (open_stream fresh <$> rest), records ++ (first_record fresh <$> rest)).
Proof.
  revert pre opened records.
  induction rest as [|run rest IH]; intros pre opened records; simpl.
  - by rewrite !app_nil_r.
  - rewrite list_lookup_fmap, list_lookup_middle by done. simpl.
    unfold open_stream, first_record.
    destruct (ifstream_read record {| unread := run; eofbit := false |} fresh)
      as [file rec] eqn:Hread. simpl.
    specialize (IH (pre ++ [run]) (opened ++ [file]) (records ++ [rec])).
    rewrite <- app_assoc, length_app in IH. simpl in IH.
    rewrite Nat.add_1_r in IH. rewrite IH. by rewrite <- !app_assoc.
Qed.

Lemma run_rest_open fresh (run : list record) :
  run ≠ [] → run_rest (open_stream fresh run) (first_record fresh run) = run.
Proof. by destruct run. Qed.

Lemma zip_run_rest_open fresh (runs : list (list record)) :
  Forall (λ run, run ≠ []) runs →
  zip_with run_rest (open_stream fresh <$> runs) (first_record fresh <$> runs) = runs.
Proof.
  induction 1 as [|run runs Hne _ IH]; [done|].
  rewrite !fmap_cons. cbn [zip_with]. by rewrite IH, run_rest_open.
Qed.

Lemma act_of_open fresh (runs : list (list record)) j :
  Forall (λ run, run ≠ []) runs →
  act_of (open_stream fresh <$> runs) j =
  bool_decide (0 ≤ j < Z.of_nat (length runs))%Z.
Proof.
  intros Hne. unfold act_of, zat, at_. destruct (Z.ltb_spec j 0) as [Hlt|Hge].
  { by rewrite bool_decide_eq_false_2 by lia. }
  rewrite list_lookup_fmap.
  destruct (runs !! Z.to_nat j) as [run|] eqn:Hrun; simpl.
  - rewrite bool_decide_eq_true_2 by (apply lookup_lt_Some in Hrun; lia).
    rewrite Forall_forall in Hne.
    specialize (Hne run (list_elem_of_lookup_2 _ _ _ Hrun)). by destruct run.
  - rewrite bool_decide_eq_false_2; [done|]. apply lookup_ge_None in Hrun. lia.
Qed.

(** The sorter after [endWrite]: the run files, each sorted and not
    empty, hold the input. *)
Definition finished (input : list record) (s : ExternalMergeSorter record) : Prop :=
  ∃ runs : list (list record),
    runs ≠ [] ∧
    filenames_ s = seq 0 (length runs) ∧ disk s = Some <$> runs ∧
    Forall (λ run, StronglySorted (cmp_le record cmp_) run ∧ run ≠ []) runs ∧
    mjoin runs ≡ₚ input ∧
    opened_files s = [] ∧ record_list s = [] ∧ heap s = [].

Lemma beginRead_spec fresh input s :
  finished input s →
  ∃ s', beginRead record fresh cmp_ s = Ok s' ∧ reading s' ∧ remaining s' ≡ₚ input.
Proof.
  intros (runs & Hruns & Hnames & Hdisk & Hall & Hperm & Hopened & Hrecords & Hheap).
  assert (Forall (λ run, run ≠ []) runs) as Hne.
  { eapply Forall_impl; [exact Hall|]. by intros run [_ ?]. }
  unfold beginRead. rewrite Hnames, Hdisk, Hopened, Hrecords, Hheap.
  pose proof (open_files_spec fresh [] runs [] []) as Hopen.
  simpl in Hopen. rewrite Hopen. simpl. rewrite length_seq.
  set (k := Z.of_nat (length runs)).
  assert (1 ≤ k)%Z as Hk by (destruct runs; [done|simpl in k; lia]).
  destruct (ceil_log2_pos k Hk) as (-> & Hh & HkL). simpl.
  rewrite !shiftl_1_pow by lia.
  set (L := (2 ^ Z.log2_up k)%Z) in *.
  assert (2 ^ (Z.log2_up k + 1) = 2 * L)%Z as ->.
  { unfold L. rewrite Z.pow_add_r by lia. lia. }
  set (recs := first_record fresh <$> runs).
  set (opened := open_stream fresh <$> runs).
  assert (resize [] (2 * L) 0%Z = replicate (Z.to_nat (2 * L)) 0%Z) as ->.
  { unfold resize. simpl. rewrite Nat.sub_0_r. apply take_ge. by rewrite length_replicate. }
  set (zeros := replicate (Z.to_nat (2 * L)) 0%Z).
  assert (Z.of_nat (length zeros) = 2 * L)%Z as Hzeros
    by (unfold zeros; rewrite length_replicate; lia).
  destruct (fill_spec (Z.to_nat k) zeros L 0 (λ i, i)) as (v1 & -> & Hl1 & Hv1); [lia..|].
  simpl.
  destruct (fill_spec (Z.to_nat (L - k)) v1 L k (λ _, (-1)%Z)) as (v2 & -> & Hl2 & Hv2);
    [lia..|].
  simpl.
  assert (built recs k L v2 v2 (L - 1)) as Hbuilt.
  { assert (∀ j, (0 ≤ j < L)%Z →
              winner_of v2 (L + j) = if (j <? k)%Z then j else (-1)%Z) as Hleaves.
    { intros j Hj. unfold winner_of. rewrite Hv2 by lia.
      destruct (Z.ltb_spec j k).
      - rewrite decide_False by lia. rewrite Hv1 by lia.
        rewrite decide_True by lia. f_equal. lia.
      - rewrite decide_True by lia. done. }
    split_and!; [lia..| |done|intros; lia].
    intros i Hi. replace i with (L + (i - L))%Z by lia. rewrite Hleaves by lia.
    unfold entry. destruct (Z.ltb_spec (i - L) k); lia. }
  destruct (build_spec recs k L v2 v2 (Z.to_nat (L - 1)))
    as (winners & hp & -> & Hb0);
    [by unfold recs, k; rewrite length_fmap|lia|by rewrite Z2Nat.id by lia|].
  simpl. destruct Hb0 as (Hlw & Hlh & Hentry & Hleaf & Hnode).
  rewrite zat_winner_of by lia. simpl. rewrite zset_Ok by lia. simpl.
  eexists. split; [done|]. split.
  - unfold reading. simpl. rewrite length_seq. fold k L. fold opened recs.
    split_and!.
    + done.
    + unfold opened. by rewrite length_fmap.
    + unfold recs. by rewrite length_fmap.
    + rewrite length_insert. done.
    + unfold opened, recs. apply Forall2_fmap, Forall_Forall2_diag.
      eapply Forall_impl; [exact Hall|]. intros run [Hs Hrne]. simpl.
      by rewrite run_rest_open.
    + exists (winner_of winners). split_and!.
      * intros j Hj. unfold leaf_ok. rewrite Hleaf by done.
        unfold opened. rewrite act_of_open by done. fold k.
        destruct (Z.ltb_spec j k).
        -- by rewrite bool_decide_eq_true_2 by lia.
        -- by rewrite bool_decide_eq_false_2 by lia.
      * intros i Hi. destruct (Hnode i ltac:(lia)) as (loser & Hl & Hsel & Hb).
        exists loser. split_and!; [|done..].
        rewrite (zat_insert hp 0 i) by lia. by rewrite decide_False by lia.
      * rewrite (zat_insert hp 0 0) by lia. by rewrite decide_True.
  - unfold remaining. cbn [opened_files record_list]. unfold opened, recs.
    by rewrite zip_run_rest_open.
Qed.

(** *** The write phase *)

Local Instance cmp_le_total : Total (cmp_le record cmp_).
Proof. intros a b. apply cmp_total. Qed.

Local Instance cmp_le_trans : Transitive (cmp_le record cmp_).
Proof. intros a b c. apply cmp_trans. Qed.

Section write_phase.
Context (zero_record : record) (NUM_RECORD_PER_FILE RECORD_SIZE : Z).
Hypothesis Hper_file : (1 ≤ NUM_RECORD_PER_FILE)%Z.
Hypothesis Hsize : (1 ≤ RECORD_SIZE)%Z.

Local Abbreviation write' := (write record zero_record cmp_ NUM_RECORD_PER_FILE RECORD_SIZE).

(** The sorter between two writes: the closed run files, each sorted
    and full, and the mapped file with the records [cur] written to it
    so far, zero-filled beyond them. *)
Definition written (input : list record) (s : ExternalMergeSorter record) : Prop :=
  ∃ (runs : list (list record)) (cur : list record),
    filenames_ s = seq 0 (S (length runs)) ∧
    opened_files s = [] ∧ record_list s = [] ∧ heap s = [] ∧
    index s = Z.of_nat (length cur) ∧
    data s = mapped (length runs) ∧
    isFull s = (Z.of_nat (length cur) =? NUM_RECORD_PER_FILE)%Z ∧
    disk s = (Some <$> runs) ++
      [Some (cur ++ replicate (Z.to_nat NUM_RECORD_PER_FILE - length cur) zero_record)] ∧
    cur ≠ [] ∧ (Z.of_nat (length cur) ≤ NUM_RECORD_PER_FILE)%Z ∧
    Forall (λ run, StronglySorted (cmp_le record cmp_) run ∧ run ≠ []) runs ∧
    mjoin runs ++ cur ≡ₚ input.

Lemma lookup_last_file (runs : list (list record)) (region : list record) :
  ((Some <$> runs) ++ [Some region]) !! length runs = Some (Some region).
Proof. rewrite list_lookup_middle; [done|]. by rewrite length_fmap. Qed.

Lemma insert_last_file (runs : list (list record)) (region region' : list record) :
  <[length runs := Some region']> ((Some <$> runs) ++ [Some region]) =
  (Some <$> runs) ++ [Some region'].
Proof.
  rewrite insert_app_r_alt by (rewrite length_fmap; lia).
  by rewrite length_fmap, Nat.sub_diag.
Qed.

Lemma insert_first_zero n (x : record) :
  <[0 := x]> (replicate (S n) zero_record) = x :: replicate n zero_record.
Proof. done. Qed.

Lemma write_first x :
  ∃ s', write' (sorter_new record) x = Ok s' ∧ written [x] s'.
Proof.
  unfold write. simpl.
  rewrite (proj2 (Z.leb_gt _ _)) by nia. simpl.
  destruct (Z.to_nat NUM_RECORD_PER_FILE) as [|n] eqn:Hn; [lia|].
  unfold zset. simpl.
  eexists. split; [done|]. exists [], [x]. simpl. unfold store. simpl.
  rewrite Hn. simpl. rewrite Nat.sub_0_r. split_and!; try done.
  destruct NUM_RECORD_PER_FILE as [|q|q]; try done. by destruct (1 =? q)%positive.
Qed.

Lemma write_next input s x :
  written input s →
  ∃ s', write' s x = Ok s' ∧ written (input ++ [x]) s'.
Proof.
  intros (runs & cur & Hnames & Hopened & Hrecords & Hheap & Hindex & Hdata & Hfull &
          Hdisk & Hcur & Hlen & Hruns & Hperm).
  destruct s as [fn op rl hp idx dt full dsk]. simpl in *. subst.
  unfold write. simpl.
  destruct (Z.eqb_spec (Z.of_nat (length cur)) NUM_RECORD_PER_FILE) as [Heq|Hne].
  - (* the mapped file is full: sort it, release it, start the next *)
    unfold region_of. simpl. rewrite lookup_last_file. simpl.
    rewrite (proj2 (Z.leb_gt _ _)) by nia. simpl.
    unfold store. simpl. rewrite insert_last_file.
    replace (Z.to_nat NUM_RECORD_PER_FILE - length cur) with 0 by lia.
    simpl. rewrite app_nil_r.
    unfold qsort_r. rewrite take_ge, drop_ge, app_nil_r by lia.
    set (run := merge_sort (cmp_le record cmp_) cur).
    rewrite length_app, length_fmap. simpl.
    replace (length runs + 1) with (length (runs ++ [run]))
      by (rewrite length_app; done).
    replace ((Some <$> runs) ++ [Some run]) with (Some <$> (runs ++ [run]))
      by (by rewrite fmap_app).
    rewrite lookup_last_file. simpl.
    destruct (Z.to_nat NUM_RECORD_PER_FILE) as [|n] eqn:Hn; [lia|].
    unfold zset. simpl. rewrite insert_last_file.
    eexists. split; [done|]. exists (runs ++ [run]), [x]. simpl.
    rewrite Hn. simpl. rewrite Nat.sub_0_r.
    split_and!; try done.
    + rewrite length_app. simpl. rewrite Nat.add_1_r.
      by rewrite (seq_S (length runs) 1).
    + destruct NUM_RECORD_PER_FILE as [|q|q]; try done.
      by destruct (1 =? q)%positive.
    + apply Forall_app. split; [done|]. constructor; [|done]. split.
      * apply StronglySorted_merge_sort; apply _.
      * intros Hnil. apply Hcur. apply Permutation_nil_r.
        rewrite <- Hnil. unfold run. by rewrite merge_sort_Permutation.
    + rewrite join_app. simpl. rewrite app_nil_r. unfold run.
      rewrite merge_sort_Permutation. by rewrite Hperm.
  - (* room left in the mapped file *)
    unfold region_of. simpl. rewrite lookup_last_file. simpl.
    assert (length cur < Z.to_nat NUM_RECORD_PER_FILE) as Hroom by lia.
    rewrite zset_Ok by (rewrite length_app, length_replicate; lia). simpl.
    unfold store. simpl. rewrite insert_last_file. rewrite Nat2Z.id.
    eexists. split; [done|]. exists runs, (cur ++ [x]). simpl.
    rewrite length_app. simpl.
    split_and!; try done.
    + lia.
    + replace (Z.of_nat (length cur + 1)) with (Z.of_nat (length cur) + 1)%Z by lia.
      by destruct (_ =? _)%Z.
    + do 3 f_equal.
      replace (length cur) with (length cur + 0) at 1 by lia.
      rewrite insert_app_r.
      destruct (Z.to_nat NUM_RECORD_PER_FILE - length cur) as [|m] eqn:Hm; [lia|].
      rewrite insert_first_zero, <- app_assoc. simpl. do 3 f_equal. lia.
    + by destruct cur.
    + lia.
    + by rewrite app_assoc, Hperm.
Qed.

Lemma write_all_spec input s more :
  written input s →
  ∃ s', write_all record zero_record cmp_ NUM_RECORD_PER_FILE RECORD_SIZE s more = Ok s' ∧
        written (input ++ more) s'.
Proof.
  revert input s. induction more as [|x more IH]; intros input s Hwritten; simpl.
  - exists s. by rewrite app_nil_r.
  - destruct (write_next input s x Hwritten) as (s1 & -> & Hwritten1). simpl.
    destruct (IH _ _ Hwritten1) as (s' & -> & Hwritten').
    exists s'. by rewrite <- app_assoc in Hwritten'.
Qed.

Lemma endWrite_spec input s :
  written input s →
  ∃ s', endWrite record cmp_ s = Ok s' ∧ finished input s'.
Proof.
  intros (runs & cur & Hnames & Hopened & Hrecords & Hheap & Hindex & Hdata & Hfull &
          Hdisk & Hcur & Hlen & Hruns & Hperm).
  destruct s as [fn op rl hp idx dt full dsk]. simpl in *. subst.
  unfold endWrite. simpl. unfold region_of. simpl. rewrite lookup_last_file. simpl.
  unfold at_. rewrite length_seq, Nat.sub_0_r.
  change (0 :: seq 1 (length runs)) with (seq 0 (S (length runs))).
  rewrite lookup_seq_lt by lia. simpl.
  unfold store. simpl. rewrite insert_last_file, lookup_last_file, insert_last_file.
  unfold qsort_r. rewrite Nat2Z.id, take_app_length, drop_app_length.
  set (run := merge_sort (cmp_le record cmp_) cur).
  assert (length run = length cur) as Hrun
    by (unfold run; by rewrite merge_sort_Permutation).
  rewrite <- Hrun, take_app_length.
  eexists. split; [done|]. exists (runs ++ [run]). simpl.
  split_and!; try done.
  - by destruct runs.
  - rewrite length_app. simpl. by rewrite Nat.add_1_r.
  - by rewrite fmap_app.
  - apply Forall_app. split; [done|]. constructor; [|done]. split.
    + apply StronglySorted_merge_sort; apply _.
    + intros Hnil. rewrite Hnil in Hrun. by destruct cur.
  - rewrite join_app. simpl. rewrite app_nil_r. unfold run.
    rewrite merge_sort_Permutation. done.
Qed.

End write_phase.

End loser_tree.

(** C1. For every comparator that is a total order (any two records
    compare one way or the other, and the comparison is transitive) and
    every input of N ≥ 1 records, N calls to [write] followed by
    [endWrite], [beginRead] and N calls to [read] all succeed, and the
    N records returned by [read] are a permutation of the input and are
    non-decreasing under the comparator.  The run files hold at least
    one record each and records are at least one byte long. *)
Theorem sort_session_sorts (record : Type) (zero_record fresh_record : record)
    (cmp_ : record → record → Z) (NUM_RECORD_PER_FILE RECORD_SIZE : Z)
    (input : list record) :
  (∀ a b, (cmp_ a b ≤ 0)%Z ∨ (cmp_ b a ≤ 0)%Z) →
  (∀ a b c, (cmp_ a b ≤ 0)%Z → (cmp_ b c ≤ 0)%Z → (cmp_ a c ≤ 0)%Z) →
  (1 ≤ NUM_RECORD_PER_FILE)%Z → (1 ≤ RECORD_SIZE)%Z →
  input ≠ [] →
  ∃ out,
    sort_session record zero_record fresh_record cmp_
      NUM_RECORD_PER_FILE RECORD_SIZE input = Ok out ∧
    length out = length input ∧
    out ≡ₚ input ∧
    Sorted (cmp_le record cmp_) out.
Proof.
  intros Htotal Htrans Hper_file Hsize Hinput.
  destruct input as [|x input]; [done|].
  unfold sort_session. simpl.
  destruct (write_first cmp_ zero_record NUM_RECORD_PER_FILE RECORD_SIZE
              Hper_file Hsize x) as (s1 & -> & Hs1). simpl.
  destruct (write_all_spec cmp_ Htotal Htrans zero_record NUM_RECORD_PER_FILE
              RECORD_SIZE Hper_file Hsize [x] s1 input Hs1) as (s2 & -> & Hs2).
  simpl in *.
  destruct (endWrite_spec cmp_ Htotal Htrans zero_record NUM_RECORD_PER_FILE
              (x :: input) s2 Hs2) as (s3 & -> & Hs3). simpl.
  destruct (beginRead_spec cmp_ Htotal fresh_record (x :: input) s3 Hs3)
    as (s4 & -> & Hs4 & Hrem). simpl.
  destruct (read_n_spec cmp_ Htotal Htrans (S (length input)) s4 Hs4)
    as (out & s5 & Hread & _ & Hperm & Hsorted & Hlen).
  { by rewrite Hrem. }
  simpl in Hread. rewrite Hread. simpl.
  exists out. split_and!; try done.
  assert (remaining s5 = []) as Hnil.
  { apply nil_length_inv. apply Permutation_length in Hperm, Hrem.
    rewrite length_app in Hperm. simpl in Hrem. lia. }
  rewrite Hnil, app_nil_r in Hperm. by rewrite <- Hperm, Hrem.
Qed.

Lemma sort_session_sorts_witness :
  ∃ out,
    sort_session Z 0%Z 0%Z Z.sub 2 8 [5; 2; 9; 1; 7; 3]%Z = Ok out ∧
    length out = 6 ∧
    out ≡ₚ [5; 2; 9; 1; 7; 3]%Z ∧
    Sorted (cmp_le Z Z.sub) out.
Proof.
  apply (sort_session_sorts Z 0%Z 0%Z Z.sub 2 8 [5; 2; 9; 1; 7; 3]%Z);
    [intros a b; lia | intros a b c; lia | lia | lia | discriminate].
Defined.

Example sort_session_test :
  sort_session Z 0%Z 0%Z Z.sub 2 8 [5; 2; 9; 1; 7; 3]%Z = Ok [1; 2; 3; 5; 7; 9]%Z.
Proof. vm_compute. reflexivity. Qed.

(** * Properties of the replacer *)

Section replacer.
Import LRUReplacer.

(** The frames that can be evicted, most recently added first. *)
Definition frames (r : LRUReplacer) : list Z := (LRUlist_ r).*2.

(** The representation invariant: the list names each frame once, every
    frame is a frame of the pool, and the map sends exactly the listed
    frames to their own nodes. *)
Definition replacer_wf (r : LRUReplacer) : Prop :=
  NoDup (LRUlist_ r).*1 ∧ NoDup (frames r) ∧
  (∀ n, n ∈ (LRUlist_ r).*1 → n < next_node r) ∧
  (∀ f, f ∈ frames r → (0 ≤ f < Z.of_N (max_size_ r))%Z) ∧
  (∀ f it, LRUhash_ r !! f = Some it ↔ ∃ n, it = it_node n ∧ (n, f) ∈ LRUlist_ r).

Lemma replacer_wf_new num_pages : replacer_wf (new num_pages).
Proof.
  unfold replacer_wf, frames. simpl. split_and!; try by constructor.
  - by intros n Hn%elem_of_nil.
  - by intros f Hf%elem_of_nil.
  - intros f it. rewrite lookup_empty. split; [done|].
    by intros (n & _ & Hn%elem_of_nil).
Qed.

Lemma elem_of_frames r f : f ∈ frames r ↔ ∃ n, (n, f) ∈ LRUlist_ r.
Proof.
  unfold frames. rewrite list_elem_of_fmap. split.
  - intros ([n f'] & -> & Hin). by exists n.
  - intros (n & Hin). by exists (n, f).
Qed.

Lemma replacer_wf_absent r f :
  replacer_wf r → f ∉ frames r → LRUhash_ r !! f = None.
Proof.
  intros (_ & _ & _ & _ & Hhash) Hf.
  destruct (LRUhash_ r !! f) as [it|] eqn:Hit; [|done].
  apply Hhash in Hit as (n & _ & Hin). destruct Hf. apply elem_of_frames. eauto.
Qed.

Lemma replacer_wf_present r f :
  replacer_wf r → f ∈ frames r →
  ∃ n, (n, f) ∈ LRUlist_ r ∧ LRUhash_ r !! f = Some (it_node n).
Proof.
  intros (_ & _ & _ & _ & Hhash) (n & Hin)%elem_of_frames.
  exists n. split; [done|]. apply Hhash. eauto.
Qed.

Lemma unpin_absent_spec r f :
  replacer_wf r → f ∉ frames r → (0 ≤ f < Z.of_N (max_size_ r))%Z →
  ∃ r', unpin r f = Ok r' ∧ replacer_wf r' ∧
        frames r' = f :: frames r ∧ max_size_ r' = max_size_ r.
Proof.
  intros Hwf Hf Hrange. pose proof (replacer_wf_absent r f Hwf Hf) as Hnone.
  destruct Hwf as (Hnodes & Hframes & Hfresh & Hin & Hhash).
  unfold unpin. rewrite Hnone.
  replace ((0 <=? f)%Z && (f <? Z.of_N (max_size_ r))%Z) with true
    by (symmetry; apply andb_true_iff; lia).
  simpl. eexists. split; [done|]. unfold replacer_wf, frames in *. simpl.
  split_and!; try done.
  - constructor; [|done]. intros Hn%Hfresh. lia.
  - by constructor.
  - intros n [->|Hn%Hfresh]%elem_of_cons; lia.
  - intros f' [->|Hf']%elem_of_cons; [done|by apply Hin].
  - intros f' it. destruct (decide (f' = f)) as [->|Hne].
    + rewrite lookup_insert_eq. split.
      * intros [= <-]. eexists. split; [done|]. by left.
      * intros (n & -> & [[= ->]|Hn]%elem_of_cons); [done|].
        destruct Hf. apply list_elem_of_fmap. by exists (n, f).
    + rewrite lookup_insert_ne by done. rewrite Hhash.
      split; intros (n & -> & Hn); exists n; (split; [done|]).
      * by right.
      * apply elem_of_cons in Hn as [[= _ ->]|Hn]; done.
Qed.

Lemma victim_spec r fl f :
  replacer_wf r → frames r = fl ++ [f] →
  ∃ r', victim r = Ok (Some f, r') ∧ replacer_wf r' ∧
        frames r' = fl ∧ max_size_ r' = max_size_ r.
Proof.
  intros (Hnodes & Hframes & Hfresh & Hin & Hhash) Hfl.
  unfold frames in *. destruct r as [mx lst hash nxt]. simpl in *.
  destruct lst as [|[n f'] l _] using rev_ind.
  { by destruct fl. }
  rewrite fmap_app in Hfl. simpl in Hfl. apply app_inj_tail in Hfl as [<- ->].
  unfold victim. simpl. rewrite last_snoc.
  assert (hash !! f = Some (it_node n)) as ->.
  { apply Hhash. eexists. split; [done|]. apply elem_of_app. right. by left. }
  rewrite length_app. simpl. rewrite Nat.add_sub, take_app_length.
  eexists. split; [done|]. unfold replacer_wf, frames. simpl.
  rewrite !fmap_app in *. simpl in *.
  apply NoDup_app in Hnodes as (Hnodes & _ & _).
  apply NoDup_app in Hframes as (Hframes & Hnotin & _).
  split_and!; try done.
  - intros n' Hn'. apply Hfresh, elem_of_app. by left.
  - intros f' Hf'. apply Hin, elem_of_app. by left.
  - intros f' it. destruct (decide (f' = f)) as [->|Hne].
    + rewrite lookup_delete_eq. split; [done|].
      intros (n' & _ & Hn'). destruct (Hnotin f).
      * apply list_elem_of_fmap. by exists (n', f).
      * by left.
    + rewrite lookup_delete_ne by done. rewrite Hhash.
      split; intros (n' & -> & Hn'); exists n'; (split; [done|]).
      * apply elem_of_app in Hn' as [Hn'|[= _ ->]%list_elem_of_singleton]; done.
      * apply elem_of_app. by left.
Qed.

Lemma NoDup_fst_filter {A B} (P : A * B → Prop) `{!∀ x, Decision (P x)}
    (l : list (A * B)) :
  NoDup l.*1 → NoDup (filter P l).*1.
Proof.
  induction l as [|x l IH]; [done|]. rewrite fmap_cons, filter_cons.
  intros [Hx Hl]%NoDup_cons. destruct (decide (P x)); [|by apply IH].
  rewrite fmap_cons. constructor; [|by apply IH].
  intros (y & Hy & [_ Hin]%list_elem_of_filter)%list_elem_of_fmap.
  apply Hx, list_elem_of_fmap. eauto.
Qed.

Lemma NoDup_fst_unique {A B} (l : list (A * B)) x y1 y2 :
  NoDup l.*1 → (x, y1) ∈ l → (x, y2) ∈ l → y1 = y2.
Proof.
  induction l as [|[x' y'] l IH]; [by intros _ ?%elem_of_nil|].
  rewrite fmap_cons. intros [Hx Hl]%NoDup_cons H1 H2.
  apply elem_of_cons in H1 as [H1|H1], H2 as [H2|H2]; simplify_eq; try done.
  - destruct Hx. apply list_elem_of_fmap. by exists (x', y2).
  - destruct Hx. apply list_elem_of_fmap. by exists (x', y1).
  - by apply IH.
Qed.

Lemma NoDup_snd_unique {A B} (l : list (A * B)) x1 x2 y :
  NoDup l.*2 → (x1, y) ∈ l → (x2, y) ∈ l → x1 = x2.
Proof.
  induction l as [|[x' y'] l IH]; [by intros _ ?%elem_of_nil|].
  rewrite fmap_cons. intros [Hy Hl]%NoDup_cons H1 H2.
  apply elem_of_cons in H1 as [H1|H1], H2 as [H2|H2]; simplify_eq; try done.
  - destruct Hy. apply list_elem_of_fmap. by exists (x2, y').
  - destruct Hy. apply list_elem_of_fmap. by exists (x1, y').
  - by apply IH.
Qed.

(** Erasing the node of a frame removes that frame and no other. *)
Lemma erase_own_node (lst : list (nat * Z)) n f :
  NoDup lst.*1 → NoDup lst.*2 → (n, f) ∈ lst →
  erase lst (it_node n) = Ok (filter (λ node, node.1 ≠ n) lst) ∧
  (filter (λ node, node.1 ≠ n) lst).*2 = filter (λ f', f' ≠ f) lst.*2.
Proof.
  intros Hnodes Hframes Hin. split.
  - unfold erase. rewrite decide_True; [done|].
    apply list_elem_of_fmap. by exists (n, f).
  - assert (∀ n' f', (n', f') ∈ lst → (n' ≠ n ↔ f' ≠ f)) as Hiff.
    { intros n' f' Hin'. split; intros Hne ->; destruct Hne.
      - by eapply NoDup_snd_unique.
      - by eapply NoDup_fst_unique. }
    clear Hnodes Hframes Hin. induction lst as [|[n' f'] lst IH]; [done|].
    rewrite fmap_cons, !filter_cons. simpl.
    specialize (Hiff n' f' ltac:(by left)) as Hhead.
    destruct (decide (n' ≠ n)) as [Hn|Hn], (decide (f' ≠ f)) as [Hf|Hf];
      try tauto; rewrite ?fmap_cons; simpl; f_equal;
      apply IH; intros; apply Hiff; by right.
Qed.

Lemma pin_present_spec r f :
  replacer_wf r → f ∈ frames r →
  ∃ r', pin r f = Ok r' ∧ replacer_wf r' ∧
        frames r' = filter (λ f', f' ≠ f) (frames r) ∧
        max_size_ r' = max_size_ r.
Proof.
  intros Hwf Hf. destruct (replacer_wf_present r f Hwf Hf) as (n & Hn & Hit).
  destruct Hwf as (Hnodes & Hframes & Hfresh & Hin & Hhash).
  destruct (erase_own_node (LRUlist_ r) n f Hnodes Hframes Hn) as [Herase Hrest].
  unfold pin. rewrite Hit, Herase. simpl. eexists. split; [done|].
  unfold replacer_wf, frames in *. simpl. rewrite Hrest.
  split_and!; try done.
  - by apply NoDup_fst_filter.
  - by apply NoDup_filter.
  - intros n' (node & -> & [_ Hnode]%list_elem_of_filter)%list_elem_of_fmap.
    apply Hfresh, list_elem_of_fmap. eauto.
  - intros f' [_ Hf']%list_elem_of_filter. by apply Hin.
  - intros f' it. destruct (decide (f' = f)) as [->|Hne].
    + rewrite lookup_delete_eq. split; [done|].
      intros (n' & _ & [Hne Hn']%list_elem_of_filter). destruct Hne. simpl.
      by eapply NoDup_snd_unique.
    + rewrite lookup_delete_ne by done. rewrite Hhash.
      split; intros (n' & -> & Hn'); exists n'; (split; [done|]).
      * apply list_elem_of_filter. split; [|done]. simpl. intros ->.
        destruct Hne. by eapply NoDup_fst_unique.
      * by apply list_elem_of_filter in Hn' as [_ ?].
Qed.

(** A replacer holding frames 1 and 0, frame 0 unpinned first. *)
Definition two_frames : LRUReplacer :=
  {| max_size_ := 3; LRUlist_ := [(1, 1%Z); (0, 0%Z)];
     LRUhash_ := {[ 0%Z := it_node 0; 1%Z := it_node 1 ]}; next_node := 2 |}.

Lemma two_frames_wf : replacer_wf two_frames.
Proof.
  destruct (unpin_absent_spec (new 3) 0 (replacer_wf_new 3)) as (r0 & H0 & Hwf0 & Hf0 & _);
    [by intros ?%elem_of_nil|simpl; lia|].
  vm_compute in H0. injection H0 as <-.
  destruct (unpin_absent_spec _ 1 Hwf0) as (r1 & H1 & Hwf1 & _);
    [by intros [=]%list_elem_of_singleton|simpl; lia|].
  vm_compute in H1. injection H1 as <-.
  exact Hwf1.
Qed.

(** X1.  [victim] evicts the frame that was added longest ago, the last of
    the list, and nothing else; on an empty replacer it returns false
    and changes nothing. *)
Theorem victim_evicts_oldest r :
  replacer_wf r →
  (frames r = [] → victim r = Ok (None, r)) ∧
  (∀ fl f, frames r = fl ++ [f] →
     ∃ r', victim r = Ok (Some f, r') ∧ replacer_wf r' ∧ frames r' = fl ∧
           LRUhash_ r' !! f = None ∧ max_size_ r' = max_size_ r).
Proof.
  intros Hwf. split.
  - unfold frames, victim. by destruct (LRUlist_ r).
  - intros fl f Hfl.
    destruct (victim_spec r fl f Hwf Hfl) as (r' & Hv & Hwf' & Hfl' & Hmax).
    exists r'. split_and!; try done.
    apply replacer_wf_absent; [done|]. rewrite Hfl'.
    destruct Hwf as (_ & Hnodup & _). rewrite Hfl in Hnodup.
    apply NoDup_app in Hnodup as (_ & Hnotin & _).
    intros Hin. apply (Hnotin f Hin). by left.
Qed.

Lemma victim_evicts_oldest_witness :
  (frames two_frames = [] → victim two_frames = Ok (None, two_frames)) ∧
  (∀ fl f, frames two_frames = fl ++ [f] →
     ∃ r', victim two_frames = Ok (Some f, r') ∧ replacer_wf r' ∧ frames r' = fl ∧
           LRUhash_ r' !! f = None ∧ max_size_ r' = max_size_ two_frames).
Proof. apply (victim_evicts_oldest two_frames), two_frames_wf. Defined.

(** X2.  [unpin] of a frame that is not in the replacer puts it at the front
    of the list when it is a frame of the pool, and throws
    [InternalError] when it is not. *)
Theorem unpin_enters_front r f :
  replacer_wf r → f ∉ frames r →
  ((0 ≤ f < Z.of_N (max_size_ r))%Z →
     ∃ r', unpin r f = Ok r' ∧ replacer_wf r' ∧ frames r' = f :: frames r ∧
           max_size_ r' = max_size_ r) ∧
  (¬ (0 ≤ f < Z.of_N (max_size_ r))%Z →
     unpin r f =
       Err (InternalError ("LRUReplacer::unpin invalid frame_id: " +:+ pretty f))).
Proof.
  intros Hwf Hf. split.
  - by apply unpin_absent_spec.
  - intros Hrange. unfold unpin. rewrite (replacer_wf_absent r f Hwf Hf).
    replace ((0 <=? f)%Z && (f <? Z.of_N (max_size_ r))%Z) with false; [done|].
    symmetry. apply andb_false_iff. lia.
Qed.

Lemma unpin_enters_front_witness :
  ((0 ≤ 2 < Z.of_N (max_size_ two_frames))%Z →
     ∃ r', unpin two_frames 2 = Ok r' ∧ replacer_wf r' ∧
           frames r' = 2%Z :: frames two_frames ∧
           max_size_ r' = max_size_ two_frames) ∧
  (¬ (0 ≤ 2 < Z.of_N (max_size_ two_frames))%Z →
     unpin two_frames 2 =
       Err (InternalError ("LRUReplacer::unpin invalid frame_id: " +:+ pretty 2%Z))).
Proof.
  apply (unpin_enters_front two_frames 2 two_frames_wf).
  vm_compute. by intros [[=]|[[=]|[]%elem_of_nil]%elem_of_cons]%elem_of_cons.
Defined.

(** X3.  [pin] of a frame in the replacer removes that frame and keeps the
    others in their order; [pin] of a frame that is not in it changes
    nothing when the frame is a frame of the pool and throws
    [InternalError] otherwise. *)
Theorem pin_removes_frame r f :
  replacer_wf r →
  (f ∈ frames r →
     ∃ r', pin r f = Ok r' ∧ replacer_wf r' ∧
           frames r' = filter (λ f', f' ≠ f) (frames r) ∧ (f ∉ frames r') ∧
           max_size_ r' = max_size_ r) ∧
  (f ∉ frames r → (0 ≤ f < Z.of_N (max_size_ r))%Z → pin r f = Ok r) ∧
  (f ∉ frames r → ¬ (0 ≤ f < Z.of_N (max_size_ r))%Z →
     pin r f =
       Err (InternalError ("LRUReplacer::pin invalid frame_id: " +:+ pretty f))).
Proof.
  intros Hwf. split_and!.
  - intros Hf. destruct (pin_present_spec r f Hwf Hf) as (r' & Hp & Hwf' & Hfl & Hmax).
    exists r'. split_and!; try done.
    rewrite Hfl. by intros [? _]%list_elem_of_filter.
  - intros Hf Hrange. unfold pin. rewrite (replacer_wf_absent r f Hwf Hf).
    replace ((f <? 0)%Z || (Z.of_N (max_size_ r) <=? f)%Z) with false; [done|].
    symmetry. apply orb_false_iff. lia.
  - intros Hf Hrange. unfold pin. rewrite (replacer_wf_absent r f Hwf Hf).
    replace ((f <? 0)%Z || (Z.of_N (max_size_ r) <=? f)%Z) with true; [done|].
    symmetry. apply orb_true_iff. lia.
Qed.

Lemma pin_removes_frame_witness :
  pin two_frames 0 =
    Ok {| max_size_ := 3; LRUlist_ := [(1, 1%Z)];
          LRUhash_ := delete 0%Z (LRUhash_ two_frames); next_node := 2 |} ∧
  ((0%Z ∈ frames two_frames →
     ∃ r', pin two_frames 0 = Ok r' ∧ replacer_wf r' ∧
           frames r' = filter (λ f', f' ≠ 0%Z) (frames two_frames) ∧ (0%Z ∉ frames r') ∧
           max_size_ r' = max_size_ two_frames) ∧
  (0%Z ∉ frames two_frames → (0 ≤ 0 < Z.of_N (max_size_ two_frames))%Z →
     pin two_frames 0 = Ok two_frames) ∧
  (0%Z ∉ frames two_frames → ¬ (0 ≤ 0 < Z.of_N (max_size_ two_frames))%Z →
     pin two_frames 0 =
       Err (InternalError ("LRUReplacer::pin invalid frame_id: " +:+ pretty 0%Z)))).
Proof.
  split; [reflexivity|]. apply (pin_removes_frame two_frames 0 two_frames_wf).
Defined.

(** X4.  A well-formed replacer never holds more frames than the pool has. *)
Theorem Size_at_most_max_size r :
  replacer_wf r → (Z.of_nat (Size r) ≤ Z.of_N (max_size_ r))%Z.
Proof.
  intros (_ & Hframes & _ & Hin & _). unfold Size, frames in *.
  assert (length (Z.to_nat <$> (LRUlist_ r).*2) ≤
          length (seq 0 (N.to_nat (max_size_ r)))) as Hle.
  { apply submseteq_length, NoDup_submseteq.
    - apply NoDup_fmap_2_strong; [|done].
      intros x y Hx%Hin Hy%Hin Heq. lia.
    - intros x (f & -> & Hf%Hin)%list_elem_of_fmap.
      apply elem_of_seq. lia. }
  rewrite !length_fmap, length_seq in Hle. lia.
Qed.

Lemma Size_at_most_max_size_witness :
  (Z.of_nat (Size two_frames) ≤ Z.of_N (max_size_ two_frames))%Z.
Proof. apply (Size_at_most_max_size two_frames), two_frames_wf. Defined.

(** [unpin] of every frame of [fs] in turn, and [n] calls of [victim]
    collecting the frames evicted. *)
Fixpoint unpin_all (r : LRUReplacer) (fs : list Z) : result LRUReplacer :=
  match fs with
  | [] => Ok r
  | f :: fs =>
      let* r := unpin r f in
      unpin_all r fs
  end.

Fixpoint victims (n : nat) (r : LRUReplacer) : result (list Z * LRUReplacer) :=
  match n with
  | O => Ok ([], r)
  | S n' =>
      let* (evicted, r) := victim r in
      match evicted with
      | Some f =>
          let* (out, r) := victims n' r in
          Ok (f :: out, r)
      | None => Ok ([], r)
      end
  end.

Lemma unpin_all_spec r fs :
  replacer_wf r → NoDup fs →
  (∀ f, f ∈ fs → (f ∉ frames r) ∧ (0 ≤ f < Z.of_N (max_size_ r))%Z) →
  ∃ r', unpin_all r fs = Ok r' ∧ replacer_wf r' ∧
        frames r' = rev fs ++ frames r ∧ max_size_ r' = max_size_ r.
Proof.
  revert r. induction fs as [|f fs IH]; intros r Hwf Hnodup Hfs.
  { by exists r. }
  apply NoDup_cons in Hnodup as [Hf Hnodup].
  destruct (Hfs f ltac:(by left)) as [Hnew Hrange].
  destruct (unpin_absent_spec r f Hwf Hnew Hrange) as (r1 & Hr1 & Hwf1 & Hfl1 & Hmax1).
  destruct (IH r1 Hwf1 Hnodup) as (r' & Hr' & Hwf' & Hfl' & Hmax').
  { intros f' Hf'. destruct (Hfs f' ltac:(by right)) as [Hnew' Hrange'].
    rewrite Hfl1, Hmax1. split; [|done].
    intros [->|?]%elem_of_cons; done. }
  exists r'. simpl. rewrite Hr1. simpl. split_and!; try done.
  - rewrite Hfl', Hfl1. simpl. by rewrite <- app_assoc.
  - by rewrite Hmax'.
Qed.

Lemma victims_spec r rest out :
  replacer_wf r → frames r = rest ++ rev out →
  ∃ r', victims (length out) r = Ok (out, r') ∧ replacer_wf r' ∧ frames r' = rest.
Proof.
  revert r. induction out as [|f out IH]; intros r Hwf Hfl.
  { exists r. simpl in *. by rewrite app_nil_r in Hfl. }
  simpl in Hfl. rewrite app_assoc in Hfl.
  destruct (victim_spec r _ f Hwf Hfl) as (r1 & Hr1 & Hwf1 & Hfl1 & _).
  destruct (IH r1 Hwf1 Hfl1) as (r' & Hr' & Hwf' & Hfl').
  exists r'. simpl. rewrite Hr1. simpl. by rewrite Hr'.
Qed.

(** X5.  Frames leave the replacer in the order they entered it: after
    [unpin] of distinct frames of the pool on a new replacer, the calls
    of [victim] return them in the order of the [unpin] calls, and
    then the replacer is empty. *)
Theorem victims_in_unpin_order num_pages fs :
  NoDup fs → (∀ f, f ∈ fs → (0 ≤ f < Z.of_N num_pages)%Z) →
  ∃ r r',
    unpin_all (new num_pages) fs = Ok r ∧ Size r = length fs ∧
    victims (length fs) r = Ok (fs, r') ∧
    Size r' = 0 ∧ victim r' = Ok (None, r').
Proof.
  intros Hnodup Hrange.
  destruct (unpin_all_spec (new num_pages) fs (replacer_wf_new _) Hnodup)
    as (r & Hr & Hwf & Hfl & _).
  { intros f Hf. split; [by intros ?%elem_of_nil|by apply Hrange]. }
  simpl in Hfl. rewrite app_nil_r in Hfl.
  destruct (victims_spec r [] fs Hwf Hfl) as (r' & Hr' & Hwf' & Hfl').
  exists r, r'. split_and!; try done.
  - unfold Size. by rewrite <- (length_fmap snd), <- (length_rev fs), <- Hfl.
  - unfold Size. unfold frames in Hfl'. apply fmap_nil_inv in Hfl'. by rewrite Hfl'.
  - unfold frames, victim in *. by destruct (LRUlist_ r').
Qed.

Lemma victims_in_unpin_order_witness :
  ∃ r r',
    unpin_all (new 4) [2; 0; 3]%Z = Ok r ∧ Size r = 3 ∧
    victims 3 r = Ok ([2; 0; 3]%Z, r') ∧
    Size r' = 0 ∧ victim r' = Ok (None, r').
Proof.
  apply (victims_in_unpin_order 4 [2; 0; 3]%Z).
  - by apply (bool_decide_unpack _).
  - intros f Hf. repeat (apply elem_of_cons in Hf as [->|Hf]; [simpl; lia|]).
    by apply elem_of_nil in Hf.
Defined.

(** X6.  [unpin] of a frame that is already in the replacer keeps the list
    as it is, but stores the iterator of the first node under that
    frame.  When the frame is not the first, a [pin] of it then erases
    the first frame of the list instead.  The pinned frame stays in the
    list without an entry in the map, so that [victim], once that frame
    is the last of the list, erases [LRUhash_.end()]; the first frame
    is gone from the list while the map still holds its iterator, and a
    [pin] of that frame erases through an iterator that is no longer
    valid. *)
Theorem unpin_twice_then_pin_erases_first r n g rest f :
  replacer_wf r → LRUlist_ r = (n, g) :: rest → f ∈ rest.*2 →
  ∃ r1 r2,
    unpin r f = Ok r1 ∧ LRUlist_ r1 = LRUlist_ r ∧
    LRUhash_ r1 !! f = Some (it_node n) ∧
    pin r1 f = Ok r2 ∧ LRUlist_ r2 = rest ∧
    f ∈ frames r2 ∧ (g ∉ frames r2) ∧
    LRUhash_ r2 !! f = None ∧ LRUhash_ r2 !! g = Some (it_node n) ∧
    (∀ rest' nf, rest = rest' ++ [(nf, f)] → victim r2 = Err UndefinedBehaviour) ∧
    pin r2 g = Err UndefinedBehaviour.
Proof.
  intros Hwf Hlst Hf.
  assert (f ∈ frames r) as Hfr.
  { unfold frames. rewrite Hlst, fmap_cons. by right. }
  destruct (replacer_wf_present r f Hwf Hfr) as (nf & Hnf & Hit).
  destruct Hwf as (Hnodes & Hframes & Hfresh & Hin & Hhash).
  unfold frames in *. rewrite Hlst in Hnodes, Hframes. rewrite !fmap_cons in *.
  simpl in *. apply NoDup_cons in Hnodes as [Hn Hnodes].
  apply NoDup_cons in Hframes as [Hg Hframes].
  assert (f ≠ g) as Hfg by (by intros ->).
  assert (filter (λ node : nat * Z, node.1 ≠ n) rest = rest) as Hkeep.
  { clear -Hn. induction rest as [|[n' f'] rest IH]; [done|].
    rewrite fmap_cons in Hn. apply not_elem_of_cons in Hn as [Hne Hn].
    rewrite filter_cons. simpl. rewrite decide_True by done. by rewrite IH. }
  assert (LRUhash_ r !! g = Some (it_node n)) as Hgit.
  { apply Hhash. exists n. split; [done|]. rewrite Hlst. by left. }
  set (r1 := {| max_size_ := max_size_ r; LRUlist_ := LRUlist_ r;
                LRUhash_ := <[f := it_node n]> (LRUhash_ r);
                next_node := next_node r |}).
  set (r2 := {| max_size_ := max_size_ r; LRUlist_ := rest;
                LRUhash_ := delete f (<[f := it_node n]> (LRUhash_ r));
                next_node := next_node r |}).
  assert (unpin r f = Ok r1) as Hr1.
  { unfold unpin, r1. rewrite Hit. simpl. by rewrite Hlst. }
  assert (pin r1 f = Ok r2) as Hr2.
  { unfold pin, r1, r2. simpl. rewrite lookup_insert_eq. unfold erase.
    rewrite Hlst, decide_True by (rewrite fmap_cons; by left). simpl.
    rewrite filter_cons. simpl. rewrite decide_False by (by intros []).
    by rewrite Hkeep. }
  exists r1, r2. unfold r1, r2. simpl. split_and!; try done.
  - by rewrite lookup_insert_eq.
  - by rewrite lookup_delete_eq.
  - by rewrite lookup_delete_ne, lookup_insert_ne.
  - intros rest' nlast ->. unfold victim. simpl.
    by rewrite last_snoc, lookup_delete_eq.
  - unfold pin. simpl. rewrite lookup_delete_ne, lookup_insert_ne by done.
    rewrite Hgit. unfold erase. by rewrite decide_False.
Qed.

Lemma unpin_twice_then_pin_erases_first_witness :
  ∃ r1 r2,
    unpin two_frames 0 = Ok r1 ∧ LRUlist_ r1 = LRUlist_ two_frames ∧
    LRUhash_ r1 !! 0%Z = Some (it_node 1) ∧
    pin r1 0 = Ok r2 ∧ LRUlist_ r2 = [(0, 0%Z)] ∧
    0%Z ∈ frames r2 ∧ (1%Z ∉ frames r2) ∧
    LRUhash_ r2 !! 0%Z = None ∧ LRUhash_ r2 !! 1%Z = Some (it_node 1) ∧
    victim r2 = Err UndefinedBehaviour ∧
    pin r2 1 = Err UndefinedBehaviour.
Proof.
  destruct (unpin_twice_then_pin_erases_first two_frames 1 1%Z [(0, 0%Z)] 0%Z
              two_frames_wf)
    as (r1 & r2 & Hr1 & Hl1 & Hh1 & Hr2 & Hl2 & Hin & Hout & Hf & Hg & Hvictim & Hpin);
    [reflexivity|by apply list_elem_of_singleton|].
  exists r1, r2. split_and!; try done. by apply (Hvictim [] 0).
Defined.

End replacer.


(** * More properties of the sorter *)

(** The properties of this section are for a comparator that is total
    and transitive, at least one record per run file and records of at
    least one byte. *)
Section sorter_sessions.
Context {record : Type} (cmp_ : record → record → Z).
Context (zero_record fresh_record : record).
Context (NUM_RECORD_PER_FILE RECORD_SIZE : Z).
Hypothesis cmp_total : ∀ a b, (cmp_ a b ≤ 0 ∨ cmp_ b a ≤ 0)%Z.
Hypothesis cmp_trans : ∀ a b c, (cmp_ a b ≤ 0 → cmp_ b c ≤ 0 → cmp_ a c ≤ 0)%Z.
Hypothesis Hper_file : (1 ≤ NUM_RECORD_PER_FILE)%Z.
Hypothesis Hsize : (1 ≤ RECORD_SIZE)%Z.

Local Abbreviation write_ :=
  (write record zero_record cmp_ NUM_RECORD_PER_FILE RECORD_SIZE).
Local Abbreviation write_all_ :=
  (write_all record zero_record cmp_ NUM_RECORD_PER_FILE RECORD_SIZE).

(** The writes of a non-empty input succeed and leave a mapped file. *)
Lemma write_all_written x input :
  ∃ s, write_all_ (sorter_new record) (x :: input) = Ok s ∧
       written cmp_ zero_record NUM_RECORD_PER_FILE (x :: input) s.
Proof.
  destruct (write_first cmp_ zero_record NUM_RECORD_PER_FILE RECORD_SIZE
              Hper_file Hsize x) as (s1 & Hs1 & Hw1).
  destruct (write_all_spec cmp_ cmp_total cmp_trans zero_record NUM_RECORD_PER_FILE
              RECORD_SIZE Hper_file Hsize [x] s1 input Hw1) as (s2 & Hs2 & Hw2).
  exists s2. simpl. rewrite Hs1. simpl. by rewrite Hs2.
Qed.

(** ** The sorter is used once *)

Lemma endWrite_unmaps s s' :
  endWrite record cmp_ s = Ok s' → data s ≠ nullptr → ∃ f, data s' = unmapped f.
Proof.
  unfold endWrite, region_of. intros Hend Hdata.
  destruct (data s) as [|f|f] eqn:Hd; [done| |done].
  destruct (disk s !! f) as [[region|]|]; simpl in Hend; try done.
  destruct (at_ (filenames_ s) (length (filenames_ s) - 1)) as [back|]; simpl in Hend;
    [|done].
  destruct (_ !! back) as [[contents|]|]; try done.
  injection Hend as <-. simpl. eauto.
Qed.

Lemma write_unmapped s f x :
  data s = unmapped f → write_ s x = Err UndefinedBehaviour.
Proof.
  intros Hd. unfold write, region_of. rewrite Hd.
  destruct (isFull s); simpl; by rewrite ?Hd.
Qed.

Lemma endWrite_unmapped s f :
  data s = unmapped f → endWrite record cmp_ s = Err UndefinedBehaviour.
Proof. intros Hd. unfold endWrite, region_of. by rewrite Hd. Qed.

(** X7.  After [endWrite] the member [data] still holds the address of the
    region that [munmap] released: a further [write] stores to it (or
    sorts it), a second [endWrite] sorts it, and both are undefined. *)
Theorem write_after_endWrite_undefined (input : list record) :
  input ≠ [] →
  ∃ s s',
    write_all_ (sorter_new record) input = Ok s ∧
    endWrite record cmp_ s = Ok s' ∧
    (∀ x, write_ s' x = Err UndefinedBehaviour) ∧
    endWrite record cmp_ s' = Err UndefinedBehaviour.
Proof.
  intros Hinput. destruct input as [|x input]; [done|].
  destruct (write_all_written x input) as (s & Hs & Hw).
  destruct (endWrite_spec cmp_ cmp_total cmp_trans zero_record NUM_RECORD_PER_FILE
              _ s Hw) as (s' & Hs' & _).
  destruct (endWrite_unmaps s s' Hs') as [f Hf].
  { destruct Hw as (runs & cur & _ & _ & _ & _ & _ & -> & _). done. }
  exists s, s'. split_and!; try done.
  - intros y. by eapply write_unmapped.
  - by eapply endWrite_unmapped.
Qed.

(** ** The number of run files *)

(** [n] records are written: a full file closes each group of
    [NUM_RECORD_PER_FILE] records, the file in use holds the rest. *)
Definition counted (n : Z) (s : ExternalMergeSorter record) : Prop :=
  (isFull s = true →
     (Z.of_nat (length (filenames_ s)) * NUM_RECORD_PER_FILE = n)%Z) ∧
  (isFull s = false →
     (1 ≤ index s < NUM_RECORD_PER_FILE)%Z ∧
     ((Z.of_nat (length (filenames_ s)) - 1) * NUM_RECORD_PER_FILE + index s = n)%Z).

Lemma write_counted n s x s' :
  counted n s → write_ s x = Ok s' → counted (n + 1) s'.
Proof.
  intros [Hfull Hopen] Hwrite. unfold write in Hwrite.
  assert (∀ s0 : ExternalMergeSorter record,
    isFull s0 = false → index s0 = 0%Z →
    length (filenames_ s0) = S (length (filenames_ s)) →
    isFull s = true →
    (let* (f, region) := region_of record s0 in
     let* region := zset region (index s0) x in
     let index := (index s0 + 1)%Z in
     Ok {| filenames_ := filenames_ s0; opened_files := opened_files s0;
           record_list := record_list s0; heap := heap s0; index := index;
           data := data s0;
           isFull := if (index =? NUM_RECORD_PER_FILE)%Z then true else isFull s0;
           disk := store record s0 f region |}) = Ok s' →
    counted (n + 1) s') as Hnew.
  { intros s0 Hf0 Hi0 Hlen Hf Hw.
    destruct (region_of record s0) as [[f region]|]; [|done]. cbn [bind] in Hw.
    destruct (zset region (index s0) x) as [region'|]; [|done]. cbn [bind] in Hw.
    injection Hw as <-. unfold counted. cbn [isFull index filenames_].
    rewrite Hf0, Hi0, Hlen. specialize (Hfull Hf).
    destruct (Z.eqb_spec (0 + 1) NUM_RECORD_PER_FILE); split; intros; try done; nia. }
  destruct (isFull s) eqn:Hf.
  - destruct (data s) as [|f|f] eqn:Hd; cbn [bind] in Hwrite.
    + destruct (_ <=? _)%Z; [done|]. cbn [bind] in Hwrite.
      apply Hnew in Hwrite; try done. cbn [filenames_]. rewrite length_app. simpl. lia.
    + destruct (region_of record s) as [[f' region0]|]; [|done]. cbn [bind] in Hwrite.
      destruct (_ <=? _)%Z; [done|]. cbn [bind] in Hwrite.
      apply Hnew in Hwrite; try done. cbn [filenames_]. rewrite length_app. simpl. lia.
    + destruct (region_of record s) as [[f' region0]|]; [|done]. cbn [bind] in Hwrite.
      destruct (_ <=? _)%Z; [done|]. cbn [bind] in Hwrite.
      apply Hnew in Hwrite; try done. cbn [filenames_]. rewrite length_app. simpl. lia.
  - destruct (Hopen eq_refl) as [Hidx Hn]. clear Hfull Hopen Hnew. cbn [bind] in Hwrite.
    destruct (region_of record s) as [[f region]|]; [|done]. cbn [bind] in Hwrite.
    destruct (zset region (index s) x) as [region'|]; [|done]. cbn [bind] in Hwrite.
    injection Hwrite as <-. unfold counted. cbn [isFull index filenames_]. rewrite Hf.
    destruct (Z.eqb_spec (index s + 1) NUM_RECORD_PER_FILE); split; intros; try done; nia.
Qed.

Lemma write_all_counted n s input s' :
  counted n s → write_all_ s input = Ok s' →
  counted (n + Z.of_nat (length input)) s'.
Proof.
  revert n s. induction input as [|x input IH]; intros n s Hn Hwrite.
  { injection Hwrite as <-. simpl. by rewrite Z.add_0_r. }
  simpl in Hwrite. destruct (write_ s x) as [s1|] eqn:Hs1; [|done].
  simpl in Hwrite. apply (write_counted n s x s1 Hn) in Hs1.
  apply (IH _ _ Hs1) in Hwrite.
  replace (n + Z.of_nat (length (x :: input)))%Z
    with (n + 1 + Z.of_nat (length input))%Z by (simpl length; lia).
  done.
Qed.

(** X8.  The writes of [N] records make [ceil (N / NUM_RECORD_PER_FILE)]
    run files. *)
Theorem write_all_makes_runs (input : list record) :
  ∃ s,
    write_all_ (sorter_new record) input = Ok s ∧
    Z.of_nat (length (filenames_ s)) =
      ((Z.of_nat (length input) + NUM_RECORD_PER_FILE - 1) / NUM_RECORD_PER_FILE)%Z.
Proof.
  assert (∃ s, write_all_ (sorter_new record) input = Ok s) as [s Hs].
  { destruct input as [|x input]; [by eexists|].
    destruct (write_all_written x input) as (s & Hs & _). eauto. }
  exists s. split; [done|].
  assert (counted 0 (sorter_new record)) as H0.
  { split; [done|]. by intros [=]. }
  apply (write_all_counted 0 _ input s H0) in Hs as [Hfull Hopen].
  rewrite Z.add_0_l in Hfull, Hopen.
  set (k := Z.of_nat (length (filenames_ s))) in *.
  set (n := Z.of_nat (length input)) in *.
  destruct (isFull s).
  - specialize (Hfull eq_refl).
    apply (Z.div_unique _ _ _ (NUM_RECORD_PER_FILE - 1)); lia.
  - destruct (Hopen eq_refl) as [Hidx Hn].
    apply (Z.div_unique _ _ _ (index s - 1)); lia.
Qed.

(** ** Reading less, and reading more, than was written *)

Lemma open_run_remaining (s : ExternalMergeSorter record) (j : nat) file rec :
  opened_files s !! j = Some file → record_list s !! j = Some rec →
  eofbit file = false → rec ∈ remaining s.
Proof.
  intros Hfile Hrec Heof. unfold remaining. apply list_elem_of_join.
  exists (run_rest file rec). split.
  - unfold run_rest. rewrite Heof. by left.
  - apply list_elem_of_lookup. exists j.
    rewrite lookup_zip_with, Hfile. simpl. by rewrite Hrec.
Qed.

(** Once every record is read, [heap[0]] is the dummy [-1]. *)
Lemma reading_exhausted s :
  reading cmp_ s → remaining s = [] → zat (heap s) 0 = Ok (-1)%Z.
Proof.
  intros Hreading Hrem. destruct (reading_act cmp_ s Hreading) as [HL Hact].
  destruct Hreading as (Hk & Hlo & Hlr & Hlh & Hsorted & w & Htree).
  destruct (winner_below cmp_ cmp_total cmp_trans _ _ _ _ _ Htree Hact HL 1)
    as [Hw|[Ha _]]; [lia| |].
  - destruct Htree as (_ & _ & Hroot). by rewrite Hroot, Hw.
  - apply act_of_Some in Ha as (file & Hfile & Heof).
    pose proof (zat_lt _ _ _ Hfile) as Hlt. apply zat_Ok in Hfile as [Hpos Hfile].
    destruct (lookup_lt_is_Some_2 (record_list s) (Z.to_nat (w 1%Z))) as [rec Hrec];
      [lia|].
    pose proof (open_run_remaining s _ file rec Hfile Hrec Heof) as Hin.
    rewrite Hrem in Hin. by apply elem_of_nil in Hin.
Qed.

Lemma read_exhausted s :
  reading cmp_ s → remaining s = [] → read record cmp_ s = Err UndefinedBehaviour.
Proof.
  intros Hreading Hrem. unfold read.
  by rewrite (reading_exhausted s Hreading Hrem).
Qed.

(** The first [n] reads return [n] smallest records: [out] is sorted
    and no record left in the sorter is smaller than one of [out]. *)
Lemma read_n_least n s :
  reading cmp_ s → n ≤ length (remaining s) →
  ∃ out s',
    read_n record cmp_ n s = Ok (out, s') ∧ reading cmp_ s' ∧
    remaining s ≡ₚ out ++ remaining s' ∧
    StronglySorted (cmp_le record cmp_) out ∧ length out = n ∧
    Forall (λ x, Forall (cmp_le record cmp_ x) (remaining s')) out.
Proof.
  revert s. induction n as [|n IH]; intros s Hreading Hn.
  { exists [], s. split_and!; try done; constructor. }
  destruct (read_spec cmp_ cmp_total cmp_trans s Hreading)
    as (x & s1 & Hread & Hreading1 & Hperm1 & Hleast).
  { intros Hnil. rewrite Hnil in Hn. simpl in Hn. lia. }
  destruct (IH s1 Hreading1) as (out & s' & Hout & Hreading' & Hperm' & Hsorted & Hlen & Hall).
  { apply Permutation_length in Hperm1. simpl in Hperm1. lia. }
  exists (x :: out), s'. simpl. rewrite Hread. simpl. rewrite Hout. simpl.
  rewrite Hperm1, Hperm' in Hleast.
  apply Forall_cons in Hleast as [_ [Hxout Hxrest]%Forall_app].
  split_and!; try done.
  - by rewrite Hperm1, Hperm'.
  - by constructor.
  - by rewrite Hlen.
  - by constructor.
Qed.

(** The calls up to the first [read]. *)
Definition begin_session (input : list record) : result (ExternalMergeSorter record) :=
  let* s := write_all_ (sorter_new record) input in
  let* s := endWrite record cmp_ s in
  beginRead record fresh_record cmp_ s.

Lemma begin_session_reading input :
  input ≠ [] →
  ∃ s, begin_session input = Ok s ∧ reading cmp_ s ∧ remaining s ≡ₚ input.
Proof.
  intros Hinput. destruct input as [|x input]; [done|].
  destruct (write_all_written x input) as (s1 & Hs1 & Hw).
  destruct (endWrite_spec cmp_ cmp_total cmp_trans zero_record NUM_RECORD_PER_FILE
              _ s1 Hw) as (s2 & Hs2 & Hfin).
  destruct (beginRead_spec cmp_ cmp_total fresh_record _ s2 Hfin)
    as (s3 & Hs3 & Hreading & Hrem).
  exists s3. unfold begin_session. rewrite Hs1. simpl. rewrite Hs2. simpl. by rewrite Hs3.
Qed.

(** X9.  Reading only the first [n] of the [N] records written gives [n]
    smallest records of the input, in order. *)
Theorem first_reads_are_smallest (input : list record) (n : nat) :
  input ≠ [] → n ≤ length input →
  ∃ s out s' rest,
    begin_session input = Ok s ∧
    read_n record cmp_ n s = Ok (out, s') ∧
    length out = n ∧
    StronglySorted (cmp_le record cmp_) out ∧
    input ≡ₚ out ++ rest ∧
    Forall (λ x, Forall (cmp_le record cmp_ x) rest) out.
Proof.
  intros Hinput Hn.
  destruct (begin_session_reading input Hinput) as (s & Hs & Hreading & Hrem).
  destruct (read_n_least n s Hreading) as (out & s' & Hout & _ & Hperm & Hsorted & Hlen & Hall).
  { by rewrite Hrem. }
  exists s, out, s', (remaining s'). split_and!; try done.
  by rewrite <- Hrem.
Qed.

(** X10.  After the [N] records written are read, [heap[0]] is the dummy
    [-1] and a further [read] copies from [record_list[-1]]. *)
Theorem read_past_end_undefined (input : list record) :
  input ≠ [] →
  ∃ s out s',
    begin_session input = Ok s ∧
    read_n record cmp_ (length input) s = Ok (out, s') ∧
    zat (heap s') 0 = Ok (-1)%Z ∧
    read record cmp_ s' = Err UndefinedBehaviour.
Proof.
  intros Hinput.
  destruct (begin_session_reading input Hinput) as (s & Hs & Hreading & Hrem).
  destruct (read_n_least (length input) s Hreading)
    as (out & s' & Hout & Hreading' & Hperm & _ & Hlen & _).
  { by rewrite Hrem. }
  assert (remaining s' = []) as Hnil.
  { apply nil_length_inv. apply Permutation_length in Hperm, Hrem.
    rewrite length_app in Hperm. lia. }
  exists s, out, s'. split_and!; try done.
  - by apply reading_exhausted.
  - by apply read_exhausted.
Qed.

(** ** The temporary files *)

(** What one [read] does to the streams and to the directory. *)
Lemma read_files s x s' :
  read record cmp_ s = Ok (x, s') →
  filenames_ s' = filenames_ s ∧
  ∃ f file buf,
    zat (opened_files s) f = Ok file ∧ zat (record_list s) f = Ok buf ∧
    opened_files s' =
      <[Z.to_nat f := (ifstream_read record file buf).1]> (opened_files s) ∧
    ((eofbit (ifstream_read record file buf).1 = false ∧ disk s' = disk s) ∨
     (eofbit (ifstream_read record file buf).1 = true ∧
      ∃ filename, zat (filenames_ s) f = Ok filename ∧
                  disk s' = <[filename := None]> (disk s))).
Proof.
  unfold read, adjust. intros Hread.
  destruct (zat (heap s) 0) as [f|]; [|done]. cbn [bind] in Hread.
  destruct (zat (record_list s) f) as [buf|] eqn:Hbuf; [|done]. cbn [bind] in Hread.
  destruct (zat (opened_files s) f) as [file|] eqn:Hfile; [|done]. cbn [bind] in Hread.
  destruct (ifstream_read record file buf) as [file' buf'] eqn:Hfr.
  destruct (ceil_log2 _) as [height|]; [|done]. cbn [bind] in Hread.
  destruct (eofbit file') eqn:Heof.
  - destruct (zset (heap s) _ _) as [hp|]; [|done]. cbn [bind] in Hread.
    destruct (zat (filenames_ s) f) as [filename|] eqn:Hname; [|done].
    cbn [bind] in Hread.
    destruct (adjust_loop _ _ _ _ _ _ _) as [[hp' winner]|]; [|done].
    cbn [bind] in Hread.
    destruct (zset hp' 0 winner) as [hp''|]; [|done]. cbn [bind] in Hread.
    injection Hread as _ <-. split; [done|]. exists f, file, buf.
    rewrite Hfr. simpl. split_and!; try done. right. eauto.
  - cbn [bind] in Hread.
    destruct (adjust_loop _ _ _ _ _ _ _) as [[hp' winner]|]; [|done].
    cbn [bind] in Hread.
    destruct (zset hp' 0 winner) as [hp''|]; [|done]. cbn [bind] in Hread.
    injection Hread as _ <-. split; [done|]. exists f, file, buf.
    rewrite Hfr. simpl. split_and!; try done. by left.
Qed.

(** Every file of [filenames_] was made, and the file of a stream that
    has hit the end is unlinked. *)
Definition unlinked_at_eof (s : ExternalMergeSorter record) : Prop :=
  (∀ filename, filename ∈ filenames_ s → filename < length (disk s)) ∧
  ∀ (j : nat) filename file,
    filenames_ s !! j = Some filename → opened_files s !! j = Some file →
    eofbit file = true → disk s !! filename = Some None.

Lemma read_unlinks s x s' :
  unlinked_at_eof s → read record cmp_ s = Ok (x, s') →
  unlinked_at_eof s' ∧ filenames_ s' = filenames_ s ∧
  length (disk s') = length (disk s).
Proof.
  intros [Hmade Hgone] Hread.
  destruct (read_files s x s' Hread)
    as (Hnames & f & file & buf & Hfile & Hbuf & Hopened & Hdisk).
  pose proof (zat_lt _ _ _ Hfile) as Hlt.
  assert (length (disk s') = length (disk s)) as Hlen.
  { destruct Hdisk as [[_ ->]|(_ & filename & _ & ->)]; [done|].
    by rewrite length_insert. }
  split_and!; [split| |]; try done.
  - rewrite Hnames, Hlen. apply Hmade.
  - rewrite Hnames, Hopened. intros j filename file' Hj Hfile' Heof.
    pose proof (Hmade filename ltac:(by eapply list_elem_of_lookup_2)) as Hfn.
    destruct (decide (j = Z.to_nat f)) as [->|Hne].
    + rewrite list_lookup_insert_eq in Hfile' by lia. injection Hfile' as <-.
      destruct Hdisk as [[Hno _]|(_ & filename' & Hname & ->)]; [congruence|].
      apply zat_Ok in Hname as [_ Hname]. rewrite Hj in Hname. injection Hname as <-.
      by rewrite list_lookup_insert_eq.
    + rewrite list_lookup_insert_ne in Hfile' by done.
      pose proof (Hgone j filename file' Hj Hfile' Heof) as Hold.
      destruct Hdisk as [[_ ->]|(_ & filename' & _ & ->)]; [done|].
      destruct (decide (filename' = filename)) as [->|Hne'].
      * by rewrite list_lookup_insert_eq.
      * by rewrite list_lookup_insert_ne.
Qed.

Lemma read_n_unlinks n s out s' :
  unlinked_at_eof s → read_n record cmp_ n s = Ok (out, s') →
  unlinked_at_eof s' ∧ filenames_ s' = filenames_ s ∧
  length (disk s') = length (disk s).
Proof.
  revert s out. induction n as [|n IH]; intros s out Hs Hread.
  { by injection Hread as _ <-. }
  simpl in Hread. destruct (read record cmp_ s) as [[x s1]|] eqn:Hs1; [|done].
  cbn [bind] in Hread.
  destruct (read_n record cmp_ n s1) as [[out' s2]|] eqn:Hs2; [|done].
  cbn [bind] in Hread. injection Hread as _ <-.
  destruct (read_unlinks s x s1 Hs Hs1) as (Hs1' & Hnames1 & Hlen1).
  destruct (IH s1 out' Hs1' Hs2) as (Hs2' & Hnames2 & Hlen2).
  split_and!; [done|congruence..].
Qed.

(** [beginRead] keeps the file names and the directory. *)
Lemma beginRead_files s s' :
  beginRead record fresh_record cmp_ s = Ok s' →
  filenames_ s' = filenames_ s ∧ disk s' = disk s ∧
  ∃ records,
    open_files record fresh_record (disk s) (filenames_ s) (opened_files s)
      (record_list s) = Ok (opened_files s', records).
Proof.
  unfold beginRead. intros Hbegin.
  destruct (open_files _ _ _ _ _ _) as [[opened records]|]; [|done].
  cbn [bind] in Hbegin.
  destruct (ceil_log2 _) as [height|]; [|done]. cbn [bind] in Hbegin.
  repeat (destruct (fill _ _ _ _ _) as [?|]; [|done]; cbn [bind] in Hbegin).
  destruct (build _ _ _ _ _ _) as [[winners hp]|]; [|done]. cbn [bind] in Hbegin.
  destruct (zat winners 1) as [w1|]; [|done]. cbn [bind] in Hbegin.
  destruct (zset hp 0 w1) as [hp'|]; [|done]. cbn [bind] in Hbegin.
  injection Hbegin as <-. simpl. eauto.
Qed.

Lemma begin_session_files input :
  input ≠ [] →
  ∃ s, begin_session input = Ok s ∧ reading cmp_ s ∧ remaining s ≡ₚ input ∧
       unlinked_at_eof s ∧ filenames_ s = seq 0 (length (disk s)) ∧
       Forall is_Some (disk s).
Proof.
  intros Hinput. destruct input as [|x input]; [done|].
  destruct (write_all_written x input) as (s1 & Hs1 & Hw).
  destruct (endWrite_spec cmp_ cmp_total cmp_trans zero_record NUM_RECORD_PER_FILE
              _ s1 Hw) as (s2 & Hs2 & Hfin).
  destruct (beginRead_spec cmp_ cmp_total fresh_record _ s2 Hfin)
    as (s3 & Hs3 & Hreading & Hrem).
  exists s3. unfold begin_session. rewrite Hs1. simpl. rewrite Hs2. simpl.
  split; [done|]. split; [done|]. split; [done|].
  destruct (beginRead_files s2 s3 Hs3) as (Hnames & Hdisk & records & Hopen).
  destruct Hfin as (runs & _ & Hnames2 & Hdisk2 & Hruns & _ & Hopened2 & Hrecords2 & _).
  rewrite Hnames2, Hdisk2, Hopened2, Hrecords2 in Hopen.
  pose proof (open_files_spec fresh_record [] runs [] []) as Hspec.
  simpl in Hspec. rewrite Hspec in Hopen. injection Hopen as Hopened _.
  unfold unlinked_at_eof. rewrite Hnames, Hdisk, Hnames2, Hdisk2, length_fmap.
  split_and!; try done.
  - intros filename Hin%elem_of_seq. lia.
  - intros j filename file _ Hfile Heof. rewrite <- Hopened in Hfile.
    apply list_lookup_fmap_Some in Hfile as (run & -> & Hrun).
    assert (run ≠ []) as Hne.
    { rewrite Forall_forall in Hruns.
      by apply (Hruns run (list_elem_of_lookup_2 _ _ _ Hrun)). }
    by destruct run.
  - apply Forall_fmap, Forall_true. intros run. by eexists.
Qed.

(** X11.  Before the first [read] every run file is on disk; once the [N]
    records written are read, every file the sorter made is unlinked. *)
Theorem reads_unlink_run_files (input : list record) :
  input ≠ [] →
  ∃ s out s',
    begin_session input = Ok s ∧ Forall is_Some (disk s) ∧
    read_n record cmp_ (length input) s = Ok (out, s') ∧
    length (disk s') = length (disk s) ∧
    Forall (λ file, file = None) (disk s').
Proof.
  intros Hinput.
  destruct (begin_session_files input Hinput)
    as (s & Hs & Hreading & Hrem & Hunlinked & Hnames & Hsome).
  destruct (read_n_least (length input) s Hreading)
    as (out & s' & Hout & Hreading' & Hperm & _ & Hlen & _).
  { by rewrite Hrem. }
  assert (remaining s' = []) as Hnil.
  { apply nil_length_inv. apply Permutation_length in Hperm, Hrem.
    rewrite length_app in Hperm. lia. }
  destruct (read_n_unlinks _ s out s' Hunlinked Hout) as ([Hmade Hgone] & Hnames' & Hlen').
  exists s, out, s'. split_and!; try done.
  apply Forall_lookup. intros filename file Hfile.
  pose proof (lookup_lt_Some _ _ _ Hfile) as Hlt.
  assert (filenames_ s' !! filename = Some filename) as Hname.
  { rewrite Hnames', Hnames. apply lookup_seq. lia. }
  destruct Hreading' as (_ & Hlo & Hlr & _).
  destruct (lookup_lt_is_Some_2 (opened_files s') filename) as [stream Hstream].
  { rewrite Hlo. by eapply lookup_lt_Some. }
  destruct (lookup_lt_is_Some_2 (record_list s') filename) as [rec Hrec].
  { rewrite Hlr. by eapply lookup_lt_Some. }
  destruct (eofbit stream) eqn:Heof.
  - rewrite (Hgone filename filename stream Hname Hstream Heof) in Hfile. congruence.
  - pose proof (open_run_remaining s' _ stream rec Hstream Hrec Heof) as Hin.
    rewrite Hnil in Hin. by apply elem_of_nil in Hin.
Qed.

End sorter_sessions.


(** The sessions of the six integers of [sort_session_test], two
    records to a file. *)
Lemma sub_total (a b : Z) : (a - b ≤ 0 ∨ b - a ≤ 0)%Z.
Proof. lia. Qed.

Lemma sub_trans (a b c : Z) : (a - b ≤ 0 → b - c ≤ 0 → a - c ≤ 0)%Z.
Proof. lia. Qed.

Lemma write_after_endWrite_undefined_witness :
  ∃ s s',
    write_all Z 0%Z Z.sub 2 8 (sorter_new Z) [5; 2; 9; 1; 7; 3]%Z = Ok s ∧
    endWrite Z Z.sub s = Ok s' ∧
    (∀ x, write Z 0%Z Z.sub 2 8 s' x = Err UndefinedBehaviour) ∧
    endWrite Z Z.sub s' = Err UndefinedBehaviour.
Proof.
  apply (write_after_endWrite_undefined Z.sub 0%Z 2 8 sub_total sub_trans);
    [lia|lia|discriminate].
Defined.

Lemma write_all_makes_runs_witness :
  ∃ s,
    write_all Z 0%Z Z.sub 2 8 (sorter_new Z) [5; 2; 9; 1; 7]%Z = Ok s ∧
    Z.of_nat (length (filenames_ s)) = ((5 + 2 - 1) / 2)%Z.
Proof.
  apply (write_all_makes_runs Z.sub 0%Z 2 8 sub_total sub_trans); lia.
Defined.

Lemma first_reads_are_smallest_witness :
  ∃ s out s' rest,
    begin_session Z.sub 0%Z 0%Z 2 8 [5; 2; 9; 1; 7; 3]%Z = Ok s ∧
    read_n Z Z.sub 2 s = Ok (out, s') ∧
    length out = 2 ∧
    StronglySorted (cmp_le Z Z.sub) out ∧
    [5; 2; 9; 1; 7; 3]%Z ≡ₚ out ++ rest ∧
    Forall (λ x, Forall (cmp_le Z Z.sub x) rest) out.
Proof.
  apply (first_reads_are_smallest Z.sub 0%Z 0%Z 2 8 sub_total sub_trans);
    [lia|lia|discriminate|simpl; lia].
Defined.

Lemma read_past_end_undefined_witness :
  ∃ s out s',
    begin_session Z.sub 0%Z 0%Z 2 8 [5; 2; 9; 1; 7; 3]%Z = Ok s ∧
    read_n Z Z.sub 6 s = Ok (out, s') ∧
    zat (heap s') 0 = Ok (-1)%Z ∧
    read Z Z.sub s' = Err UndefinedBehaviour.
Proof.
  apply (read_past_end_undefined Z.sub 0%Z 0%Z 2 8 sub_total sub_trans);
    [lia|lia|discriminate].
Defined.

Lemma reads_unlink_run_files_witness :
  ∃ s out s',
    begin_session Z.sub 0%Z 0%Z 2 8 [5; 2; 9; 1; 7; 3]%Z = Ok s ∧
    Forall is_Some (disk s) ∧
    read_n Z Z.sub 6 s = Ok (out, s') ∧
    length (disk s') = length (disk s) ∧
    Forall (λ file, file = None) (disk s').
Proof.
  apply (reads_unlink_run_files Z.sub 0%Z 0%Z 2 8 sub_total sub_trans);
    [lia|lia|discriminate].
Defined.

(** * More properties of the planner *)

(** ** What a join tree holds *)

(** The scan nodes of a plan, left to right, and the conditions on its
    join nodes. *)
Fixpoint plan_scans (p : Plan) : list Plan :=
  match p with
  | ScanPlan _ _ _ _ => [p]
  | JoinPlan _ l r _ => plan_scans l ++ plan_scans r
  | SortPlan _ sub _ _ => plan_scans sub
  | AggregationPlan _ sub _ _ _ => plan_scans sub
  | ProjectionPlan _ sub _ => plan_scans sub
  | DMLPlan _ sub _ _ _ _ => plan_scans sub
  | _ => []
  end.

Fixpoint join_conds (p : Plan) : list Condition :=
  match p with
  | JoinPlan _ l r cs => join_conds l ++ join_conds r ++ cs
  | SortPlan _ sub _ _ => join_conds sub
  | AggregationPlan _ sub _ _ _ => join_conds sub
  | ProjectionPlan _ sub _ => join_conds sub
  | DMLPlan _ sub _ _ _ _ => join_conds sub
  | _ => []
  end.

Definition scan_table (p : Plan) : string :=
  match p with
  | ScanPlan _ t _ _ => t
  | _ => EmptyString
  end.

Definition scan_node_conds (p : Plan) : list Condition :=
  match p with
  | ScanPlan _ _ cs _ => cs
  | _ => []
  end.

(** A tree of joins over scans. *)
Fixpoint join_tree (p : Plan) : Prop :=
  match p with
  | ScanPlan _ _ _ _ => True
  | JoinPlan _ l r _ => join_tree l ∧ join_tree r
  | _ => False
  end.

Lemma plan_tables_scans p : plan_tables p = scan_table <$> plan_scans p.
Proof.
  induction p; simpl; try done. by rewrite fmap_app, IHp1, IHp2.
Qed.

(** ** Pushing a condition down a join tree *)

(** The outcome of [push_conds] by the tables of the tree: the code is
    0 when the tree scans neither table of the condition, 1 when only
    the left one, 2 when only the right one, and 3, with the condition
    put on one join node, when it scans both. *)
Lemma push_conds_result cond p :
  join_tree p → NoDup (plan_tables p) →
  tab_name (lhs_col cond) ≠ tab_name (rhs_col cond) →
  match bool_decide (tab_name (lhs_col cond) ∈ plan_tables p),
        bool_decide (tab_name (rhs_col cond) ∈ plan_tables p) with
  | true, true =>
      ∃ cond' p' c,
        push_conds cond p = (3%Z, cond', p') ∧
        (c = cond ∨ c = reversed cond) ∧
        join_conds p' ≡ₚ join_conds p ++ [c] ∧
        plan_scans p' = plan_scans p ∧ join_tree p'
  | true, false => push_conds cond p = (1%Z, cond, p)
  | false, true => push_conds cond p = (2%Z, cond, p)
  | false, false => push_conds cond p = (0%Z, cond, p)
  end.
Proof.
  intros Htree Hnodup Hne.
  induction p as [|tag t cs ns|tag l IHl r IHr cs| | | | |]; try done.
  - simpl. destruct (String.eqb_spec t (tab_name (lhs_col cond))) as [->|Hl].
    + rewrite bool_decide_eq_true_2 by (by left).
      by rewrite bool_decide_eq_false_2 by (by intros [=]%list_elem_of_singleton).
    + rewrite bool_decide_eq_false_2
        by (intros ?%list_elem_of_singleton; congruence).
      destruct (String.eqb_spec t (tab_name (rhs_col cond))) as [->|Hr].
      * by rewrite bool_decide_eq_true_2 by (by left).
      * by rewrite bool_decide_eq_false_2
          by (intros ?%list_elem_of_singleton; congruence).
  - destruct Htree as [Htl Htr]. simpl in Hnodup.
    apply NoDup_app in Hnodup as (Hnl & Hdisj & Hnr).
    specialize (IHl Htl Hnl). specialize (IHr Htr Hnr).
    cbn [push_conds plan_tables].
    destruct (decide (tab_name (lhs_col cond) ∈ plan_tables l)) as [Hll|Hll],
             (decide (tab_name (rhs_col cond) ∈ plan_tables l)) as [Hrl|Hrl],
             (decide (tab_name (lhs_col cond) ∈ plan_tables r)) as [Hlr|Hlr],
             (decide (tab_name (rhs_col cond) ∈ plan_tables r)) as [Hrr|Hrr];
      try (by destruct (Hdisj _ Hll Hlr)); try (by destruct (Hdisj _ Hrl Hrr));
      rewrite ?(bool_decide_eq_true_2 _ Hll), ?(bool_decide_eq_false_2 _ Hll),
              ?(bool_decide_eq_true_2 _ Hrl), ?(bool_decide_eq_false_2 _ Hrl) in IHl;
      rewrite ?(bool_decide_eq_true_2 _ Hlr), ?(bool_decide_eq_false_2 _ Hlr),
              ?(bool_decide_eq_true_2 _ Hrr), ?(bool_decide_eq_false_2 _ Hrr) in IHr.
    + (* both in the left subtree *)
      destruct IHl as (cond' & l' & c & -> & Hc & Hjc & Hsc & Hjt). simpl.
      rewrite !bool_decide_eq_true_2 by (apply elem_of_app; by left).
      exists cond', (JoinPlan tag l' r cs), c. simpl. split_and!; try done.
      * rewrite Hjc. rewrite <- !app_assoc. apply Permutation_app_head.
        rewrite (Permutation_app_comm [c]). by rewrite <- !app_assoc.
      * by rewrite Hsc.
    + (* left column left, right column right *)
      rewrite IHl. simpl. rewrite IHr. simpl.
      rewrite !bool_decide_eq_true_2 by (apply elem_of_app; auto).
      eexists _, _, cond. split_and!; try done; [by left|].
      simpl. by rewrite !app_assoc.
    + rewrite IHl. simpl. rewrite IHr. simpl.
      rewrite bool_decide_eq_true_2 by (apply elem_of_app; auto).
      by rewrite bool_decide_eq_false_2 by (rewrite elem_of_app; tauto).
    + (* right column left, left column right *)
      rewrite IHl. simpl. rewrite IHr. simpl.
      rewrite !bool_decide_eq_true_2 by (apply elem_of_app; auto).
      eexists _, _, (reversed cond). split_and!; try done; [by right|].
      simpl. by rewrite !app_assoc.
    + rewrite IHl. simpl. rewrite IHr. simpl.
      rewrite bool_decide_eq_false_2 by (rewrite elem_of_app; tauto).
      by rewrite bool_decide_eq_true_2 by (apply elem_of_app; auto).
    + (* both in the right subtree *)
      rewrite IHl. simpl.
      destruct IHr as (cond' & r' & c & -> & Hc & Hjc & Hsc & Hjt). simpl.
      rewrite !bool_decide_eq_true_2 by (apply elem_of_app; by right).
      exists cond', (JoinPlan tag l r' cs), c. simpl. split_and!; try done.
      * rewrite Hjc. rewrite <- !app_assoc. do 2 apply Permutation_app_head.
        apply Permutation_app_comm.
      * by rewrite Hsc.
    + rewrite IHl. simpl. rewrite IHr. simpl.
      rewrite bool_decide_eq_true_2 by (apply elem_of_app; auto).
      by rewrite bool_decide_eq_false_2 by (rewrite elem_of_app; tauto).
    + rewrite IHl. simpl. rewrite IHr. simpl.
      rewrite bool_decide_eq_false_2 by (rewrite elem_of_app; tauto).
      by rewrite bool_decide_eq_true_2 by (apply elem_of_app; auto).
    + rewrite IHl. simpl. rewrite IHr. simpl.
      by rewrite !bool_decide_eq_false_2 by (rewrite elem_of_app; tauto).
Qed.

(** ** The tables marked in [scantbl] *)

(** The entries of [xs] whose flag is not [-1], and those whose flag is. *)
Fixpoint scanned {A} (xs : list A) (flags : list Z) : list A :=
  match xs, flags with
  | x :: xs, flag :: flags =>
      if (flag =? -1)%Z then scanned xs flags else x :: scanned xs flags
  | _, _ => []
  end.

Fixpoint unscanned {A} (xs : list A) (flags : list Z) : list A :=
  match xs, flags with
  | x :: xs, flag :: flags =>
      if (flag =? -1)%Z then x :: unscanned xs flags else unscanned xs flags
  | _, _ => []
  end.

Lemma scanned_unscanned {A} (xs : list A) flags :
  length flags = length xs → scanned xs flags ++ unscanned xs flags ≡ₚ xs.
Proof.
  revert flags. induction xs as [|x xs IH]; intros [|flag flags] Hlen; try done.
  simpl in *. destruct (flag =? -1)%Z; simpl.
  - rewrite <- Permutation_middle. f_equiv. apply IH. lia.
  - f_equiv. apply IH. lia.
Qed.

Lemma scanned_fmap {A B} (f : A → B) (xs : list A) flags :
  f <$> scanned xs flags = scanned (f <$> xs) flags.
Proof.
  revert flags. induction xs as [|x xs IH]; intros [|flag flags]; try done.
  simpl. destruct (flag =? -1)%Z; simpl; by rewrite ?IH.
Qed.

Lemma scanned_replicate {A} (xs : list A) n : scanned xs (replicate n (-1)%Z) = [].
Proof.
  revert n. induction xs as [|x xs IH]; intros [|n]; try done. simpl. apply IH.
Qed.

Lemma scanned_insert {A} (xs : list A) flags j x :
  xs !! j = Some x → flags !! j = Some (-1)%Z →
  scanned xs (<[j := 1%Z]> flags) ≡ₚ x :: scanned xs flags.
Proof.
  revert flags j. induction xs as [|y xs IH]; intros [|flag flags] [|j]; try done;
    simpl.
  - by intros [= ->] [= ->].
  - intros Hx Hflag. destruct (flag =? -1)%Z; [by apply IH|].
    rewrite (IH _ _ Hx Hflag). apply perm_swap.
Qed.

Lemma scanned_sublist {A} (xs : list A) flags : scanned xs flags `sublist_of` xs.
Proof.
  revert flags. induction xs as [|x xs IH]; intros [|flag flags]; simpl;
    try done; [apply sublist_nil_l|].
  destruct (flag =? -1)%Z; [apply sublist_cons|apply sublist_skip]; apply IH.
Qed.

Lemma not_scanned_flag {A} (xs : list A) flags j x :
  NoDup xs → length flags = length xs → xs !! j = Some x →
  x ∉ scanned xs flags → flags !! j = Some (-1)%Z.
Proof.
  revert flags j. induction xs as [|y xs IH]; intros [|flag flags] [|j]; try done;
    simpl; intros [Hy Hxs]%NoDup_cons Hlen.
  - intros [= ->] Hnot. destruct (Z.eqb_spec flag (-1)); [by subst|].
    destruct Hnot. by left.
  - intros Hx Hnot. apply IH; [done|lia|done|].
    destruct (flag =? -1)%Z; [done|]. by apply not_elem_of_cons in Hnot as [_ ?].
Qed.

Lemma join_unscanned_scans tables tse flags p :
  scans_of tables tse →
  plan_scans (join_unscanned tse flags p) ≡ₚ unscanned tse flags ++ plan_scans p ∧
  join_conds (join_unscanned tse flags p) = join_conds p ∧
  (join_tree p → join_tree (join_unscanned tse flags p)).
Proof.
  intros Hscans. revert flags p.
  induction Hscans as [|t scan tables tse (tag & cs & ns & ->) _ IH];
    intros [|flag flags] p; try done.
  simpl. destruct (IH flags
    (if (flag =? -1)%Z then JoinPlan T_NestLoop (ScanPlan tag t cs ns) p [] else p))
    as (Hs & Hc & Ht).
  destruct (flag =? -1)%Z; simpl in *; [|done].
  split_and!.
  - rewrite Hs. by rewrite <- Permutation_middle.
  - rewrite Hc. by rewrite app_nil_r.
  - auto.
Qed.

Lemma pop_scan_at tables plans scantbl table joined_tables j :
  scans_of tables plans → tables !! j = Some table →
  (∀ j', j' < j → tables !! j' ≠ Some table) →
  pop_scan scantbl table joined_tables plans =
    Ok (<[j := 1%Z]> scantbl, joined_tables ++ [table], Some j).
Proof.
  intros Hscans Hj Hfirst.
  destruct (pop_scan_spec tables plans scantbl table joined_tables Hscans)
    as [[_ Hnot]|(j0 & -> & Hj0 & Hfirst0)].
  - destruct Hnot. by eapply list_elem_of_lookup_2.
  - destruct (Nat.lt_trichotomy j0 j) as [Hlt|[->|Hlt]]; [|done|].
    + by destruct (Hfirst j0 Hlt).
    + by destruct (Hfirst0 j Hlt).
Qed.

(** ** The join loop, case by case *)

(** One round of the loop of the joins of level 2 to n, for a
    condition between two different tables of the FROM list: a table
    not yet in [joined_tables] is taken from the scans and joins the
    tree from the left; when both are in, the condition is pushed down. *)
Lemma join_more_step_cases tables tse it scantbl jt tje :
  scans_of tables tse →
  tab_name (lhs_col it) ∈ tables → tab_name (rhs_col it) ∈ tables →
  tab_name (lhs_col it) ≠ tab_name (rhs_col it) →
  ∃ jl jr sl sr,
    tables !! jl = Some (tab_name (lhs_col it)) ∧
    tables !! jr = Some (tab_name (rhs_col it)) ∧
    tse !! jl = Some sl ∧ tse !! jr = Some sr ∧
    join_more_step tse it scantbl jt tje =
      Ok (if decide (tab_name (lhs_col it) ∈ jt)
          then
            if decide (tab_name (rhs_col it) ∈ jt)
            then ((push_conds it tje).2, scantbl, jt)
            else (JoinPlan T_NestLoop sr tje [reversed it],
                  <[jr := 1%Z]> scantbl, jt ++ [tab_name (rhs_col it)])
          else
            if decide (tab_name (rhs_col it) ∈ jt)
            then (JoinPlan T_NestLoop sl tje [it],
                  <[jl := 1%Z]> scantbl, jt ++ [tab_name (lhs_col it)])
            else (JoinPlan T_NestLoop (JoinPlan T_NestLoop sl sr [it]) tje [],
                  <[jr := 1%Z]> (<[jl := 1%Z]> scantbl),
                  (jt ++ [tab_name (lhs_col it)]) ++ [tab_name (rhs_col it)])).
Proof.
  intros Hscans Hl Hr Hne.
  destruct (first_index _ _ Hl) as (jl & Hjl & Hfl).
  destruct (first_index _ _ Hr) as (jr & Hjr & Hfr).
  destruct (Forall2_lookup_l _ _ _ _ _ Hscans Hjl) as (sl & Hsl & _).
  destruct (Forall2_lookup_l _ _ _ _ _ Hscans Hjr) as (sr & Hsr & _).
  exists jl, jr, sl, sr. split_and!; try done.
  unfold join_more_step.
  destruct (decide (tab_name (lhs_col it) ∈ jt)) as [Hin|Hout]; cbn [bind].
  - destruct (decide (tab_name (rhs_col it) ∈ jt)) as [Hin'|Hout']; cbn [bind].
    + done.
    + rewrite (pop_scan_at tables tse _ _ _ jr Hscans Hjr Hfr). cbn [bind].
      unfold deref. rewrite Hsr. done.
  - rewrite (pop_scan_at tables tse _ _ _ jl Hscans Hjl Hfl). cbn [bind].
    destruct (decide (tab_name (rhs_col it) ∈ jt ++ [tab_name (lhs_col it)]))
      as [Hin'|Hout'], (decide (tab_name (rhs_col it) ∈ jt)) as [Hin''|Hout''];
      cbn [bind].
    + unfold deref. by rewrite Hsl.
    + apply elem_of_app in Hin' as [?|?%list_elem_of_singleton]; [done|congruence].
    + destruct Hout'. apply elem_of_app. by left.
    + rewrite (pop_scan_at tables tse _ _ _ jr Hscans Hjr Hfr). cbn [bind].
      unfold deref. by rewrite Hsl, Hsr.
Qed.

Lemma unscanned_fmap {A B} (f : A → B) (xs : list A) flags :
  f <$> unscanned xs flags = unscanned (f <$> xs) flags.
Proof.
  revert flags. induction xs as [|x xs IH]; intros [|flag flags]; try done.
  simpl. destruct (flag =? -1)%Z; simpl; by rewrite ?IH.
Qed.

Lemma scans_of_tables tables tse :
  scans_of tables tse → scan_table <$> tse = tables.
Proof.
  induction 1 as [|t scan tables tse (tag & cs & ns & ->) _ IH]; [done|].
  by rewrite fmap_cons, IH.
Qed.

Lemma scans_of_lookup tables tse j t scan :
  scans_of tables tse → tables !! j = Some t → tse !! j = Some scan →
  ∃ tag cs ns, scan = ScanPlan tag t cs ns.
Proof.
  intros Hscans Ht Hscan.
  destruct (Forall2_lookup_l _ _ _ _ _ Hscans Ht) as (scan' & Hscan' & Hs).
  rewrite Hscan in Hscan'. by injection Hscan' as <-.
Qed.

(** The same condition, as the join loop may rewrite it: with its two
    sides swapped, and the operator kept or mirrored. *)
Definition same_cond (c c' : Condition) : Prop :=
  c' = c ∨ c' = swap_cols c ∨ c' = reversed c.

(** The scans of the tree, seen through [f], are those marked in
    [scantbl]. *)
Definition accounted {K} (f : Plan → K) (tse : list Plan) (plan : Plan)
    (scantbl : list Z) : Prop :=
  f <$> plan_scans plan ≡ₚ scanned (f <$> tse) scantbl.

(** The invariant of the join loops: the tree scans the tables marked
    in [scantbl], and [joined_tables] names them (after the empty
    strings it starts with). *)
Definition joined (tables : list string) (tse : list Plan) (plan : Plan)
    (scantbl : list Z) (jt : list string) : Prop :=
  join_tree plan ∧ length scantbl = length tables ∧
  accounted scan_table tse plan scantbl ∧
  (∀ t, t ∈ plan_tables plan → t ∈ jt) ∧
  (∀ t, t ∈ jt → t ∈ plan_tables plan ∨ t = EmptyString).

Lemma joined_NoDup tables tse plan scantbl jt :
  NoDup tables → scans_of tables tse → joined tables tse plan scantbl jt →
  NoDup (plan_tables plan).
Proof.
  intros Hnodup Hscans (_ & _ & Hacc & _). unfold accounted in Hacc.
  rewrite plan_tables_scans, Hacc, (scans_of_tables _ _ Hscans).
  eapply sublist_NoDup; [exact Hnodup|apply scanned_sublist].
Qed.

Lemma joined_flag tables tse plan scantbl jt j t :
  NoDup tables → scans_of tables tse → joined tables tse plan scantbl jt →
  tables !! j = Some t → t ∉ jt → scantbl !! j = Some (-1)%Z.
Proof.
  intros Hnodup Hscans (_ & Hlen & Hacc & Hin & _) Ht Hnot.
  eapply not_scanned_flag; [done..|].
  unfold accounted in Hacc. rewrite (scans_of_tables _ _ Hscans) in Hacc.
  rewrite <- Hacc, <- plan_tables_scans. intros Hplan. by apply Hnot, Hin.
Qed.

Lemma accounted_insert {K} (f : Plan → K) tse plan scantbl j scan plan' :
  accounted f tse plan scantbl →
  tse !! j = Some scan → scantbl !! j = Some (-1)%Z →
  plan_scans plan' ≡ₚ scan :: plan_scans plan →
  accounted f tse plan' (<[j := 1%Z]> scantbl).
Proof.
  unfold accounted. intros Hacc Hscan Hflag ->.
  rewrite scanned_insert; [|by rewrite list_lookup_fmap, Hscan|done].
  rewrite fmap_cons. by f_equiv.
Qed.

Lemma push_conds_keeps_scans cond p :
  join_tree p → NoDup (plan_tables p) →
  tab_name (lhs_col cond) ≠ tab_name (rhs_col cond) →
  plan_scans (push_conds cond p).2 = plan_scans p ∧ join_tree (push_conds cond p).2 ∧
  (tab_name (lhs_col cond) ∈ plan_tables p → tab_name (rhs_col cond) ∈ plan_tables p →
   ∃ c, (c = cond ∨ c = reversed cond) ∧
        join_conds (push_conds cond p).2 ≡ₚ join_conds p ++ [c]).
Proof.
  intros Htree Hnodup Hne. pose proof (push_conds_result cond p Htree Hnodup Hne) as Hres.
  destruct (decide (tab_name (lhs_col cond) ∈ plan_tables p)) as [Hl|Hl],
           (decide (tab_name (rhs_col cond) ∈ plan_tables p)) as [Hr|Hr];
    rewrite ?(bool_decide_eq_true_2 _ Hl), ?(bool_decide_eq_false_2 _ Hl),
            ?(bool_decide_eq_true_2 _ Hr), ?(bool_decide_eq_false_2 _ Hr) in Hres.
  - destruct Hres as (cond' & p' & c & -> & Hc & Hjc & Hsc & Hjt). simpl.
    split_and!; try done. intros _ _. by exists c.
  - rewrite Hres. simpl. split_and!; done.
  - rewrite Hres. simpl. split_and!; done.
  - rewrite Hres. simpl. split_and!; done.
Qed.

Lemma join_more_step_joined tables tse it scantbl jt tje :
  NoDup tables → scans_of tables tse → joined tables tse tje scantbl jt →
  tab_name (lhs_col it) ∈ tables → tab_name (rhs_col it) ∈ tables →
  tab_name (lhs_col it) ≠ tab_name (rhs_col it) →
  ∃ p s' j',
    join_more_step tse it scantbl jt tje = Ok (p, s', j') ∧
    joined tables tse p s' j' ∧
    (∀ K (f : Plan → K), accounted f tse tje scantbl → accounted f tse p s') ∧
    (EmptyString ∉ tables →
     ∃ c, same_cond it c ∧ join_conds p ≡ₚ join_conds tje ++ [c]).
Proof.
  intros Hnodup Hscans Hjoined Hl Hr Hne.
  destruct (join_more_step_cases tables tse it scantbl jt tje Hscans Hl Hr Hne)
    as (jl & jr & sl & sr & Hjl & Hjr & Hsl & Hsr & Hstep).
  destruct (scans_of_lookup _ _ _ _ _ Hscans Hjl Hsl) as (tagl & csl & nsl & ->).
  destruct (scans_of_lookup _ _ _ _ _ Hscans Hjr Hsr) as (tagr & csr & nsr & ->).
  pose proof (joined_NoDup _ _ _ _ _ Hnodup Hscans Hjoined) as Hnd.
  pose proof (joined_flag _ _ _ _ _ jl _ Hnodup Hscans Hjoined Hjl) as Hfl.
  pose proof (joined_flag _ _ _ _ _ jr _ Hnodup Hscans Hjoined Hjr) as Hfr.
  assert (jl ≠ jr) as Hjne by (intros ->; congruence).
  destruct Hjoined as (Htree & Hlen & Hacc & Hin & Hout).
  rewrite Hstep.
  destruct (decide (tab_name (lhs_col it) ∈ jt)) as [Hlj|Hlj],
           (decide (tab_name (rhs_col it) ∈ jt)) as [Hrj|Hrj];
    (eexists _, _, _; split; [done|]).
  - destruct (push_conds_keeps_scans it tje Htree Hnd Hne) as (Hsc & Hjt & Hattach).
    split_and!.
    + unfold joined, accounted. rewrite !plan_tables_scans, Hsc.
      by rewrite !plan_tables_scans in Hin, Hout.
    + intros K f. unfold accounted. by rewrite Hsc.
    + intros Hempty.
      destruct Hattach as (c & Hc & Hjc).
      * destruct (Hout _ Hlj) as [?|Heq]; [done|]. destruct Hempty. by rewrite <- Heq.
      * destruct (Hout _ Hrj) as [?|Heq]; [done|]. destruct Hempty. by rewrite <- Heq.
      * exists c. split; [|done]. unfold same_cond. tauto.
  - specialize (Hfr Hrj). split_and!.
    + unfold joined. simpl. split_and!; try done.
      * by rewrite length_insert.
      * by eapply accounted_insert.
      * intros t [-> |Ht]%elem_of_cons; apply elem_of_app; [right; by left|left; auto].
      * intros t [Ht| ->%list_elem_of_singleton]%elem_of_app.
        -- destruct (Hout _ Ht); [left; by right|by right].
        -- left. by left.
    + intros K f Haccf. by eapply accounted_insert.
    + intros _. exists (reversed it). split; [unfold same_cond; tauto|done].
  - specialize (Hfl Hlj). split_and!.
    + unfold joined. simpl. split_and!; try done.
      * by rewrite length_insert.
      * by eapply accounted_insert.
      * intros t [-> |Ht]%elem_of_cons; apply elem_of_app; [right; by left|left; auto].
      * intros t [Ht| ->%list_elem_of_singleton]%elem_of_app.
        -- destruct (Hout _ Ht); [left; by right|by right].
        -- left. by left.
    + intros K f Haccf. by eapply accounted_insert.
    + intros _. exists it. split; [unfold same_cond; tauto|done].
  - specialize (Hfl Hlj). specialize (Hfr Hrj).
    assert (∀ K (f : Plan → K), accounted f tse tje scantbl →
      accounted f tse
        (JoinPlan T_NestLoop
           (JoinPlan T_NestLoop (ScanPlan tagl (tab_name (lhs_col it)) csl nsl)
              (ScanPlan tagr (tab_name (rhs_col it)) csr nsr) [it]) tje [])
        (<[jr := 1%Z]> (<[jl := 1%Z]> scantbl))) as Hboth.
    { intros K f Haccf.
      eapply (accounted_insert f tse
                (JoinPlan T_NestLoop (ScanPlan tagl (tab_name (lhs_col it)) csl nsl)
                   tje [])); [|done| |].
      - by eapply accounted_insert.
      - by rewrite list_lookup_insert_ne.
      - simpl. apply perm_swap. }
    split_and!.
    + unfold joined. simpl. split_and!; try done.
      * by rewrite !length_insert.
      * by apply Hboth.
      * intros t [-> |[-> |Ht]%elem_of_cons]%elem_of_cons; rewrite !elem_of_app;
          [left; right; by left|right; by left|left; left; auto].
      * intros t [[Ht| ->%list_elem_of_singleton]%elem_of_app
                 | ->%list_elem_of_singleton]%elem_of_app.
        -- destruct (Hout _ Ht); [left; right; by right|by right].
        -- left. by left.
        -- left. right. by left.
    + done.
    + intros _. exists it. split; [unfold same_cond; tauto|]. simpl.
      rewrite app_nil_r. apply Permutation_cons_append.
Qed.

Lemma join_more_joined tables tse conds scantbl jt tje :
  NoDup tables → scans_of tables tse → joined tables tse tje scantbl jt →
  (∀ c, c ∈ conds →
     tab_name (lhs_col c) ∈ tables ∧ tab_name (rhs_col c) ∈ tables ∧
     tab_name (lhs_col c) ≠ tab_name (rhs_col c)) →
  ∃ p s' j',
    join_more tse conds scantbl jt tje = Ok (p, s', j') ∧
    joined tables tse p s' j' ∧
    (∀ K (f : Plan → K), accounted f tse tje scantbl → accounted f tse p s') ∧
    (EmptyString ∉ tables →
     ∃ cs, Forall2 same_cond conds cs ∧ join_conds p ≡ₚ join_conds tje ++ cs).
Proof.
  intros Hnodup Hscans. revert scantbl jt tje.
  induction conds as [|it rest IH]; intros scantbl jt tje Hjoined Hrefs.
  { eexists _, _, _. split; [done|]. split_and!; try done.
    intros _. exists []. split; [constructor|]. by rewrite app_nil_r. }
  destruct (Hrefs it ltac:(by left)) as (Hl & Hr & Hne).
  destruct (join_more_step_joined tables tse it scantbl jt tje Hnodup Hscans Hjoined
              Hl Hr Hne) as (p1 & s1 & j1 & Hstep & Hjoined1 & Hacc1 & Hconds1).
  destruct (IH s1 j1 p1 Hjoined1) as (p & s' & j' & Hmore & Hjoined' & Hacc' & Hconds').
  { intros c Hc. apply Hrefs. by right. }
  exists p, s', j'. simpl. rewrite Hstep. simpl. split; [done|]. split_and!; try done.
  - intros K f Hacc. by apply Hacc', Hacc1.
  - intros Hempty. destruct (Hconds1 Hempty) as (c & Hc & Hjc).
    destruct (Hconds' Hempty) as (cs & Hcs & Hjcs).
    exists (c :: cs). split; [by constructor|].
    rewrite Hjcs, Hjc. by rewrite <- app_assoc.
Qed.

(** The first join, for a condition between two different tables of
    the FROM list: both tables are taken from the scans. *)
Lemma first_join_cases db nl sm tables tse scantbl jt it p s' j' :
  scans_of tables tse →
  tab_name (lhs_col it) ∈ tables → tab_name (rhs_col it) ∈ tables →
  tab_name (lhs_col it) ≠ tab_name (rhs_col it) →
  first_join db nl sm tse scantbl jt it = Ok (p, s', j') →
  ∃ jl jr sl sr,
    tables !! jl = Some (tab_name (lhs_col it)) ∧
    tables !! jr = Some (tab_name (rhs_col it)) ∧
    tse !! jl = Some sl ∧ tse !! jr = Some sr ∧
    s' = <[jr := 1%Z]> (<[jl := 1%Z]> scantbl) ∧
    j' = (jt ++ [tab_name (lhs_col it)]) ++ [tab_name (rhs_col it)] ∧
    join_tree p ∧
    plan_tables p ≡ₚ [tab_name (lhs_col it); tab_name (rhs_col it)] ∧
    (nl = true →
     plan_scans p ≡ₚ [sl; sr] ∧ ∃ c, same_cond it c ∧ join_conds p = [c]).
Proof.
  intros Hscans Hl Hr Hne.
  destruct (first_index _ _ Hl) as (jl & Hjl & Hfl).
  destruct (first_index _ _ Hr) as (jr & Hjr & Hfr).
  destruct (Forall2_lookup_l _ _ _ _ _ Hscans Hjl) as (sl & Hsl & _).
  destruct (Forall2_lookup_l _ _ _ _ _ Hscans Hjr) as (sr & Hsr & _).
  destruct (scans_of_lookup _ _ _ _ _ Hscans Hjl Hsl) as (tagl & csl & nsl & ->).
  destruct (scans_of_lookup _ _ _ _ _ Hscans Hjr Hsr) as (tagr & csr & nsr & ->).
  unfold first_join.
  rewrite (pop_scan_at tables tse _ _ _ jl Hscans Hjl Hfl). cbn [bind].
  rewrite (pop_scan_at tables tse _ _ _ jr Hscans Hjr Hfr). cbn [bind].
  destruct (at_ tse 1) as [scan1|]; [|done]. cbn [bind].
  intros Hrun. eexists jl, jr, _, _. do 4 (split; [done|]).
  destruct (decide (Some jl = Some 1 ∧ Some jr = Some 0)) as [Hswap|Hswap];
    unfold deref in Hrun; rewrite Hsl, Hsr in Hrun; simpl in Hrun;
    destruct nl, sm; simpl in Hrun; try done;
    repeat match type of Hrun with
           | context [get_index_cols ?a ?b ?c ?d] =>
               destruct (get_index_cols a b c d) as [[[? ?] ?]|]; [|done];
               cbn [bind] in Hrun
           end;
    try match type of Hrun with
        | context [?a && ?b] => destruct (a && b)
        end;
    injection Hrun as <- <- <-; simpl;
    (split_and!; try done; try apply perm_swap);
    intros _; (split; [by try apply perm_swap|]); eexists; (split; [|done]);
    unfold same_cond; tauto.
Qed.

(** ** What [make_one_rel] builds *)

Lemma make_scans_conds db tables conds scans conds' :
  distinct_keys db →
  make_scans db tables conds = Ok (scans, conds') →
  mjoin (scan_node_conds <$> scans) ++ conds' ≡ₚ conds.
Proof.
  intros Hdb. revert conds scans conds'.
  induction tables as [|t rest IH]; intros conds scans conds'; simpl.
  { by intros [= <- <-]. }
  rewrite pop_conds_spec.
  destruct (get_index_cols db t _ []) as [[[found curr] names]|] eqn:Hget; simpl; [|done].
  destruct (make_scans db rest _) as [[scans' conds'']|] eqn:Hrest; simpl; [|done].
  intros [= <- <-]. apply IH in Hrest.
  apply (get_index_cols_Permutation db t _ [] found curr names Hdb) in Hget.
  rewrite fmap_cons. simpl.
  assert (scan_node_conds
            (if found then ScanPlan T_IndexScan t curr names
             else ScanPlan T_SeqScan t curr []) = curr) as -> by (by destruct found).
  rewrite <- app_assoc, Hrest, Hget. apply filter_app_complement.
Qed.

Lemma join_unscanned_accounts {K} (f : Plan → K) tables tse plan scantbl :
  scans_of tables tse → length scantbl = length tables →
  accounted f tse plan scantbl →
  f <$> plan_scans (join_unscanned tse scantbl plan) ≡ₚ f <$> tse.
Proof.
  intros Hscans Hlen Hacc.
  destruct (join_unscanned_scans tables tse scantbl plan Hscans) as (-> & _ & _).
  unfold accounted in Hacc.
  rewrite fmap_app, Hacc, unscanned_fmap, Permutation_app_comm.
  apply scanned_unscanned. rewrite length_fmap, Hlen.
  by apply Forall2_length in Hscans.
Qed.

(** The conditions left for the joins are between two different tables
    of the FROM list. *)
Lemma make_scans_join_conds db query tse cs :
  tables_known query → tables query ≠ [] →
  make_scans db (tables query) (conds query) = Ok (tse, cs) →
  ∀ c, c ∈ cs →
    tab_name (lhs_col c) ∈ tables query ∧ tab_name (rhs_col c) ∈ tables query ∧
    tab_name (lhs_col c) ≠ tab_name (rhs_col c).
Proof.
  intros Hknown Hsome Hms c Hc. apply make_scans_spec in Hms as [_ Hcs].
  destruct (Hcs c Hc) as [Hin Hpop]. destruct (Hknown c Hin) as [Hl Hr].
  specialize (Hpop _ Hl). unfold popped in Hpop.
  rewrite String.eqb_refl in Hpop. simpl in Hpop.
  apply orb_false_iff in Hpop as [Hval Hsame].
  split_and!; [done|by apply Hr|]. by apply String.eqb_neq in Hsame.
Qed.

Lemma make_one_rel_accounts db nl sm query plan query' :
  NoDup (tables query) → tables_known query →
  make_one_rel db nl sm query = Ok (plan, query') →
  ∃ tse cs,
    make_scans db (tables query) (conds query) = Ok (tse, cs) ∧
    join_tree plan ∧ plan_tables plan ≡ₚ tables query ∧
    conds query' = [] ∧
    (nl = true → EmptyString ∉ tables query →
     plan_scans plan ≡ₚ tse ∧
     ∃ cs', Forall2 same_cond cs cs' ∧ join_conds plan ≡ₚ cs').
Proof.
  intros Hnodup Hknown. unfold make_one_rel.
  destruct (make_scans db (tables query) (conds query)) as [[tse cs]|] eqn:Hms;
    simpl; [|done].
  pose proof Hms as Hscans. apply make_scans_spec in Hscans as [Hscans _].
  pose proof (Forall2_length _ _ _ Hscans) as Hlen.
  assert (tables query ≠ [] → ∀ c, c ∈ cs →
            tab_name (lhs_col c) ∈ tables query ∧
            tab_name (rhs_col c) ∈ tables query ∧
            tab_name (lhs_col c) ≠ tab_name (rhs_col c)) as Hrefs.
  { intros Hsome. by eapply make_scans_join_conds. }
  intros Hrun. exists tse, cs. split; [done|].
  case_decide as Hone.
  { (* one table *)
    destruct (tables query) as [|t [|? ?]] eqn:Htables; try done.
    apply Forall2_cons_inv_l in Hscans as (scan & tse' & (tag & cs0 & ns & ->) & Hnil & ->).
    apply Forall2_nil_inv_l in Hnil as ->. simpl in Hrun. injection Hrun as <- <-.
    assert (cs = []) as ->.
    { destruct cs as [|c cs]; [done|].
      assert ([t] ≠ []) as Hsome by done.
      destruct (Hrefs Hsome c) as (Hl & Hr & Hne); [by left|].
      apply list_elem_of_singleton in Hl, Hr. congruence. }
    simpl. split_and!; try done. intros _ _. split; [done|]. by exists []. }
  destruct cs as [|it rest].
  - (* no join condition *)
    unfold at_ in Hrun. destruct (tse !! 0) as [scan|] eqn:H0; simpl in Hrun; [|done].
    injection Hrun as <- <-.
    destruct (tables query) as [|t0 tables'] eqn:Htables;
      [by apply Forall2_nil_inv_l in Hscans as ->|].
    rewrite <- Htables in *.
    assert (tables query !! 0 = Some t0) as Ht0 by (by rewrite Htables).
    destruct (scans_of_lookup _ _ _ _ _ Hscans Ht0 H0) as (tag & cs0 & ns & ->).
    assert (∀ K (f : Plan → K),
              accounted f tse (ScanPlan tag t0 cs0 ns)
                (<[0 := 1%Z]> (replicate (length (tables query)) (-1)%Z))) as Hacc.
    { intros K f. unfold accounted.
      rewrite scanned_insert;
        [|by rewrite list_lookup_fmap, H0|rewrite Htables; done].
      by rewrite scanned_replicate. }
    destruct (join_unscanned_scans (tables query) tse
                (<[0 := 1%Z]> (replicate (length (tables query)) (-1)%Z))
                (ScanPlan tag t0 cs0 ns) Hscans) as (_ & Hjc & Hjt).
    split_and!; try done.
    + by apply Hjt.
    + rewrite plan_tables_scans.
      etrans; [eapply join_unscanned_accounts; [done| |apply Hacc]|].
      * by rewrite length_insert, length_replicate.
      * by rewrite (scans_of_tables _ _ Hscans).
    + intros _ _. split.
      * assert (length (<[0 := 1%Z]> (replicate (length (tables query)) (-1)%Z)) =
                length (tables query)) as Hlen0
          by (by rewrite length_insert, length_replicate).
        pose proof (join_unscanned_accounts id (tables query) tse _ _ Hscans
                      Hlen0 (Hacc _ id)) as Hfin.
        by rewrite !list_fmap_id in Hfin.
      * exists []. split; [constructor|]. by rewrite Hjc.
  - (* the join loops *)
    assert (tables query ≠ []) as Hsome.
    { intros Hnil. rewrite Hnil in Hscans. apply Forall2_nil_inv_l in Hscans as ->.
      by simpl in Hrun. }
    specialize (Hrefs Hsome).
    destruct (Hrefs it ltac:(by left)) as (Hl & Hr & Hne).
    destruct (first_join db nl sm tse _ _ it) as [[[p1 s1] j1]|] eqn:Hfirst;
      simpl in Hrun; [|done].
    destruct (first_join_cases db nl sm (tables query) tse _ _ it p1 s1 j1
                Hscans Hl Hr Hne Hfirst)
      as (jl & jr & sl & sr & Hjl & Hjr & Hsl & Hsr & -> & -> & Htree1 & Htab1 & Hnl).
    assert (jl ≠ jr) as Hjne by (intros ->; congruence).
    pose proof (lookup_lt_Some _ _ _ Hjl) as Hltl.
    pose proof (lookup_lt_Some _ _ _ Hjr) as Hltr.
    assert (∀ K (f : Plan → K), f <$> plan_scans p1 ≡ₚ [f sl; f sr] →
              accounted f tse p1
                (<[jr := 1%Z]> (<[jl := 1%Z]>
                   (replicate (length (tables query)) (-1)%Z)))) as Hacc1.
    { intros K f Hf. unfold accounted.
      rewrite scanned_insert;
        [|by rewrite list_lookup_fmap, Hsr
         |by rewrite list_lookup_insert_ne, lookup_replicate_2].
      rewrite scanned_insert;
        [|by rewrite list_lookup_fmap, Hsl|by rewrite lookup_replicate_2].
      rewrite scanned_replicate, Hf. apply perm_swap. }
    destruct (scans_of_lookup _ _ _ _ _ Hscans Hjl Hsl) as (tagl & csl & nsl & ->).
    destruct (scans_of_lookup _ _ _ _ _ Hscans Hjr Hsr) as (tagr & csr & nsr & ->).
    assert (joined (tables query) tse p1
              (<[jr := 1%Z]> (<[jl := 1%Z]>
                 (replicate (length (tables query)) (-1)%Z)))
              ((replicate (length (tables query)) EmptyString ++
                [tab_name (lhs_col it)]) ++ [tab_name (rhs_col it)])) as Hjoined1.
    { unfold joined. split_and!; try done.
      - by rewrite !length_insert, length_replicate.
      - apply Hacc1. by rewrite <- plan_tables_scans.
      - intros t Ht. rewrite Htab1 in Ht. rewrite !elem_of_app.
        apply elem_of_cons in Ht as [->|Ht]; [left; right; by left|by right].
      - intros t. rewrite Htab1, !elem_of_app.
        intros [[[-> _]%elem_of_replicate|Ht]|Ht]; [by right|left..].
        + apply list_elem_of_singleton in Ht as ->. by left.
        + by right. }
    destruct (join_more_joined (tables query) tse rest _ _ p1 Hnodup Hscans Hjoined1)
      as (p2 & s2 & j2 & Hmore & Hjoined2 & Hacc2 & Hconds2).
    { intros c Hc. apply Hrefs. by right. }
    rewrite Hmore in Hrun. simpl in Hrun. injection Hrun as <- <-.
    destruct Hjoined2 as (Htree2 & Hlen2 & Htab2 & _).
    destruct (join_unscanned_scans (tables query) tse s2 p2 Hscans) as (_ & Hjc & Hjt).
    split_and!; try done.
    + by apply Hjt.
    + rewrite plan_tables_scans.
      etrans; [by eapply join_unscanned_accounts|].
      by rewrite (scans_of_tables _ _ Hscans).
    + intros -> Hempty. destruct (Hnl eq_refl) as (Hs1 & c & Hc & Hjc1). split.
      * assert (accounted id tse p2 s2) as Haccid.
        { apply Hacc2, Hacc1. by rewrite list_fmap_id. }
        pose proof (join_unscanned_accounts id (tables query) tse _ _ Hscans
                      Hlen2 Haccid) as Hfin.
        by rewrite !list_fmap_id in Hfin.
      * destruct (Hconds2 Hempty) as (cs' & Hcs' & Hjc2).
        exists (c :: cs'). split; [by constructor|]. by rewrite Hjc, Hjc2, Hjc1.
Qed.

(** The conditions a plan holds on its scan nodes. *)
Definition scan_level_conds (p : Plan) : list Condition :=
  mjoin (scan_node_conds <$> plan_scans p).

(** X12.  [push_conds] returns 3 and puts the condition on one join node
    exactly when the tree scans both tables of the condition; the
    condition is stored as it is or with its sides and operator
    reversed.  Otherwise the code is 0, 1 or 2 by the tables found, and
    the tree and the condition are as before.  Scan nodes are never
    changed. *)
Theorem push_conds_attaches_where_both_tables_meet cond p :
  join_tree p → NoDup (plan_tables p) →
  tab_name (lhs_col cond) ≠ tab_name (rhs_col cond) →
  let in_l := bool_decide (tab_name (lhs_col cond) ∈ plan_tables p) in
  let in_r := bool_decide (tab_name (rhs_col cond) ∈ plan_tables p) in
  (push_conds cond p).1.1 =
    (if in_l && in_r then 3 else if in_l then 1 else if in_r then 2 else 0)%Z ∧
  plan_scans (push_conds cond p).2 = plan_scans p ∧
  (if in_l && in_r
   then ∃ c, (c = cond ∨ c = reversed cond) ∧
             join_conds (push_conds cond p).2 ≡ₚ join_conds p ++ [c]
   else (push_conds cond p).2 = p ∧ (push_conds cond p).1.2 = cond).
Proof.
  intros Htree Hnodup Hne. simpl.
  pose proof (push_conds_result cond p Htree Hnodup Hne) as Hres.
  destruct (bool_decide (tab_name (lhs_col cond) ∈ plan_tables p)),
           (bool_decide (tab_name (rhs_col cond) ∈ plan_tables p)); simpl.
  - destruct Hres as (cond' & p' & c & -> & Hc & Hjc & Hsc & _). simpl.
    split_and!; try done. by exists c.
  - by rewrite Hres.
  - by rewrite Hres.
  - by rewrite Hres.
Qed.

Lemma push_conds_attaches_where_both_tables_meet_witness :
  let cond := col_cond "t2" "x" OP_LT "t1" "y" in
  let p := JoinPlan T_NestLoop (ScanPlan T_SeqScan "t1" [] [])
             (ScanPlan T_SeqScan "t2" [] []) [] in
  let in_l := bool_decide (tab_name (lhs_col cond) ∈ plan_tables p) in
  let in_r := bool_decide (tab_name (rhs_col cond) ∈ plan_tables p) in
  (push_conds cond p).1.1 =
    (if in_l && in_r then 3 else if in_l then 1 else if in_r then 2 else 0)%Z ∧
  plan_scans (push_conds cond p).2 = plan_scans p ∧
  (if in_l && in_r
   then ∃ c, (c = cond ∨ c = reversed cond) ∧
             join_conds (push_conds cond p).2 ≡ₚ join_conds p ++ [c]
   else (push_conds cond p).2 = p ∧ (push_conds cond p).1.2 = cond).
Proof.
  apply (push_conds_attaches_where_both_tables_meet
           (col_cond "t2" "x" OP_LT "t1" "y")
           (JoinPlan T_NestLoop (ScanPlan T_SeqScan "t1" [] [])
              (ScanPlan T_SeqScan "t2" [] []) [])).
  - by simpl.
  - by apply (bool_decide_unpack _).
  - discriminate.
Defined.

(** X13.  Every table of the FROM list is scanned once: the plan of a SELECT
    over distinct tables, whose conditions name tables of the FROM
    list, is a tree of joins over exactly one scan of each table,
    whatever join executors are enabled. *)
Theorem plan_scans_each_table_once db nl sm interp query plan :
  NoDup (tables query) → tables_known query →
  (∃ has_sort order, parse query = SelectStmt has_sort order) →
  do_planner db nl sm interp query = Ok plan →
  plan_tables plan ≡ₚ tables query ∧
  ∃ rel query',
    make_one_rel db nl sm query = Ok (rel, query') ∧
    join_tree rel ∧ plan_scans plan = plan_scans rel.
Proof.
  intros Hnodup Hknown (has_sort & order & Hparse). unfold do_planner.
  rewrite Hparse. simpl.
  unfold generate_select_plan, physical_optimization, logical_optimization.
  destruct (make_one_rel db nl sm query) as [[p q']|] eqn:Hrel; simpl; [|done].
  destruct (make_one_rel_accounts db nl sm query p q' Hnodup Hknown Hrel)
    as (tse & cs & _ & Htree & Htables & _).
  assert (plan_scans (generate_aggregation_group_plan q' p) = plan_scans p) as Hagg.
  { unfold generate_aggregation_group_plan. by destruct (_ && _). }
  destruct (generate_sort_plan db q' _) as [sorted|] eqn:Hsort; simpl; [|done].
  intros [= <-].
  assert (plan_scans sorted = plan_scans p) as Hsorted.
  { unfold generate_sort_plan in Hsort.
    destruct (parse q'); try done. destruct (negb has_sort0).
    { by injection Hsort as <-. }
    destruct (collect_cols db (tables q') []); simpl in Hsort; [|done].
    destruct order0; [|done]. by injection Hsort as <-. }
  split.
  - rewrite plan_tables_scans. simpl. by rewrite Hsorted, <- plan_tables_scans.
  - by exists p, q'.
Qed.

Lemma plan_scans_each_table_once_witness :
  plan_tables three_way_plan ≡ₚ tables three_way_query ∧
  ∃ rel query',
    make_one_rel three_way_db true false three_way_query = Ok (rel, query') ∧
    join_tree rel ∧ plan_scans three_way_plan = plan_scans rel.
Proof.
  apply (plan_scans_each_table_once three_way_db true false (λ _, TYPE_INT)
           three_way_query three_way_plan).
  - by apply (bool_decide_unpack _).
  - apply three_way_query_tables_known.
  - by eexists _, _.
  - vm_compute. reflexivity.
Defined.

(** X14.  With the nested-loop join enabled, no condition of the WHERE clause
    is lost or doubled on the way into the plan: the conditions on the
    scan nodes are conditions of the query as they were written, and
    the conditions on the join nodes are the others, each once, with
    its sides swapped or not.  The scans are those built for the
    tables, and [query->conds] is left empty. *)
Theorem make_one_rel_keeps_conditions db sm query plan query' :
  distinct_keys db → NoDup (tables query) → tables_known query →
  EmptyString ∉ tables query →
  make_one_rel db true sm query = Ok (plan, query') →
  ∃ local joins joins',
    conds query ≡ₚ local ++ joins ∧
    scan_level_conds plan ≡ₚ local ∧
    Forall2 same_cond joins joins' ∧
    join_conds plan ≡ₚ joins' ∧
    conds query' = [].
Proof.
  intros Hdb Hnodup Hknown Hempty Hrel.
  destruct (make_one_rel_accounts db true sm query plan query' Hnodup Hknown Hrel)
    as (tse & cs & Hms & _ & _ & Hleft & Hnl).
  destruct (Hnl eq_refl Hempty) as (Hscans & cs' & Hcs' & Hjc).
  exists (mjoin (scan_node_conds <$> tse)), cs, cs'. split_and!; try done.
  - symmetry. by eapply make_scans_conds.
  - unfold scan_level_conds. by rewrite Hscans.
Qed.

Lemma make_one_rel_keeps_conditions_witness :
  ∃ local joins joins',
    conds three_way_query ≡ₚ local ++ joins ∧
    scan_level_conds
      (JoinPlan T_NestLoop (ScanPlan T_SeqScan "t3" [] [])
         (JoinPlan T_NestLoop (ScanPlan T_SeqScan "t1" [] [])
            (ScanPlan T_SeqScan "t2" [] [])
            [col_cond "t1" "x" OP_EQ "t2" "y"; col_cond "t1" "y" OP_GT "t2" "x"])
         [col_cond "t3" "z" OP_GT "t1" "x"]) ≡ₚ local ∧
    Forall2 same_cond joins joins' ∧
    join_conds
      (JoinPlan T_NestLoop (ScanPlan T_SeqScan "t3" [] [])
         (JoinPlan T_NestLoop (ScanPlan T_SeqScan "t1" [] [])
            (ScanPlan T_SeqScan "t2" [] [])
            [col_cond "t1" "x" OP_EQ "t2" "y"; col_cond "t1" "y" OP_GT "t2" "x"])
         [col_cond "t3" "z" OP_GT "t1" "x"]) ≡ₚ joins' ∧
    conds (set_conds three_way_query []) = [].
Proof.
  apply (make_one_rel_keeps_conditions three_way_db false three_way_query).
  - apply three_way_db_distinct_keys.
  - by apply (bool_decide_unpack _).
  - apply three_way_query_tables_known.
  - by apply (bool_decide_unpack _).
  - vm_compute. reflexivity.
Defined.

(** ** The nodes [make_one_rel] makes *)

(** Every plan of [make_one_rel] is made of the scans of the tables,
    nested-loop and sort-merge joins of plans, sort-merge joins of two
    new index scans without conditions, and [push_conds]. *)
Lemma make_one_rel_nodes (Q : Plan → Prop) db nl sm query plan query' :
  (∀ tag t cs ns, Q (ScanPlan tag t cs ns)) → Q NullPlan →
  (∀ l r cs, Q l → Q r → Q (JoinPlan T_NestLoop l r cs)) →
  (∀ l r cs, Q l → Q r → Q (JoinPlan T_SortMerge l r cs)) →
  (∀ t1 n1 t2 n2 cs,
     Q (JoinPlan T_SortMergeWithIndex (ScanPlan T_IndexScan t1 [] n1)
          (ScanPlan T_IndexScan t2 [] n2) cs)) →
  (∀ c p, Q p → Q (push_conds c p).2) →
  make_one_rel db nl sm query = Ok (plan, query') → Q plan.
Proof.
  intros Hscan Hnull Hnest Hmerge Hindex Hpush. unfold make_one_rel.
  destruct (make_scans db (tables query) (conds query)) as [[tse cs]|] eqn:Hms;
    simpl; [|done].
  apply make_scans_spec in Hms as [Hscans _].
  assert (∀ i scan, tse !! i = Some scan → Q scan) as Hleaf.
  { intros i scan Hi.
    destruct (Forall2_lookup_r _ _ _ _ _ Hscans Hi) as (t & _ & tag & cs' & ns & ->).
    apply Hscan. }
  assert (∀ ptr, Q (deref tse ptr)) as Hderef.
  { intros [i|]; [|done]. unfold deref.
    destruct (tse !! i) as [scan|] eqn:Hi; [|done]. by eapply Hleaf. }
  assert (∀ scantbl tje, Q tje → Q (join_unscanned tse scantbl tje)) as Hrest.
  { clear Hderef Hleaf.
    induction Hscans as [|t scan tables tse (tag & cs' & ns & ->) _ IH];
      intros [|flag flags] tje Htje; simpl; try done.
    apply IH. destruct (flag =? -1)%Z; [|done]. by apply Hnest. }
  case_decide.
  { unfold at_. destruct (tse !! 0) as [scan|] eqn:H0; simpl; [|done].
    intros [= <- _]. by eapply Hleaf. }
  destruct cs as [|it rest].
  { unfold at_. destruct (tse !! 0) as [scan|] eqn:H0; simpl; [|done].
    intros [= <- _]. apply Hrest. by eapply Hleaf. }
  destruct (first_join db nl sm tse _ _ it) as [[[p1 s1] j1]|] eqn:Hfirst;
    simpl; [|done].
  assert (Q p1) as Hp1.
  { unfold first_join in Hfirst.
    destruct (pop_scan _ _ _ _) as [[[sa ja] lp]|] in Hfirst; [|done].
    cbn [bind] in Hfirst.
    destruct (pop_scan _ _ _ _) as [[[sb jb] rp]|] in Hfirst; [|done].
    cbn [bind] in Hfirst.
    destruct (at_ tse 1) in Hfirst; [|done]. cbn [bind] in Hfirst.
    destruct (decide (lp = Some 1 ∧ rp = Some 0)); simpl in Hfirst;
      destruct nl, sm; simpl in Hfirst; try done;
      repeat match type of Hfirst with
             | context [get_index_cols ?a ?b ?c ?d] =>
                 destruct (get_index_cols a b c d) as [[[? ?] ?]|]; [|done];
                 cbn [bind] in Hfirst
             end;
      try match type of Hfirst with
          | context [?a && ?b] => destruct (a && b)
          end;
      injection Hfirst as <- _ _; auto. }
  clear Hfirst.
  destruct (join_more tse rest s1 j1 p1) as [[[p2 s2] j2]|] eqn:Hmore; simpl; [|done].
  intros [= <- _]. apply Hrest. clear Hrest.
  revert s1 j1 p1 Hp1 Hmore. induction rest as [|c rest IH]; intros s1 j1 p1 Hp1; simpl.
  { by intros [= <- _ _]. }
  destruct (join_more_step tse c s1 j1 p1) as [[[p' s'] j']|] eqn:Hstep; simpl; [|done].
  apply IH. unfold join_more_step in Hstep.
  destruct (decide (tab_name (lhs_col c) ∈ j1));
    [|destruct (pop_scan _ _ _ _) as [[[sa ja] lp]|] in Hstep; [|done]];
    cbn [bind] in Hstep;
    (match type of Hstep with
     | context [decide (?x ∈ ?l)] => destruct (decide (x ∈ l))
     end;
     [|destruct (pop_scan _ _ _ _) as [[[sb jb] rp]|] in Hstep; [|done]]);
    cbn [bind] in Hstep; injection Hstep as <- _ _;
    repeat match goal with
           | |- context [match ?o with Some _ => _ | None => _ end] => destruct o
           end; auto.
Qed.

(** Every sort-merge join with index joins two index scans without
    conditions. *)
Fixpoint index_merges_unfiltered (p : Plan) : Prop :=
  match p with
  | JoinPlan tag l r _ =>
      (tag = T_SortMergeWithIndex →
       ∃ t1 n1 t2 n2,
         l = ScanPlan T_IndexScan t1 [] n1 ∧ r = ScanPlan T_IndexScan t2 [] n2) ∧
      index_merges_unfiltered l ∧ index_merges_unfiltered r
  | SortPlan _ sub _ _ => index_merges_unfiltered sub
  | AggregationPlan _ sub _ _ _ => index_merges_unfiltered sub
  | ProjectionPlan _ sub _ => index_merges_unfiltered sub
  | DMLPlan _ sub _ _ _ _ => index_merges_unfiltered sub
  | _ => True
  end.

Lemma push_conds_index_merges cond p :
  index_merges_unfiltered p → index_merges_unfiltered (push_conds cond p).2.
Proof.
  revert cond. induction p as [|tag t cs ns|tag l IHl r IHr cs| | | | |];
    intros cond; try done.
  - simpl. by repeat case_match.
  - intros (Htag & Hl & Hr). cbn [push_conds].
    specialize (IHl cond Hl).
    destruct (push_conds cond l) as [[lres cond1] l'] eqn:Hpl.
    specialize (IHr cond1 Hr).
    destruct (push_conds cond1 r) as [[rres cond2] r'] eqn:Hpr.
    assert (tag = T_SortMergeWithIndex → l' = l ∧ r' = r) as Hsame.
    { intros Ht. destruct (Htag Ht) as (t1 & n1 & t2 & n2 & -> & ->).
      simpl in Hpl, Hpr. split.
      - by repeat case_match; simplify_eq.
      - by repeat case_match; simplify_eq. }
    simpl in IHl, IHr.
    repeat case_match; simpl; (split_and!; [|done..]);
      intros Ht; destruct (Hsame Ht) as [-> ->]; by apply Htag.
Qed.

(** X15.  In a plan of [make_one_rel], a sort-merge join with index joins two
    new index scans that carry no conditions: the scans built for the
    two tables, with the conditions popped for them, are not used. *)
Theorem index_merge_joins_scan_unfiltered db nl sm query plan query' :
  make_one_rel db nl sm query = Ok (plan, query') →
  index_merges_unfiltered plan.
Proof.
  apply make_one_rel_nodes; try done.
  - intros t1 n1 t2 n2 cs. simpl. split_and!; try done. intros _. by eexists _, _, _, _.
  - intros c p. apply push_conds_index_merges.
Qed.

Definition indexed_tab (t : string) (cs : list string) : TabMeta :=
  {| tab_cols := int_col t <$> cs; indexes := [mkIndexMeta [int_col t "x"]] |}.

Definition indexed_db : gmap string TabMeta :=
  {[ "t1" := indexed_tab "t1" ["x"; "z"]; "t2" := indexed_tab "t2" ["x"] ]}.

Definition filtered_join : Query :=
  select_query ["t1"; "t2"]
    [lit "t1" "z" OP_GT 5; col_cond "t1" "x" OP_EQ "t2" "x"] None.

Lemma index_merge_joins_scan_unfiltered_witness :
  make_one_rel indexed_db false true filtered_join =
    Ok (JoinPlan T_SortMergeWithIndex (ScanPlan T_IndexScan "t1" [] ["x"])
          (ScanPlan T_IndexScan "t2" [] ["x"]) [col_cond "t1" "x" OP_EQ "t2" "x"],
        select_query ["t1"; "t2"] [] None) ∧
  index_merges_unfiltered
    (JoinPlan T_SortMergeWithIndex (ScanPlan T_IndexScan "t1" [] ["x"])
       (ScanPlan T_IndexScan "t2" [] ["x"]) [col_cond "t1" "x" OP_EQ "t2" "x"]).
Proof.
  split; [vm_compute; reflexivity|].
  apply (index_merge_joins_scan_unfiltered indexed_db false true filtered_join _
           (select_query ["t1"; "t2"] [] None)).
  vm_compute. reflexivity.
Defined.

(** ** Plans of the other statements *)

(** The column definition a field of CREATE TABLE stands for. *)
Definition field_def (interp_sv_type : SvType → ColType) (field : Field)
  : option ColDef :=
  match field with
  | F_ColDef col_name sv_type len =>
      Some {| def_name := col_name; def_type := interp_sv_type sv_type;
              def_len := len |}
  | F_Other => None
  end.

Lemma make_col_defs_spec interp fields col_defs :
  make_col_defs interp fields col_defs =
  match mapM (field_def interp) fields with
  | Some defs => Ok (col_defs ++ defs)
  | None => Err (InternalError "Unexpected field type")
  end.
Proof.
  revert col_defs. induction fields as [|[n t l|] fields IH]; intros col_defs; simpl.
  - by rewrite app_nil_r.
  - rewrite IH. destruct (mapM (field_def interp) fields); simpl; [|done].
    by rewrite <- app_assoc.
  - done.
Qed.

(** X16.  The plan of CREATE TABLE has one column definition for each field,
    in the order of the fields, with the type converted; a field that is
    not a column definition makes the planner throw [InternalError]. *)
Theorem create_table_plan db nl sm interp query t fields :
  parse query = CreateTable t fields →
  do_planner db nl sm interp query =
  match mapM (field_def interp) fields with
  | Some defs => Ok (DDLPlan T_CreateTable t [] defs)
  | None => Err (InternalError "Unexpected field type")
  end.
Proof.
  intros Hparse. unfold do_planner. rewrite Hparse, make_col_defs_spec.
  by destruct (mapM (field_def interp) fields).
Qed.

Lemma create_table_plan_witness :
  do_planner ∅ true false (λ _, TYPE_INT)
    {| parse := CreateTable "t" [F_ColDef "a" SV_TYPE_INT 4; F_ColDef "b" SV_TYPE_INT 4];
       tables := []; conds := []; query_cols := []; has_aggr := false;
       group_cols := []; having_conds := []; values := []; set_clauses := [] |} =
  Ok (DDLPlan T_CreateTable "t" []
        [mkColDef "a" TYPE_INT 4; mkColDef "b" TYPE_INT 4]).
Proof.
  apply (create_table_plan ∅ true false (λ _, TYPE_INT) _ "t"
           [F_ColDef "a" SV_TYPE_INT 4; F_ColDef "b" SV_TYPE_INT 4]).
  reflexivity.
Defined.

(** X17.  The plan of DELETE and of UPDATE on a table of a catalog whose
    indexes name each key column once: the scan and the statement node
    carry the same list of conditions, a permutation of the WHERE
    clause; the scan is an index scan, with the key columns of the
    chosen index, exactly when some index of the table has a prefix
    score of at least 1, and a sequential scan with the conditions as
    written otherwise. *)
Theorem delete_update_plan db nl sm interp query t tab :
  db !! t = Some tab → distinct_keys db →
  ∃ scan_tag conds' names,
    (parse query = DeleteStmt t →
     do_planner db nl sm interp query =
       Ok (DMLPlan T_Delete (ScanPlan scan_tag t conds' names) t [] conds' [])) ∧
    (parse query = UpdateStmt t →
     do_planner db nl sm interp query =
       Ok (DMLPlan T_Update (ScanPlan scan_tag t conds' names) t [] conds'
             (set_clauses query))) ∧
    conds' ≡ₚ conds query ∧
    ((scan_tag = T_SeqScan ∧ names = [] ∧ conds' = conds query ∧
      Forall (λ ix, prefix_score (conds query) (cols ix) = 0) (indexes tab)) ∨
     (scan_tag = T_IndexScan ∧
      ∃ i ix, first_best (conds query) (indexes tab) i ix ∧
              names = map name (cols ix))).
Proof.
  intros Htab Hdb.
  assert (∃ found conds' names,
    get_index_cols db t (conds query) [] = Ok (found, conds', names) ∧
    conds' ≡ₚ conds query ∧
    ((found = false ∧ names = [] ∧ conds' = conds query ∧
      Forall (λ ix, prefix_score (conds query) (cols ix) = 0) (indexes tab)) ∨
     (found = true ∧
      ∃ i ix, first_best (conds query) (indexes tab) i ix ∧
              names = map name (cols ix)))) as (found & conds' & names & Hget & Hperm & Hcase).
  { destruct (get_index_cols_cases db t tab (conds query) [] Htab)
      as [[Hzero Hget]|(i & ix & curr' & new' & Hbest & _ & _ & Hget)].
    - eexists _, _, _. split; [done|]. split; [done|]. left. done.
    - eexists _, _, _. split; [done|]. split.
      + by eapply get_index_cols_Permutation.
      + right. split; [done|]. by exists i, ix. }
  exists (if found then T_IndexScan else T_SeqScan), conds', names.
  unfold do_planner, single_table_scan. split_and!; try done.
  - intros ->. rewrite Hget. simpl.
    by destruct Hcase as [(-> & -> & -> & _)|(-> & _)].
  - intros ->. rewrite Hget. simpl.
    by destruct Hcase as [(-> & -> & -> & _)|(-> & _)].
  - destruct Hcase as [(-> & Hrest)|(-> & Hrest)]; [by left|by right].
Qed.

(** DELETE FROM t WHERE b = 1 AND a = 2 AND c > 0, on the table of S3. *)
Definition delete_query : Query :=
  {| parse := DeleteStmt "t"; tables := ["t"]; conds := s3_conds; query_cols := [];
     has_aggr := false; group_cols := []; having_conds := []; values := [];
     set_clauses := [] |}.

Lemma s3_db_distinct_keys : distinct_keys s3_db.
Proof.
  intros t tab Ht. unfold s3_db in Ht.
  apply lookup_singleton_Some in Ht as [_ <-].
  unfold distinct_key_cols. simpl. repeat constructor; set_solver.
Qed.

Lemma delete_update_plan_witness :
  do_planner s3_db true false (λ _, TYPE_INT) delete_query =
    Ok (DMLPlan T_Delete (ScanPlan T_IndexScan "t" s3_reordered ["a"; "b"; "c"]) "t" []
          s3_reordered []) ∧
  ∃ scan_tag conds' names,
    (parse delete_query = DeleteStmt "t" →
     do_planner s3_db true false (λ _, TYPE_INT) delete_query =
       Ok (DMLPlan T_Delete (ScanPlan scan_tag "t" conds' names) "t" [] conds' [])) ∧
    (parse delete_query = UpdateStmt "t" →
     do_planner s3_db true false (λ _, TYPE_INT) delete_query =
       Ok (DMLPlan T_Update (ScanPlan scan_tag "t" conds' names) "t" [] conds'
             (set_clauses delete_query))) ∧
    conds' ≡ₚ conds delete_query ∧
    ((scan_tag = T_SeqScan ∧ names = [] ∧ conds' = conds delete_query ∧
      Forall (λ ix, prefix_score (conds delete_query) (cols ix) = 0)
        (indexes s3_tab)) ∨
     (scan_tag = T_IndexScan ∧
      ∃ i ix, first_best (conds delete_query) (indexes s3_tab) i ix ∧
              names = map name (cols ix))).
Proof.
  split; [vm_compute; reflexivity|].
  apply (delete_update_plan s3_db true false (λ _, TYPE_INT) delete_query "t" s3_tab).
  - reflexivity.
  - apply s3_db_distinct_keys.
Defined.

(** ** A SELECT with no join executor *)

Lemma make_scans_keeps db tables conds scans conds' c :
  make_scans db tables conds = Ok (scans, conds') →
  c ∈ conds → (∀ t, t ∈ tables → popped t c = false) → c ∈ conds'.
Proof.
  revert conds scans conds'.
  induction tables as [|t rest IH]; intros conds scans conds'; simpl.
  { by intros [= <- <-]. }
  rewrite pop_conds_spec.
  destruct (get_index_cols db t _ []) as [[[found curr] names]|]; simpl; [|done].
  destruct (make_scans db rest _) as [[scans' conds'']|] eqn:Hrest; simpl; [|done].
  intros [= <- <-] Hc Hpop. eapply IH; [done| |].
  - apply list_elem_of_filter. split; [|done].
    rewrite (Hpop t) by (by left). done.
  - intros t' Ht'. apply Hpop. by right.
Qed.

(** A tree of nested-loop joins without conditions over scans. *)
Fixpoint cross_joins (p : Plan) : Prop :=
  match p with
  | ScanPlan _ _ _ _ => True
  | JoinPlan tag l r cs => tag = T_NestLoop ∧ cs = [] ∧ cross_joins l ∧ cross_joins r
  | _ => False
  end.

(** The tree after each scan of [scans] in turn has joined [tree] from
    the left, by a nested-loop join without condition. *)
Definition cross_join_all (tree : Plan) (scans : list Plan) : Plan :=
  foldl (λ tree scan, JoinPlan T_NestLoop scan tree []) tree scans.

Lemma join_unscanned_all scans tree :
  join_unscanned scans (replicate (length scans) (-1)%Z) tree =
  cross_join_all tree scans.
Proof.
  revert tree. induction scans as [|scan scans IH]; intros tree; [done|].
  simpl. apply IH.
Qed.

Lemma cross_join_all_spec tables scans tree :
  scans_of tables scans → cross_joins tree →
  cross_joins (cross_join_all tree scans) ∧
  plan_scans (cross_join_all tree scans) = rev scans ++ plan_scans tree.
Proof.
  intros Hscans. revert tree.
  induction Hscans as [|t scan tables scans (tag & cs & ns & ->) _ IH];
    intros tree Htree; [done|].
  simpl. destruct (IH (JoinPlan T_NestLoop (ScanPlan tag t cs ns) tree [])) as [Hc Hs].
  { by simpl. }
  split; [done|]. rewrite Hs. simpl. by rewrite <- app_assoc.
Qed.

(** X18.  With both join executors disabled, a SELECT over two or more tables
    of the catalog throws [RMDBError] as soon as one condition is
    between two different tables.  When every condition is popped into
    some scan, the plan is still a tree of nested-loop joins without
    conditions: the scan of the first table, joined from the left by
    the scan of each further table in turn. *)
Theorem select_without_join_executor db query :
  2 ≤ length (tables query) →
  (∀ t, t ∈ tables query → is_Some (db !! t)) →
  ((∃ c, c ∈ conds query ∧ is_rhs_val c = false ∧
         tab_name (lhs_col c) ≠ tab_name (rhs_col c)) →
   make_one_rel db false false query = Err (RMDBError "No join executor selected!")) ∧
  ((∀ c, c ∈ conds query → ∃ t, t ∈ tables query ∧ popped t c = true) →
   ∃ scan0 scans plan,
     make_scans db (tables query) (conds query) = Ok (scan0 :: scans, []) ∧
     scans_of (tables query) (scan0 :: scans) ∧
     make_one_rel db false false query = Ok (plan, set_conds query []) ∧
     plan = foldl (λ tree scan, JoinPlan T_NestLoop scan tree []) scan0 scans ∧
     cross_joins plan ∧ plan_scans plan = rev scans ++ [scan0]).
Proof.
  intros Htwo Hdb.
  destruct (make_scans_is_Ok db (tables query) (conds query) Hdb) as [[tse cs] Hms].
  pose proof Hms as Hscans. apply make_scans_spec in Hscans as [Hscans Hcs].
  pose proof (Forall2_length _ _ _ Hscans) as Hlen.
  unfold make_one_rel. rewrite Hms. simpl.
  rewrite decide_False by lia. split.
  - intros (c & Hc & Hval & Hne).
    assert (c ∈ cs) as Hin.
    { eapply make_scans_keeps; [done..|]. intros t _. unfold popped.
      rewrite Hval, andb_false_r. simpl. by apply String.eqb_neq. }
    destruct cs as [|it rest]; [by apply elem_of_nil in Hin|].
    unfold first_join.
    destruct (pop_scan_found (tables query) tse
                (replicate (length (tables query)) (-1)%Z) (tab_name (lhs_col it))
                (replicate (length (tables query)) EmptyString) Hscans)
      as (s1 & j1 & lp & -> & _). cbn [bind].
    destruct (pop_scan_found (tables query) tse s1 (tab_name (rhs_col it)) j1 Hscans)
      as (s2 & j2 & rp & -> & _). cbn [bind].
    unfold at_. destruct (lookup_lt_is_Some_2 tse 1) as [scan1 ->]; [lia|].
    cbn [bind]. by destruct (decide _).
  - intros Hlocal.
    assert (cs = []) as ->.
    { destruct cs as [|c cs]; [done|].
      destruct (Hcs c ltac:(by left)) as [Hc Hpop].
      destruct (Hlocal c Hc) as (t & Ht & Hpopped). by rewrite (Hpop t Ht) in Hpopped. }
    destruct (tables query) as [|t0 ts] eqn:Htables; [simpl in Htwo; lia|].
    pose proof Hscans as Hall.
    apply Forall2_cons_inv_l in Hscans
      as (scan0 & scans & (tag & cs0 & ns & ->) & Hrest & ->).
    apply Forall2_length in Hrest as Hlen'.
    exists (ScanPlan tag t0 cs0 ns), scans, (cross_join_all (ScanPlan tag t0 cs0 ns) scans).
    destruct (cross_join_all_spec ts scans (ScanPlan tag t0 cs0 ns) Hrest) as [Hc Hs];
      [done|].
    split_and!; try done.
    simpl. by rewrite Hlen', join_unscanned_all.
Qed.

Lemma select_without_join_executor_witness :
  make_one_rel two_tables_db false false
    (select_query ["t1"; "t2"] [col_cond "t1" "x" OP_EQ "t2" "y"] None) =
    Err (RMDBError "No join executor selected!") ∧
  make_one_rel two_tables_db false false
    (select_query ["t1"; "t2"] [lit "t2" "y" OP_GT 5] None) =
    Ok (JoinPlan T_NestLoop (ScanPlan T_SeqScan "t2" [lit "t2" "y" OP_GT 5] [])
          (ScanPlan T_SeqScan "t1" [] []) [],
        select_query ["t1"; "t2"] [] None) ∧
  ∃ scan0 scans plan,
    make_scans two_tables_db ["t1"; "t2"] [lit "t2" "y" OP_GT 5] =
      Ok (scan0 :: scans, []) ∧
    scans_of ["t1"; "t2"] (scan0 :: scans) ∧
    make_one_rel two_tables_db false false
      (select_query ["t1"; "t2"] [lit "t2" "y" OP_GT 5] None) =
      Ok (plan, select_query ["t1"; "t2"] [] None) ∧
    plan = foldl (λ tree scan, JoinPlan T_NestLoop scan tree []) scan0 scans ∧
    cross_joins plan ∧ plan_scans plan = rev scans ++ [scan0].
Proof.
  assert (∀ t, t ∈ ["t1"; "t2"] → is_Some (two_tables_db !! t)) as Hdb.
  { intros t Ht.
    repeat (apply elem_of_cons in Ht as [->|Ht]; [by eexists|]).
    by apply elem_of_nil in Ht. }
  split_and!; [|vm_compute; reflexivity|].
  - apply (select_without_join_executor two_tables_db
             (select_query ["t1"; "t2"] [col_cond "t1" "x" OP_EQ "t2" "y"] None));
      [simpl; lia|done|].
    exists (col_cond "t1" "x" OP_EQ "t2" "y"). split_and!; [by left|done|discriminate].
  - apply (select_without_join_executor two_tables_db
             (select_query ["t1"; "t2"] [lit "t2" "y" OP_GT 5] None));
      [simpl; lia|done|].
    intros c ->%list_elem_of_singleton. exists "t2". split; [|reflexivity].
    right. by left.
Defined.

(** ** The plan of a SELECT, top down *)

(** [make_one_rel] changes nothing of the query but [conds]. *)
Lemma make_one_rel_query db nl sm query plan query' :
  make_one_rel db nl sm query = Ok (plan, query') →
  ∃ cs, query' = set_conds query cs.
Proof.
  unfold make_one_rel.
  destruct (make_scans db (tables query) (conds query)) as [[tse cs]|]; simpl; [|done].
  case_decide.
  { destruct (at_ tse 0); simpl; [|done]. intros [= _ <-]. by eexists. }
  destruct cs as [|it rest].
  - destruct (at_ tse 0); simpl; [|done]. intros [= _ <-]. by exists [].
  - destruct (first_join _ _ _ _ _ _ _) as [[[? ?] ?]|]; simpl; [|done].
    destruct (join_more _ _ _ _ _) as [[[? ?] ?]|]; simpl; [|done].
    intros [= _ <-]. by exists [].
Qed.

(** X19.  The plan of a SELECT is, from the root: the statement node, the
    projection on the selected columns, the sort when the statement has
    ORDER BY, the aggregation when the query aggregates or groups, and
    the join tree of [make_one_rel]. *)
Theorem select_plan_shape db nl sm interp query has_sort order plan :
  parse query = SelectStmt has_sort order →
  do_planner db nl sm interp query = Ok plan →
  ∃ rel query' sorted,
    make_one_rel db nl sm query = Ok (rel, query') ∧
    let aggregated :=
      if negb (has_aggr query) && bool_decide (group_cols query = []) then rel
      else AggregationPlan T_Aggregation rel (query_cols query) (group_cols query)
             (having_conds query) in
    (has_sort = false → sorted = aggregated) ∧
    (has_sort = true →
     ∃ ord sel_col, order = Some ord ∧
       sorted = SortPlan T_Sort aggregated sel_col
                  (bool_decide (orderby_dir ord = OrderBy_DESC))) ∧
    plan = DMLPlan T_select (ProjectionPlan T_Projection sorted (query_cols query))
             EmptyString [] [] [].
Proof.
  intros Hparse. unfold do_planner. rewrite Hparse. simpl.
  unfold generate_select_plan, physical_optimization, logical_optimization.
  destruct (make_one_rel db nl sm query) as [[rel q']|] eqn:Hrel; simpl; [|done].
  destruct (make_one_rel_query _ _ _ _ _ _ Hrel) as [cs ->].
  destruct (generate_sort_plan db _ _) as [sorted|] eqn:Hsort; simpl; [|done].
  intros [= <-]. exists rel, (set_conds query cs), sorted. split; [done|].
  unfold generate_sort_plan, generate_aggregation_group_plan in *. simpl in *.
  rewrite Hparse in Hsort. destruct has_sort; simpl in Hsort.
  - destruct (collect_cols db (tables query) []); simpl in Hsort; [|done].
    destruct order as [ord|]; [|done]. injection Hsort as <-.
    split_and!; try done. intros _. by eexists _, _.
  - injection Hsort as <-. split_and!; done.
Qed.

(** SELECT * FROM t1, t2 GROUP BY t1.x ORDER BY x DESC. *)
Definition grouped_query : Query :=
  {| parse := SelectStmt true (Some (mkOrderBy (mkTabCol EmptyString "x") OrderBy_DESC));
     tables := ["t1"; "t2"]; conds := []; query_cols := [mkTabCol "t1" "x"];
     has_aggr := false; group_cols := [mkTabCol "t1" "x"]; having_conds := [];
     values := []; set_clauses := [] |}.

Definition grouped_plan : Plan :=
  DMLPlan T_select
    (ProjectionPlan T_Projection
       (SortPlan T_Sort
          (AggregationPlan T_Aggregation
             (JoinPlan T_NestLoop (ScanPlan T_SeqScan "t2" [] [])
                (ScanPlan T_SeqScan "t1" [] []) [])
             [mkTabCol "t1" "x"] [mkTabCol "t1" "x"] [])
          (mkTabCol "t2" "x") true)
       [mkTabCol "t1" "x"])
    EmptyString [] [] [].

Lemma select_plan_shape_witness :
  do_planner two_tables_db true false (λ _, TYPE_INT) grouped_query = Ok grouped_plan ∧
  ∃ rel query' sorted,
    make_one_rel two_tables_db true false grouped_query = Ok (rel, query') ∧
    let aggregated :=
      if negb (has_aggr grouped_query) && bool_decide (group_cols grouped_query = [])
      then rel
      else AggregationPlan T_Aggregation rel (query_cols grouped_query)
             (group_cols grouped_query) (having_conds grouped_query) in
    (true = false → sorted = aggregated) ∧
    (true = true →
     ∃ ord sel_col,
       Some (mkOrderBy (mkTabCol EmptyString "x") OrderBy_DESC) = Some ord ∧
       sorted = SortPlan T_Sort aggregated sel_col
                  (bool_decide (orderby_dir ord = OrderBy_DESC))) ∧
    grouped_plan =
      DMLPlan T_select (ProjectionPlan T_Projection sorted (query_cols grouped_query))
        EmptyString [] [] [].
Proof.
  split; [vm_compute; reflexivity|].
  apply (select_plan_shape two_tables_db true false (λ _, TYPE_INT) grouped_query
           true (Some (mkOrderBy (mkTabCol EmptyString "x") OrderBy_DESC)) grouped_plan).
  - reflexivity.
  - vm_compute. reflexivity.
Defined.

(** ** The index test of the sort-merge join *)

(** Some index of the table has [c] as its first key column. *)
Definition keyed_on (tab : TabMeta) (c : string) : Prop :=
  Exists (λ ix, name <$> head (cols ix) = Some c) (indexes tab).

Lemma prefix_score_singleton c index_cols :
  1 ≤ prefix_score [c] index_cols ↔
  name <$> head index_cols = Some (col_name (lhs_col c)).
Proof.
  destruct index_cols as [|k rest]; simpl; [split; [lia|done]|].
  destruct (decide (under_eq [c] (name k))) as [He|He];
    [|destruct (decide (under_neq [c] (name k))) as [Hn|Hn]].
  - apply Exists_cons in He as [[_ Hcol]|Hnil%Exists_nil]; [|done].
    split; [intros _; by rewrite Hcol|lia].
  - apply Exists_cons in Hn as [[_ Hcol]|Hnil%Exists_nil]; [|done].
    split; [intros _; by rewrite Hcol|lia].
  - split; [lia|]. intros [= Hk].
    destruct (decide (op c = OP_EQ)) as [Hop|Hop].
    + destruct He. apply Exists_cons. by left.
    + destruct Hn. apply Exists_cons. by left.
Qed.

Lemma get_index_cols_found_singleton db t tab c names0 :
  db !! t = Some tab → distinct_keys db →
  ∃ found names,
    get_index_cols db t [c] names0 = Ok (found, [c], names) ∧
    (found = true ↔ keyed_on tab (col_name (lhs_col c))).
Proof.
  intros Htab Hdb. unfold keyed_on.
  destruct (get_index_cols_cases db t tab [c] names0 Htab)
    as [[Hzero Hget]|(i & ix & curr' & new' & Hbest & _ & _ & Hget)].
  - exists false, []. split; [done|]. split; [done|].
    intros (ix & Hix & Hhead%prefix_score_singleton)%Exists_exists.
    rewrite Forall_forall in Hzero. specialize (Hzero ix Hix). lia.
  - pose proof Hget as Hsame.
    apply (get_index_cols_singleton db t c names0 _ _ _ Hdb) in Hsame.
    rewrite Hsame in Hget. eexists true, _. split; [done|]. split; [|done].
    intros _. destruct Hbest as (Hix & Hscore & _). apply Exists_exists.
    exists ix. split; [by eapply list_elem_of_lookup_2|].
    by apply prefix_score_singleton.
Qed.

(** X20.  With only the sort-merge join enabled, on a catalog whose indexes
    name each key column once and for a first condition between two
    different FROM tables of the catalog, the first join is a
    sort-merge join with index exactly when the left table has an index
    whose first key column is the left column of the condition and the
    right table has an index whose first key column has the name of
    that same left column: the right table is looked up with the
    condition as it stands, not with its sides swapped. *)
Theorem sort_merge_index_test db tables tse scantbl jt it :
  distinct_keys db → scans_of tables tse → 2 ≤ length tables →
  tab_name (lhs_col it) ∈ tables → tab_name (rhs_col it) ∈ tables →
  tab_name (lhs_col it) ≠ tab_name (rhs_col it) →
  is_Some (db !! tab_name (lhs_col it)) → is_Some (db !! tab_name (rhs_col it)) →
  ∃ tag l r c s' j' tabl tabr,
    first_join db false true tse scantbl jt it = Ok (JoinPlan tag l r [c], s', j') ∧
    (c = it ∨ c = swap_cols it) ∧
    db !! tab_name (lhs_col c) = Some tabl ∧ db !! tab_name (rhs_col c) = Some tabr ∧
    (tag = T_SortMergeWithIndex ∨ tag = T_SortMerge) ∧
    (tag = T_SortMergeWithIndex ↔
     keyed_on tabl (col_name (lhs_col c)) ∧ keyed_on tabr (col_name (lhs_col c))).
Proof.
  intros Hdb Hscans Htwo Hl Hr Hne [tabL HtabL] [tabR HtabR].
  destruct (first_index _ _ Hl) as (jl & Hjl & Hfl).
  destruct (first_index _ _ Hr) as (jr & Hjr & Hfr).
  destruct (Forall2_lookup_l _ _ _ _ _ Hscans Hjl) as (sl & Hsl & _).
  destruct (Forall2_lookup_l _ _ _ _ _ Hscans Hjr) as (sr & Hsr & _).
  unfold first_join.
  rewrite (pop_scan_at tables tse _ _ _ jl Hscans Hjl Hfl). cbn [bind].
  rewrite (pop_scan_at tables tse _ _ _ jr Hscans Hjr Hfr). cbn [bind].
  unfold at_. destruct (lookup_lt_is_Some_2 tse 1) as [scan1 ->].
  { apply Forall2_length in Hscans. lia. }
  cbn [bind].
  assert (∀ c tabl tabr,
    db !! tab_name (lhs_col c) = Some tabl → db !! tab_name (rhs_col c) = Some tabr →
    ∀ l r s' j',
    ∃ tag l' r',
      (let* (left_index_exist, join_conds, left_index_col_name) :=
         get_index_cols db (tab_name (lhs_col c)) [c] [] in
       let* (right_index_exist, join_conds, right_index_col_name) :=
         get_index_cols db (tab_name (lhs_col (swap_cols c))) join_conds [] in
       if left_index_exist && right_index_exist
       then
         Ok (JoinPlan T_SortMergeWithIndex
               (ScanPlan T_IndexScan (tab_name (lhs_col (swap_cols (swap_cols c)))) []
                  left_index_col_name)
               (ScanPlan T_IndexScan (tab_name (rhs_col (swap_cols (swap_cols c)))) []
                  right_index_col_name) join_conds, s', j')
       else Ok (JoinPlan T_SortMerge l r join_conds, s', j')) =
        Ok (JoinPlan tag l' r' [c], s' : list Z, j' : list string) ∧
      (tag = T_SortMergeWithIndex ∨ tag = T_SortMerge) ∧
      (tag = T_SortMergeWithIndex ↔
       keyed_on tabl (col_name (lhs_col c)) ∧ keyed_on tabr (col_name (lhs_col c))))
    as Hbranch.
  { intros c tabl tabr Htabl Htabr l r s' j'.
    destruct (get_index_cols_found_singleton db _ tabl c [] Htabl Hdb)
      as (fl & nl & -> & Hfl'). cbn [bind].
    destruct (get_index_cols_found_singleton db (tab_name (lhs_col (swap_cols c)))
                tabr c [] Htabr Hdb) as (fr & nr & -> & Hfr'). cbn [bind].
    destruct fl, fr; simpl; eexists _, _, _; (split; [done|]);
      (split; [auto|]); split; try done; intuition congruence. }
  destruct (decide (Some jl = Some 1 ∧ Some jr = Some 0)) as [Hswap|Hswap]; simpl.
  - destruct (Hbranch (swap_cols it) tabR tabL HtabR HtabL
                (deref tse (Some jr)) (deref tse (Some jl))
                (<[jr := 1%Z]> (<[jl := 1%Z]> scantbl))
                ((jt ++ [tab_name (lhs_col it)]) ++ [tab_name (rhs_col it)]))
      as (tag & l' & r' & Hrun & Htag & Hiff).
    eexists tag, l', r', (swap_cols it), _, _, tabR, tabL.
    split; [exact Hrun|]. split_and!; auto.
  - destruct (Hbranch it tabL tabR HtabL HtabR
                (deref tse (Some jl)) (deref tse (Some jr))
                (<[jr := 1%Z]> (<[jl := 1%Z]> scantbl))
                ((jt ++ [tab_name (lhs_col it)]) ++ [tab_name (rhs_col it)]))
      as (tag & l' & r' & Hrun & Htag & Hiff).
    eexists tag, l', r', it, _, _, tabL, tabR.
    split; [exact Hrun|]. split_and!; auto.
Qed.

(** t1 has an index on x and t2 one on y; for t1.x = t2.y the join is a
    plain sort-merge join, as t2 has no index on a column named x. *)
Definition keyed_tab (t c : string) : TabMeta :=
  {| tab_cols := [int_col t c]; indexes := [mkIndexMeta [int_col t c]] |}.

Definition keyed_db : gmap string TabMeta :=
  {[ "t1" := keyed_tab "t1" "x"; "t2" := keyed_tab "t2" "y" ]}.

Lemma keyed_db_distinct_keys : distinct_keys keyed_db.
Proof.
  intros t tab Ht. unfold keyed_db in Ht.
  apply lookup_insert_Some in Ht as [[_ <-]|[_ Ht]].
  - unfold distinct_key_cols. simpl. repeat constructor; set_solver.
  - apply lookup_singleton_Some in Ht as [_ <-].
    unfold distinct_key_cols. simpl. repeat constructor; set_solver.
Qed.

Lemma sort_merge_index_test_witness :
  (let it := col_cond "t1" "x" OP_EQ "t2" "y" in
   let tse := [ScanPlan T_IndexScan "t1" [] ["x"]; ScanPlan T_IndexScan "t2" [] ["y"]] in
   first_join keyed_db false true tse [-1; -1]%Z [EmptyString; EmptyString] it =
     Ok (JoinPlan T_SortMerge (ScanPlan T_IndexScan "t1" [] ["x"])
           (ScanPlan T_IndexScan "t2" [] ["y"]) [it],
         [1; 1]%Z, [EmptyString; EmptyString; "t1"; "t2"])) ∧
  ∃ tag l r c s' j' tabl tabr,
    first_join keyed_db false true
      [ScanPlan T_IndexScan "t1" [] ["x"]; ScanPlan T_IndexScan "t2" [] ["y"]]
      [-1; -1]%Z [EmptyString; EmptyString] (col_cond "t1" "x" OP_EQ "t2" "y") =
      Ok (JoinPlan tag l r [c], s', j') ∧
    (c = col_cond "t1" "x" OP_EQ "t2" "y" ∨
     c = swap_cols (col_cond "t1" "x" OP_EQ "t2" "y")) ∧
    keyed_db !! tab_name (lhs_col c) = Some tabl ∧
    keyed_db !! tab_name (rhs_col c) = Some tabr ∧
    (tag = T_SortMergeWithIndex ∨ tag = T_SortMerge) ∧
    (tag = T_SortMergeWithIndex ↔
     keyed_on tabl (col_name (lhs_col c)) ∧ keyed_on tabr (col_name (lhs_col c))).
Proof.
  split; [vm_compute; reflexivity|].
  apply (sort_merge_index_test keyed_db ["t1"; "t2"]).
  - apply keyed_db_distinct_keys.
  - repeat constructor; by eexists _, _, _.
  - simpl. lia.
  - by left.
  - right. by left.
  - discriminate.
  - by eexists.
  - by eexists.
Defined.

(** ** The operator of a swapped first condition *)



(** * The replacer: pin and unpin together *)

Section replacer_round_trips.
Import LRUReplacer.

Lemma filter_absent (l : list Z) f : f ∉ l → filter (λ f', f' ≠ f) l = l.
Proof.
  induction l as [|x l IH]; [done|]. intros [Hx Hl]%not_elem_of_cons.
  rewrite filter_cons, decide_True by done. by rewrite IH.
Qed.

Lemma length_filter_present (l : list Z) f :
  NoDup l → f ∈ l → S (length (filter (λ f', f' ≠ f) l)) = length l.
Proof.
  induction l as [|x l IH]; [by intros _ ?%elem_of_nil|].
  intros [Hx Hl]%NoDup_cons Hf. rewrite filter_cons.
  destruct (decide (x = f)) as [->|Hne].
  - rewrite decide_False by (by intros []). simpl. by rewrite filter_absent.
  - rewrite decide_True by done. simpl. f_equal. apply IH; [done|].
    by apply elem_of_cons in Hf as [->|Hf].
Qed.

(** X21.  A frame of the replacer that is pinned and then unpinned again
    becomes the most recently added frame; the others keep their
    order. *)
Theorem pin_unpin_moves_to_front r f :
  replacer_wf r → f ∈ frames r →
  ∃ r1 r2,
    pin r f = Ok r1 ∧ unpin r1 f = Ok r2 ∧ replacer_wf r2 ∧
    frames r2 = f :: filter (λ f', f' ≠ f) (frames r) ∧
    Size r2 = Size r.
Proof.
  intros Hwf Hf.
  destruct (pin_present_spec r f Hwf Hf) as (r1 & Hr1 & Hwf1 & Hfl1 & Hmax1).
  assert (f ∉ frames r1) as Hnot.
  { rewrite Hfl1. by intros [? _]%list_elem_of_filter. }
  assert (0 ≤ f < Z.of_N (max_size_ r1))%Z as Hrange.
  { rewrite Hmax1. by destruct Hwf as (_ & _ & _ & Hin & _); apply Hin. }
  destruct (unpin_absent_spec r1 f Hwf1 Hnot Hrange) as (r2 & Hr2 & Hwf2 & Hfl2 & _).
  exists r1, r2. split_and!; try done.
  - by rewrite Hfl2, Hfl1.
  - unfold Size. rewrite <- !(length_fmap snd). fold (frames r2) (frames r).
    rewrite Hfl2, Hfl1. simpl. apply length_filter_present; [|done].
    by destruct Hwf as (_ & Hnodup & _).
Qed.

Lemma pin_unpin_moves_to_front_witness :
  ∃ r1 r2,
    pin two_frames 0 = Ok r1 ∧ unpin r1 0 = Ok r2 ∧ replacer_wf r2 ∧
    frames r2 = 0%Z :: filter (λ f', f' ≠ 0%Z) (frames two_frames) ∧
    Size r2 = Size two_frames.
Proof.
  apply (pin_unpin_moves_to_front two_frames 0 two_frames_wf).
  right. by left.
Defined.

Lemma filter_fresh_node (l : list (nat * Z)) n :
  (∀ n', n' ∈ l.*1 → n' < n) → filter (λ node : nat * Z, node.1 ≠ n) l = l.
Proof.
  induction l as [|[n' f'] l IH]; [done|]. rewrite fmap_cons. intros Hfresh.
  rewrite filter_cons, decide_True.
  - f_equal. apply IH. intros n'' Hn''. apply Hfresh. by right.
  - simpl. specialize (Hfresh n' ltac:(by left)). lia.
Qed.

(** X22.  [unpin] of a frame of the pool that is not in the replacer,
    followed by [pin] of it, gives back the list and the map as they
    were. *)
Theorem unpin_pin_round_trip r f :
  replacer_wf r → f ∉ frames r → (0 ≤ f < Z.of_N (max_size_ r))%Z →
  ∃ r1 r2,
    unpin r f = Ok r1 ∧ pin r1 f = Ok r2 ∧
    LRUlist_ r2 = LRUlist_ r ∧ LRUhash_ r2 = LRUhash_ r ∧
    max_size_ r2 = max_size_ r ∧ replacer_wf r2.
Proof.
  intros Hwf Hf Hrange. pose proof (replacer_wf_absent r f Hwf Hf) as Hnone.
  destruct (unpin_absent_spec r f Hwf Hf Hrange) as (r1 & Hr1 & Hwf1 & Hfl1 & Hmax1).
  destruct (pin_present_spec r1 f Hwf1) as (r2 & Hr2 & Hwf2 & Hfl2 & Hmax2).
  { rewrite Hfl1. by left. }
  exists r1, r2. split_and!; try done; [| |congruence].
  - unfold unpin in Hr1. rewrite Hnone in Hr1.
    destruct (_ && _) in Hr1; [|done]. simpl in Hr1. injection Hr1 as <-.
    unfold pin in Hr2. simpl in Hr2. rewrite lookup_insert_eq in Hr2.
    unfold erase in Hr2. rewrite decide_True in Hr2 by (rewrite fmap_cons; by left).
    simpl in Hr2. injection Hr2 as <-. simpl.
    rewrite filter_cons. simpl. rewrite decide_False by (by intros []).
    destruct Hwf as (_ & _ & Hfresh & _). by apply filter_fresh_node.
  - unfold unpin in Hr1. rewrite Hnone in Hr1.
    destruct (_ && _) in Hr1; [|done]. simpl in Hr1. injection Hr1 as <-.
    unfold pin in Hr2. simpl in Hr2. rewrite lookup_insert_eq in Hr2.
    unfold erase in Hr2. rewrite decide_True in Hr2 by (rewrite fmap_cons; by left).
    simpl in Hr2. injection Hr2 as <-. simpl.
    by rewrite delete_insert_eq, delete_id.
Qed.

Lemma unpin_pin_round_trip_witness :
  ∃ r1 r2,
    unpin two_frames 2 = Ok r1 ∧ pin r1 2 = Ok r2 ∧
    LRUlist_ r2 = LRUlist_ two_frames ∧ LRUhash_ r2 = LRUhash_ two_frames ∧
    max_size_ r2 = max_size_ two_frames ∧ replacer_wf r2.
Proof.
  apply (unpin_pin_round_trip two_frames 2 two_frames_wf); [|simpl; lia].
  vm_compute. by intros [[=]|[[=]|[]%elem_of_nil]%elem_of_cons]%elem_of_cons.
Defined.

End replacer_round_trips.

(** * The planner: where a literal condition goes *)

(** A condition against a literal is put on the scan of its table by
    the loop that builds the scans. *)
Lemma make_scans_value_cond db tables conds scans conds' c j :
  distinct_keys db →
  make_scans db tables conds = Ok (scans, conds') →
  c ∈ conds → is_rhs_val c = true →
  tab_name (lhs_col c) ≠ tab_name (rhs_col c) →
  tables !! j = Some (tab_name (lhs_col c)) →
  (∀ j', j' < j → tables !! j' ≠ Some (tab_name (lhs_col c))) →
  ∃ scan, scans !! j = Some scan ∧ c ∈ scan_node_conds scan.
Proof.
  intros Hdb. revert conds scans conds' j.
  induction tables as [|t rest IH]; intros conds scans conds' j; simpl; [done|].
  rewrite pop_conds_spec.
  destruct (get_index_cols db t _ []) as [[[found curr] names]|] eqn:Hget; simpl; [|done].
  destruct (make_scans db rest _) as [[scans' conds'']|] eqn:Hrest; simpl; [|done].
  intros [= <- <-] Hc Hval Hne Hj Hfirst.
  apply (get_index_cols_Permutation db t _ [] found curr names Hdb) in Hget.
  destruct j as [|j]; simpl in *.
  - injection Hj as ->. eexists. split; [done|].
    assert (c ∈ curr) as Hin.
    { rewrite Hget. apply list_elem_of_filter. split; [|done].
      unfold popped. by rewrite String.eqb_refl, Hval. }
    by destruct found.
  - eapply (IH _ _ _ j) in Hrest; [done| |done..|].
    + apply list_elem_of_filter. split; [|done]. unfold popped.
      assert (t ≠ tab_name (lhs_col c)) as Ht.
      { intros ->. by apply (Hfirst 0); [lia|]. }
      apply String.eqb_neq in Ht, Hne. rewrite Ht, Hne. simpl. congruence.
    + intros j' Hj'. apply (Hfirst (S j')). lia.
Qed.

(** X23.  With the nested-loop join enabled, a condition of the WHERE
    clause against a literal is in the plan on the scan of its own
    table. *)
Theorem literal_condition_on_its_scan db sm query plan query' c :
  distinct_keys db → NoDup (tables query) → tables_known query →
  EmptyString ∉ tables query →
  make_one_rel db true sm query = Ok (plan, query') →
  c ∈ conds query → is_rhs_val c = true →
  tab_name (lhs_col c) ≠ tab_name (rhs_col c) →
  ∃ scan,
    scan ∈ plan_scans plan ∧ scan_table scan = tab_name (lhs_col c) ∧
    c ∈ scan_node_conds scan.
Proof.
  intros Hdb Hnodup Hknown Hempty Hrel Hc Hval Hne.
  destruct (make_one_rel_accounts db true sm query plan query' Hnodup Hknown Hrel)
    as (tse & cs & Hms & _ & _ & _ & Hnl).
  destruct (Hnl eq_refl Hempty) as (Hscans & _).
  destruct (Hknown c Hc) as [Hl _].
  destruct (first_index _ _ Hl) as (j & Hj & Hfirst).
  destruct (make_scans_value_cond db _ _ _ _ c j Hdb Hms Hc Hval Hne Hj Hfirst)
    as (scan & Hscan & Hin).
  exists scan. split_and!; try done.
  - rewrite Hscans. by eapply list_elem_of_lookup_2.
  - apply make_scans_spec in Hms as [Hof _].
    by destruct (scans_of_lookup _ _ _ _ _ Hof Hj Hscan) as (tag & cs' & ns & ->).
Qed.

(** SELECT * FROM t1, t2 WHERE t2.y > 5 AND t1.x = t2.y. *)
Definition literal_query : Query :=
  select_query ["t1"; "t2"]
    [lit "t2" "y" OP_GT 5; col_cond "t1" "x" OP_EQ "t2" "y"] None.

Lemma literal_condition_on_its_scan_witness :
  make_one_rel two_tables_db true false literal_query =
    Ok (JoinPlan T_NestLoop (ScanPlan T_SeqScan "t1" [] [])
          (ScanPlan T_SeqScan "t2" [lit "t2" "y" OP_GT 5] [])
          [col_cond "t1" "x" OP_EQ "t2" "y"],
        select_query ["t1"; "t2"] [] None) ∧
  ∃ scan,
    scan ∈ plan_scans
             (JoinPlan T_NestLoop (ScanPlan T_SeqScan "t1" [] [])
                (ScanPlan T_SeqScan "t2" [lit "t2" "y" OP_GT 5] [])
                [col_cond "t1" "x" OP_EQ "t2" "y"]) ∧
    scan_table scan = tab_name (lhs_col (lit "t2" "y" OP_GT 5)) ∧
    lit "t2" "y" OP_GT 5 ∈ scan_node_conds scan.
Proof.
  split; [vm_compute; reflexivity|].
  apply (literal_condition_on_its_scan two_tables_db false literal_query _
           (select_query ["t1"; "t2"] [] None)).
  - intros t tab Ht. unfold two_tables_db in Ht.
    apply lookup_insert_Some in Ht as [[_ <-]|[_ Ht]]; [by constructor|].
    apply lookup_singleton_Some in Ht as [_ <-]. by constructor.
  - by apply (bool_decide_unpack _).
  - intros c Hc. simpl in Hc.
    repeat (apply elem_of_cons in Hc as [->|Hc];
            [split; [simpl; set_solver|intros; simpl; set_solver]|]).
    by apply elem_of_nil in Hc.
  - by apply (bool_decide_unpack _).
  - vm_compute. reflexivity.
  - by left.
  - reflexivity.
  - discriminate.
Defined.
